(** * ftpmirror: one-way mirroring of a local tree over FTP

    A shallow embedding of [src/ftpmirror.py] (Python 2).  The script is a
    straight-line program over three kinds of effects: commands sent through
    an [ftplib.FTP] connection, operations on the local file system, and
    text written to standard output.  The embedding threads an explicit
    world through a small state-and-exception monad; the FTP server is an
    arbitrary transition system supplied by the environment. *)

From Stdlib Require Import List String Ascii ZArith Bool Arith Lia.
From Stdlib Require Import Permutation Sorted.
Import ListNotations.
Open Scope string_scope.
Open Scope list_scope.
Open Scope nat_scope.

(* ================================================================== *)
(** ** Strings as Python uses them *)

Module Str.

Definition newline : ascii := "010"%char.

(** [string.whitespace] of Python 2: space, TAB, LF, VT, FF, CR. *)
Definition is_space (c : ascii) : bool :=
  let n := nat_of_ascii c in
  (n =? 32) || ((9 <=? n) && (n <=? 13)).

(** [s.replace(a, b)] for one-character [a] and [b]. *)
Fixpoint replace (a b : ascii) (s : string) : string :=
  match s with
  | EmptyString => EmptyString
  | String c s' => String (if Ascii.eqb c a then b else c) (replace a b s')
  end.

(** [s.split(sep)] for a one-character separator: never the empty list. *)
Fixpoint split (sep : ascii) (s : string) : list string :=
  match s with
  | EmptyString => [EmptyString]
  | String c s' =>
      if Ascii.eqb c sep then EmptyString :: split sep s'
      else match split sep s' with
           | [] => [String c EmptyString]
           | w :: ws => String c w :: ws
           end
  end.

(** [sep.join(l)]. *)
Definition join (sep : ascii) (l : list string) : string :=
  String.concat (String sep EmptyString) l.

Fixpoint lstrip_space (s : string) : string :=
  match s with
  | String c s' => if is_space c then lstrip_space s' else s
  | EmptyString => EmptyString
  end.

Fixpoint rstrip_space (s : string) : string :=
  match s with
  | EmptyString => EmptyString
  | String c s' =>
      match rstrip_space s' with
      | EmptyString => if is_space c then EmptyString else String c EmptyString
      | t => String c t
      end
  end.

Fixpoint drop_word (s : string) : string :=
  match s with
  | String c s' => if is_space c then s else drop_word s'
  | EmptyString => EmptyString
  end.

(** [s.split(None, 1)[1]]: the text after the first whitespace-delimited
    word; [None] stands for the [IndexError] raised when there is none. *)
Definition split_none_1_snd (s : string) : option string :=
  match lstrip_space (drop_word (lstrip_space s)) with
  | EmptyString => None
  | rest => Some rest
  end.

(** [s.lstrip(c)]. *)
Fixpoint lstrip_char (c : ascii) (s : string) : string :=
  match s with
  | String a s' => if Ascii.eqb a c then lstrip_char c s' else s
  | EmptyString => EmptyString
  end.

Fixpoint rev_onto (s acc : string) : string :=
  match s with
  | EmptyString => acc
  | String c s' => rev_onto s' (String c acc)
  end.

Fixpoint take (n : nat) (s : string) : string :=
  match n, s with
  | S n', String c s' => String c (take n' s')
  | _, _ => EmptyString
  end.

Fixpoint drop (n : nat) (s : string) : string :=
  match n, s with
  | S n', String _ s' => drop n' s'
  | _, _ => s
  end.

(** Position of the last occurrence of [c], counted from the left. *)
Fixpoint rindex (c : ascii) (s : string) : option nat :=
  match s with
  | EmptyString => None
  | String a s' =>
      match rindex c s' with
      | Some i => Some (S i)
      | None => if Ascii.eqb a c then Some 0 else None
      end
  end.

End Str.

(* ================================================================== *)
(** ** The part of Python's [re] the script relies on

    Patterns are kept in parsed form.  The engine is a backtracking matcher
    in continuation-passing style, which tries alternatives in the order
    [sre] does (left branch first, greedy repetition first). *)

Module Re.

Inductive cset_item : Type :=
| CsChar (c : ascii)
| CsRange (lo hi : ascii)
| CsSpace
| CsNonSpace.

Inductive regex : Type :=
| Eps
| Chr (c : ascii)
| Dot
| Cls (items : list cset_item)
| Cat (r1 r2 : regex)
| Alt (r1 r2 : regex)
| Star (r : regex)
| Group (r : regex)
| Bol
| Eol
| LookBehind (r : regex)
| LookAhead (r : regex).

Definition Plus (r : regex) : regex := Cat r (Star r).
Definition Opt (r : regex) : regex := Alt r Eps.

(** A literal word, character by character. *)
Fixpoint Lit (s : string) : regex :=
  match s with
  | EmptyString => Eps
  | String c EmptyString => Chr c
  | String c s' => Cat (Chr c) (Lit s')
  end.

Definition item_has (c : ascii) (i : cset_item) : bool :=
  match i with
  | CsChar a => Ascii.eqb c a
  | CsRange lo hi =>
      (nat_of_ascii lo <=? nat_of_ascii c) && (nat_of_ascii c <=? nat_of_ascii hi)
  | CsSpace => Str.is_space c
  | CsNonSpace => negb (Str.is_space c)
  end.

(** Width of a pattern when every string it matches has the same length
    ([sre_parse.getwidth] with [lo = hi]). *)
Fixpoint fixed_width (r : regex) : option nat :=
  match r with
  | Eps | Bol | Eol | LookBehind _ | LookAhead _ => Some 0
  | Chr _ | Dot | Cls _ => Some 1
  | Cat r1 r2 =>
      match fixed_width r1, fixed_width r2 with
      | Some a, Some b => Some (a + b)
      | _, _ => None
      end
  | Alt r1 r2 =>
      match fixed_width r1, fixed_width r2 with
      | Some a, Some b => if a =? b then Some a else None
      | _, _ => None
      end
  | Star r1 =>
      match fixed_width r1 with
      | Some 0 => Some 0
      | _ => None
      end
  | Group r1 => fixed_width r1
  end.

(** [sre_compile] rejects a look-behind whose body is not of fixed width
    ("look-behind requires fixed-width pattern"). *)
Fixpoint compilable (r : regex) : bool :=
  match r with
  | Eps | Chr _ | Dot | Cls _ | Bol | Eol => true
  | Cat r1 r2 | Alt r1 r2 => compilable r1 && compilable r2
  | Star r1 | Group r1 | LookAhead r1 => compilable r1
  | LookBehind r1 =>
      compilable r1 && match fixed_width r1 with Some _ => true | None => false end
  end.

(** [^]: start of the text, and with MULTILINE also after a newline.
    [bef] is the text already consumed, last character first. *)
Definition at_bol (multiline : bool) (bef : string) : bool :=
  match bef with
  | EmptyString => true
  | String c _ => multiline && Ascii.eqb c Str.newline
  end.

(** [$]: end of the text or before a final newline, and with MULTILINE
    before any newline. *)
Definition at_eol (multiline : bool) (rest : string) : bool :=
  match rest with
  | EmptyString => true
  | String c EmptyString => Ascii.eqb c Str.newline
  | String c _ => multiline && Ascii.eqb c Str.newline
  end.

Definition orelse {T} (a b : option T) : option T :=
  match a with Some t => Some t | None => b end.

Fixpoint run (T : Type) (ml : bool) (r : regex) (bef rest : string)
    (k : string -> string -> option T) {struct r} : option T :=
  match r with
  | Eps => k bef rest
  | Chr c =>
      match rest with
      | String a rest' => if Ascii.eqb a c then k (String a bef) rest' else None
      | EmptyString => None
      end
  | Dot =>
      match rest with
      | String a rest' =>
          if Ascii.eqb a Str.newline then None else k (String a bef) rest'
      | EmptyString => None
      end
  | Cls items =>
      match rest with
      | String a rest' =>
          if existsb (item_has a) items then k (String a bef) rest' else None
      | EmptyString => None
      end
  | Cat r1 r2 => run T ml r1 bef rest (fun b s => run T ml r2 b s k)
  | Alt r1 r2 => orelse (run T ml r1 bef rest k) (run T ml r2 bef rest k)
  | Star r1 =>
      (fix star (n : nat) (bef rest : string) {struct n} : option T :=
         orelse
           match n with
           | O => None
           | S n' =>
               run T ml r1 bef rest
                 (fun b s =>
                    if String.length s <? String.length rest
                    then star n' b s else None)
           end
           (k bef rest))
        (String.length rest) bef rest
  | Group r1 => run T ml r1 bef rest k
  | Bol => if at_bol ml bef then k bef rest else None
  | Eol => if at_eol ml rest then k bef rest else None
  | LookBehind r1 =>
      match fixed_width r1 with
      | Some w =>
          if w <=? String.length bef then
            match
              run unit ml r1 (Str.drop w bef)
                (Str.rev_onto (Str.take w bef) rest)
                (fun _ s =>
                   if String.length s =? String.length rest
                   then Some tt else None)
            with
            | Some _ => k bef rest
            | None => None
            end
          else None
      | None => None
      end
  | LookAhead r1 =>
      match run unit ml r1 bef rest (fun _ _ => Some tt) with
      | Some _ => k bef rest
      | None => None
      end
  end.

(** The text matched between two positions: what was consumed since. *)
Definition matched (rest rest' : string) : string :=
  Str.take (String.length rest - String.length rest') rest.

(** [re.match(r, s)] once [r] has compiled: the match object's [group(0)],
    or [None]. *)
Definition match_at (ml : bool) (r : regex) (bef rest : string) : option string :=
  run string ml r bef rest (fun _ rest' => Some (matched rest rest')).

(** [re.search(r, s)] once [r] has compiled: leftmost match. *)
Fixpoint search_from (ml : bool) (r : regex) (bef rest : string) : option string :=
  orelse (match_at ml r bef rest)
    match rest with
    | EmptyString => None
    | String c rest' => search_from ml r (String c bef) rest'
    end.

End Re.

(* ================================================================== *)
(** ** Exceptions, the FTP transport and the world *)

(** The Python exceptions the script can meet.  [error_perm] is
    [ftplib.error_perm] (a 5xx reply); [error_other] stands for every other
    failure of the connection ([error_temp], [error_proto], socket errors). *)
Inductive exn : Type :=
| error_perm
| error_other
| re_error
| AttributeError
| IndexError
| ValueError
| OSError
| IOError.

Inductive result (A : Type) : Type :=
| Ok (a : A)
| Raise (e : exn)
| OutOfFuel.
Arguments Ok {A} a.
Arguments Raise {A} e.
Arguments OutOfFuel {A}.

(** What an [ftplib] call comes back with. *)
Inductive reply (A : Type) : Type :=
| Done (a : A)
| Perm
| Fail.
Arguments Done {A} a.
Arguments Perm {A}.
Arguments Fail {A}.

(** The methods of [ftplib.FTP] the script calls.  The server is any
    transition system answering them. *)
Class Transport (Srv : Type) : Type := {
  srv_login : string -> string -> string -> Srv -> reply unit * Srv;
  srv_cwd : string -> Srv -> reply unit * Srv;
  srv_mkd : string -> Srv -> reply unit * Srv;
  srv_nlst : Srv -> reply (list string) * Srv;
  srv_sendcmd : string -> Srv -> reply string * Srv;
  srv_storbinary : string -> Srv -> reply unit * Srv;
  srv_delete : string -> Srv -> reply unit * Srv;
  srv_quit : Srv -> reply unit * Srv
}.

(** Everything the run does that is observable from outside, in order. *)
Inductive event : Type :=
| Login (host user password : string)
| Cwd (d : string)
| Mkd (d : string)
| Nlst
| Sendcmd (line : string)
| Storbinary (line : string) (source : string) (progress : bool)
| Delete (f : string)
| Quit
| Listdir (d : string)
| OpenWrite (f : string)
| OpenRead (f : string)
| CloseFile (f : string)
| Remove (f : string)
| Stdout (text : string).

(** The local file system as [os.walk] sees it.  The names in one
    directory are pairwise distinct, as in any file system. *)
Unset Elimination Schemes.
Inductive node : Type :=
| File (name : string)
| Dir (name : string) (children : list node).
Set Elimination Schemes.

(** What the run reads from its surroundings without changing it: the
    platform's separators, the tree below [LOCAL_ROOT], [os.stat] on local
    paths, the conversion
    [calendar.timegm(time.strptime(s, '%Y%m%d%H%M%S'))], and whether the
    operating system lets the run open a file for reading ([open(p, 'rb')]),
    create one ([open(p, 'w+b')]) and remove one ([os.remove(p)]). *)
Record local_env : Type := {
  os_sep : ascii;
  os_altsep : option ascii;
  local_root : list node;
  getmtime : string -> option Z;
  getsize : string -> option Z;
  timegm_strptime : string -> option Z;
  can_read : string -> bool;
  can_write : string -> bool;
  can_remove : string -> bool
}.

Record arguments : Type := {
  host : string;
  user : string;
  password : string;
  docroot : string;
  files : list string;
  clean : bool;
  excludes : list Re.regex;
  keeps : list Re.regex;
  verbosity : nat
}.

Definition BLOCK_SIZE : Z := 32760.

Section Monad.

Context {Srv : Type}.

Record world : Type := { server : Srv; trace : list event }.

Definition M (A : Type) : Type := world -> result A * world.

Definition ret {A} (a : A) : M A := fun w => (Ok a, w).

Definition bind {A B} (m : M A) (f : A -> M B) : M B :=
  fun w =>
    match m w with
    | (Ok a, w') => f a w'
    | (Raise e, w') => (Raise e, w')
    | (OutOfFuel, w') => (OutOfFuel, w')
    end.

Definition raise {A} (e : exn) : M A := fun w => (Raise e, w).

Definition diverge {A} : M A := fun w => (OutOfFuel, w).

(** [try: m  except E: h] for the exceptions [E] that [catches] accepts. *)
Definition try_except {A} (catches : exn -> bool) (m : M A) (h : M A) : M A :=
  fun w =>
    match m w with
    | (Raise e, w') => if catches e then h w' else (Raise e, w')
    | other => other
    end.

(** [try: m  finally: f].  An exception of [f] replaces that of [m]. *)
Definition try_finally {A} (m : M A) (f : M unit) : M A :=
  fun w =>
    match m w with
    | (Ok a, w') =>
        match f w' with
        | (Ok _, w'') => (Ok a, w'')
        | (Raise e, w'') => (Raise e, w'')
        | (OutOfFuel, w'') => (OutOfFuel, w'')
        end
    | (Raise e, w') =>
        match f w' with
        | (Ok _, w'') => (Raise e, w'')
        | (Raise e', w'') => (Raise e', w'')
        | (OutOfFuel, w'') => (OutOfFuel, w'')
        end
    | (OutOfFuel, w') => (OutOfFuel, w')
    end.

Definition emit (e : event) : M unit :=
  fun w => (Ok tt, {| server := server w; trace := trace w ++ [e] |}).

Definition lift_option {A} (e : exn) (o : option A) : M A :=
  match o with Some a => ret a | None => raise e end.

(** A call into the local file system that the operating system may
    refuse: the call is logged, a refusal becomes the Python exception. *)
Definition attempt (e : event) (allowed : bool) (failure : exn) : M unit :=
  fun w =>
    let w' := {| server := server w; trace := trace w ++ [e] |} in
    if allowed then (Ok tt, w') else (Raise failure, w').

End Monad.

Arguments world Srv : clear implicits.
Arguments M Srv A : clear implicits.

Declare Scope monad_scope.
Delimit Scope monad_scope with monad.
Notation "x <- m ;; k" := (bind m (fun x => k))
  (at level 61, m at next level, right associativity) : monad_scope.
Notation "m ;; k" := (bind m (fun _ => k))
  (at level 61, right associativity) : monad_scope.
Open Scope monad_scope.

Definition only_perm (e : exn) : bool :=
  match e with error_perm => true | _ => false end.

Definition any_exn (e : exn) : bool := true.

Section Ftp.

Context {Srv : Type} `{Transport Srv}.

(** One call of the transport: the command is logged, the server answers,
    a failure becomes the Python exception. *)
Definition call {A} (e : event) (f : Srv -> reply A * Srv) : M Srv A :=
  fun w =>
    let (r, s') := f (server w) in
    let w' := {| server := s'; trace := trace w ++ [e] |} in
    match r with
    | Done a => (Ok a, w')
    | Perm => (Raise error_perm, w')
    | Fail => (Raise error_other, w')
    end.

Definition ftp_login (h u p : string) : M Srv unit :=
  call (Login h u p) (srv_login h u p).
Definition ftp_cwd (d : string) : M Srv unit := call (Cwd d) (srv_cwd d).
Definition ftp_mkd (d : string) : M Srv unit := call (Mkd d) (srv_mkd d).
Definition ftp_nlst : M Srv (list string) := call Nlst srv_nlst.
Definition ftp_sendcmd (line : string) : M Srv string :=
  call (Sendcmd line) (srv_sendcmd line).
Definition ftp_storbinary (line source : string) (progress : bool) : M Srv unit :=
  call (Storbinary line source progress) (srv_storbinary line).
Definition ftp_delete (f : string) : M Srv unit :=
  call (Delete f) (srv_delete f).
Definition ftp_quit : M Srv unit := call Quit srv_quit.

(** [sys.stdout.write(s)], and [print s], which adds the newline. *)
Definition stdout_write (s : string) : M Srv unit := emit (Stdout s).
Definition print (s : string) : M Srv unit :=
  emit (Stdout (s ++ String Str.newline EmptyString)%string).

End Ftp.

(* ================================================================== *)
(** ** The script *)

Section Program.

Context {Srv : Type} `{Transport Srv}.
Variable env : local_env.

Local Abbreviation sep := (os_sep env).

(** *** [os.path] (the POSIX flavour, over the platform's separator) *)

Definition starts_with (c : ascii) (s : string) : bool :=
  match s with
  | String a _ => Ascii.eqb a c
  | EmptyString => false
  end.

Fixpoint ends_with (c : ascii) (s : string) : bool :=
  match s with
  | EmptyString => false
  | String a EmptyString => Ascii.eqb a c
  | String _ s' => ends_with c s'
  end.

Fixpoint rstrip_char (c : ascii) (s : string) : string :=
  match s with
  | EmptyString => EmptyString
  | String a s' =>
      match rstrip_char c s' with
      | EmptyString => if Ascii.eqb a c then EmptyString else String a EmptyString
      | t => String a t
      end
  end.

Fixpoint all_char (c : ascii) (s : string) : bool :=
  match s with
  | EmptyString => true
  | String a s' => Ascii.eqb a c && all_char c s'
  end.

(** [os.path.join(a, b)]. *)
Definition path_join (a b : string) : string :=
  if starts_with sep b then b
  else if (a =? "")%string || ends_with sep a then (a ++ b)%string
  else (a ++ String sep b)%string.

Definition split_point (p : string) : nat :=
  match Str.rindex sep p with
  | Some i => S i
  | None => 0
  end.

(** [os.path.dirname(p)] and [os.path.basename(p)]. *)
Definition dirname (p : string) : string :=
  let head := Str.take (split_point p) p in
  if negb (head =? "")%string && negb (all_char sep head)
  then rstrip_char sep head else head.

Definition basename (p : string) : string := Str.drop (split_point p) p.

(** *** [re.match], [re.search] and the rule test *)

Definition re_match (r : Re.regex) (s : string) : M Srv (option string) :=
  if Re.compilable r then ret (Re.match_at false r "" s) else raise re_error.

Definition re_search (multiline : bool) (r : Re.regex) (s : string)
  : M Srv (option string) :=
  if Re.compilable r then ret (Re.search_from multiline r "" s)
  else raise re_error.

(** [re.match(rule, p) or os.altsep and
     re.match(rule, p.replace(os.sep, os.altsep))] *)
Definition rule_hits (rule : Re.regex) (p : string) : M Srv bool :=
  m <- re_match rule p ;;
  match m with
  | Some _ => ret true
  | None =>
      match os_altsep env with
      | Some alt =>
          m' <- re_match rule (Str.replace sep alt p) ;;
          ret (match m' with Some _ => true | None => false end)
      | None => ret false
      end
  end.

(** ['(%s)(/|$)' % exclude] and ['(%s)$' % rule], for a pattern that is a
    regular expression by itself. *)
Definition boundary_rule (exclude : Re.regex) : Re.regex :=
  Re.Cat (Re.Group exclude) (Re.Group (Re.Alt (Re.Chr "/") Re.Eol)).

Definition whole_path_rule (rule : Re.regex) : Re.regex :=
  Re.Cat (Re.Group rule) Re.Eol.

(** The pattern ['.timestamp']: any character but a newline, then the
    word. *)
Definition timestamp_pattern : Re.regex := Re.Cat Re.Dot (Re.Lit "timestamp").

(** *** Loops *)

Fixpoint for_each {A} (l : list A) (body : A -> M Srv unit) : M Srv unit :=
  match l with
  | [] => ret tt
  | x :: l' => body x ;; for_each l' body
  end.

Fixpoint repeat_m (n : nat) (body : M Srv unit) : M Srv unit :=
  match n with
  | O => ret tt
  | S n' => body ;; repeat_m n' body
  end.

(** [for i in reversed(range(len(names))): if rule hits path(names[i]):
    print 'excluding ...'; del names[i]].  The last name is tested first. *)
Fixpoint exclude_matching (rule : Re.regex) (path_of : string -> string)
    (names : list string) : M Srv (list string) :=
  match names with
  | [] => ret []
  | x :: rest =>
      rest' <- exclude_matching rule path_of rest ;;
      hit <- rule_hits rule (path_of x) ;;
      if hit then print ("excluding " ++ path_of x)%string ;; ret rest'
      else ret (x :: rest')
  end.

(** *** Lines 52-70: the argument lists *)

(** [args.excludes.append('.timestamp')] *)
Definition excludes_with_timestamp (args : arguments) : list Re.regex :=
  excludes args ++ [timestamp_pattern].

Fixpoint filter_explicit (excl : list Re.regex) (fs : list string)
  : M Srv (list string) :=
  match excl with
  | [] => ret fs
  | exclude :: more =>
      fs' <- exclude_matching (boundary_rule exclude) (fun f => f) fs ;;
      filter_explicit more fs'
  end.

(** [args.files] after lines 56-66: [None] when no file was named. *)
Definition explicit_files (args : arguments) : M Srv (option (list string)) :=
  match files args with
  | [] => ret None
  | fs => fs' <- filter_explicit (excludes_with_timestamp args) fs ;; ret (Some fs')
  end.

(** [args.excludes] and [args.keeps] after lines 69-70. *)
Definition exclude_rules (args : arguments) : list Re.regex :=
  map whole_path_rule (excludes_with_timestamp args).

Definition keep_rules (args : arguments) : list Re.regex :=
  map whole_path_rule (keeps args).

(** *** Lines 78-84 and 217-222: enter a directory, creating it if needed *)

Definition enter_or_create (d : string) : M Srv unit :=
  try_except only_perm (ftp_cwd d) (ftp_mkd d ;; ftp_cwd d).

Definition goto_docroot (args : arguments) : M Srv unit :=
  for_each (Str.split "/" (Str.lstrip_char "/" (docroot args))) enter_or_create.

(** *** Lines 88-103: the clock offset *)

Definition calibrate : M Srv Z :=
  attempt (OpenWrite ".timestamp") (can_write env ".timestamp") IOError ;;
  try_finally
    (try_finally
       (ftp_storbinary "STOR .timestamp" ".timestamp" false)
       (emit (CloseFile ".timestamp")) ;;
     local_time <- lift_option OSError (getmtime env ".timestamp") ;;
     response <- ftp_sendcmd "MDTM .timestamp" ;;
     remote_text <- lift_option IndexError (Str.split_none_1_snd response) ;;
     remote_time <- lift_option ValueError (timegm_strptime env remote_text) ;;
     ret (local_time - remote_time)%Z)
    (attempt (Remove ".timestamp") (can_remove env ".timestamp") OSError).

(** *** Lines 107-123: the server's features *)

(** Python 2's [str] has no attribute [lowercase] (the method is [lower]):
    the attribute lookup raises [AttributeError] before anything is
    called. *)
Definition str_lowercase (s : string) : M Srv string := raise AttributeError.

Definition spaces : Re.regex := Re.Plus (Re.Cls [Re.CsSpace]).

(** ['^(?<=\s+MLST\s+)\S*$'] *)
Definition mlst_line_pattern : Re.regex :=
  Re.Cat Re.Bol
    (Re.Cat (Re.LookBehind (Re.Cat spaces (Re.Cat (Re.Lit "MLST") spaces)))
       (Re.Cat (Re.Star (Re.Cls [Re.CsNonSpace])) Re.Eol)).

(** ['(^|;)modify\*?;'] and ['(^|;)size\*?;'] *)
Definition fact_pattern (fact : string) : Re.regex :=
  Re.Cat (Re.Group (Re.Alt Re.Bol (Re.Chr ";")))
    (Re.Cat (Re.Lit fact) (Re.Cat (Re.Opt (Re.Chr "*")) (Re.Chr ";"))).

(** The [try] block of lines 112-123; the result is
    [use_mlst_modify_size]. *)
Definition negotiate_mlst (features : string) : M Srv bool :=
  try_except any_exn
    (found <- re_search true mlst_line_pattern features ;;
     match found with
     | Some group0 =>
         mlst_features <- str_lowercase group0 ;;
         has_modify <- re_search false (fact_pattern "modify") mlst_features ;;
         match has_modify with
         | Some _ =>
             has_size <- re_search false (fact_pattern "size") mlst_features ;;
             match has_size with
             | Some _ =>
                 ftp_sendcmd "OPTS MLST modify;size;" ;;
                 print "using MLST" ;;
                 ret true
             | None => ret false
             end
         | None => ret false
         end
     | None => ret false
     end)
    (ret false).

(** Lines 108-123. *)
Definition check_features : M Srv bool :=
  features <- ftp_sendcmd "FEAT" ;;
  negotiate_mlst features.

(** *** Lines 130-159: the index of the server

    [rlst] follows the server's directories for as long as the server lets
    it enter them, so the embedding carries a bound on the depth. *)

Definition child_path (path file : string) : string :=
  match path with
  | EmptyString => file
  | _ => (path ++ String "/" file)%string
  end.

(** Lines 142-147.  The [continue] belongs to this loop: a hit prints the
    notice and goes on to the next rule. *)
Definition announce_kept (rules : list Re.regex) (filePath : string) : M Srv unit :=
  for_each rules
    (fun keep =>
       hit <- rule_hits keep filePath ;;
       if hit then print "" ;; print ("keeping " ++ filePath)%string
       else ret tt).

Fixpoint rlst (rules : list Re.regex) (fuel : nat) (path : string)
  : M Srv (list string) :=
  match fuel with
  | O => diverge
  | S fuel' =>
      stdout_write "." ;;
      names <- ftp_nlst ;;
      (fix entries (names results : list string) {struct names}
         : M Srv (list string) :=
         match names with
         | [] => ret results
         | file :: more =>
             let filePath := child_path path file in
             announce_kept rules filePath ;;
             results' <-
               try_except any_exn
                 (ftp_cwd file ;;
                  below <- rlst rules fuel' filePath ;;
                  let results1 :=
                    results ++ map (fun next => file ++ String "/" next)%string below in
                  try_except any_exn
                    (ftp_cwd ".." ;; ret results1)
                    (ret (results1 ++ [file])))
                 (ret (results ++ [file])) ;;
             entries more results'
         end) names []
  end.

(** *** Lines 162-191: the tree to mirror *)

(** The dictionary [tree]: directory path to file names. *)
Definition tree_t : Type := list (string * list string).

(** [tree.setdefault(key, []).append(name)] *)
Fixpoint setdefault_append (key name : string) (tree : tree_t) : tree_t :=
  match tree with
  | [] => [(key, [name])]
  | (k, names) :: tree' =>
      if (k =? key)%string then (k, names ++ [name]) :: tree'
      else (k, names) :: setdefault_append key name tree'
  end.

(** [tree[key] = names] *)
Fixpoint setitem (key : string) (names : list string) (tree : tree_t) : tree_t :=
  match tree with
  | [] => [(key, names)]
  | (k, old) :: tree' =>
      if (k =? key)%string then (k, names) :: tree'
      else (k, old) :: setitem key names tree'
  end.

Definition tree_of_files (fs : list string) : tree_t :=
  fold_left (fun tree file => setdefault_append (dirname file) (basename file) tree)
    fs [].

Definition dir_names (children : list node) : list string :=
  flat_map (fun c => match c with Dir name _ => [name] | File _ => [] end) children.

Definition file_names (children : list node) : list string :=
  flat_map (fun c => match c with File name => [name] | Dir _ _ => [] end) children.

(** Lines 174-186: every rule prunes the directory names, then the file
    names. *)
Fixpoint apply_excludes (rules : list Re.regex) (root : string)
    (dirs fnames : list string) : M Srv (list string * list string) :=
  match rules with
  | [] => ret (dirs, fnames)
  | exclude :: more =>
      dirs' <- exclude_matching exclude (path_join root) dirs ;;
      fnames' <- exclude_matching exclude (path_join root) fnames ;;
      apply_excludes more root dirs' fnames'
  end.

Definition mem (x : string) (l : list string) : bool :=
  existsb (String.eqb x) l.

(** One step of [os.walk] together with the loop body of lines 170-189,
    then the descent into the directories the body left in [dirs]:
    [os.walk] runs top-down and reads [dirs] again after the body has
    deleted from it.  [root] is the path below [LOCAL_ROOT], the
    [root[len(LOCAL_ROOT) + 1:]] of line 171, which for a child is
    [os.path.join] of the parent's and the child's name. *)
Fixpoint walk (rules : list Re.regex) (root : string) (here : node)
    (tree : tree_t) {struct here} : M Srv tree_t :=
  match here with
  | File _ => ret tree
  | Dir _ children =>
      emit (Listdir root) ;;
      pruned <- apply_excludes rules root (dir_names children) (file_names children) ;;
      let (dirs, fnames) := pruned in
      let tree1 := match fnames with [] => tree | _ => setitem root fnames tree end in
      (fix descend (cs : list node) (tree : tree_t) {struct cs} : M Srv tree_t :=
         match cs with
         | [] => ret tree
         | File _ :: cs' => descend cs' tree
         | Dir name sub as c :: cs' =>
             if mem name dirs then
               tree' <- walk rules (path_join root name) c tree ;;
               descend cs' tree'
             else descend cs' tree
         end) children tree1
  end.

(** [sorted(tree.items(), key=lambda item: item[0])] *)
Fixpoint insert_sorted (item : string * list string) (l : tree_t) : tree_t :=
  match l with
  | [] => [item]
  | x :: l' =>
      if String.leb (fst item) (fst x) then item :: l
      else x :: insert_sorted item l'
  end.

Definition sorted_items (tree : tree_t) : tree_t :=
  fold_right insert_sorted [] tree.

Definition build_tree (args : arguments) (explicit : option (list string))
  : M Srv tree_t :=
  tree <- match explicit with
          | Some fs => ret (tree_of_files fs)
          | None => walk (exclude_rules args) "" (Dir "" (local_root env)) []
          end ;;
  ret (sorted_items tree).

(** *** Lines 194-222: moving to the next directory on the server *)

(** The index at which the [for ... enumerate(zip(lastDirs, dirs))] loop
    breaks, if it does. *)
Fixpoint first_mismatch (i : nat) (lastDirs dirs : list string) : option nat :=
  match lastDirs, dirs with
  | a :: lastDirs', b :: dirs' =>
      if (a =? b)%string then first_mismatch (S i) lastDirs' dirs' else Some i
  | _, _ => None
  end.

(** [path.split(os.sep) if path else []] *)
Definition segments (path : string) : list string :=
  match path with
  | EmptyString => []
  | _ => Str.split sep path
  end.

(** Lines 206-222; the result is the new [lastDirs]. *)
Definition navigate (lastDirs dirs : list string) : M Srv (list string) :=
  i <- match first_mismatch 0 lastDirs dirs with
       | Some i => repeat_m (List.length lastDirs - i) (ftp_cwd "..") ;; ret i
       | None => ret (List.length lastDirs)
       end ;;
  for_each (skipn i dirs) enter_or_create ;;
  ret dirs.

(** *** Lines 225-267: one file *)

(** [orphaned_files.remove(x)], with the [ValueError] passed over. *)
Fixpoint remove_first (x : string) (l : list string) : list string :=
  match l with
  | [] => []
  | y :: l' => if (y =? x)%string then l' else y :: remove_first x l'
  end.

(** [int(s)]: optional blanks around an optional sign and decimal
    digits. *)
Definition digit_of (c : ascii) : option Z :=
  let n := nat_of_ascii c in
  if (48 <=? n) && (n <=? 57) then Some (Z.of_nat (n - 48)) else None.

Fixpoint digits (s : string) (acc : Z) : option Z :=
  match s with
  | EmptyString => Some acc
  | String c s' =>
      match digit_of c with
      | Some d => digits s' (10 * acc + d)%Z
      | None => None
      end
  end.

Definition int_of_text (s : string) : option Z :=
  match Str.lstrip_space (Str.rstrip_space s) with
  | EmptyString => None
  | String "-" (String _ _ as t) => option_map Z.opp (digits t 0%Z)
  | String "+" (String _ _ as t) => digits t 0%Z
  | t => digits t 0%Z
  end.

(** ['(?<=[\S;]modify=)[0-9]+(?=[\Z;])'] and the same for [size]; inside
    a class [\Z] is the letter. *)
Definition mlst_fact_pattern (fact : string) : Re.regex :=
  Re.Cat
    (Re.LookBehind
       (Re.Cat (Re.Cls [Re.CsNonSpace; Re.CsChar ";"]) (Re.Lit (fact ++ "="))))
    (Re.Cat (Re.Plus (Re.Cls [Re.CsRange "0" "9"]))
       (Re.LookAhead (Re.Cls [Re.CsChar "Z"; Re.CsChar ";"]))).

(** [re.search(p, s).group(0)]: [None] has no [group]. *)
Definition search_group0 (p : Re.regex) (s : string) : M Srv string :=
  found <- re_search false p s ;;
  lift_option AttributeError found.

(** Lines 241-250: the texts of the remote time and size, or [None] when
    the server answered with a permanent error. *)
Definition query_remote (use_mlst_modify_size : bool) (file : string)
  : M Srv (option (string * string)) :=
  try_except only_perm
    (if use_mlst_modify_size then
       response <- ftp_sendcmd ("MLST " ++ file) ;;
       mlst <- str_lowercase response ;;
       remote_time <- search_group0 (mlst_fact_pattern "modify") mlst ;;
       remote_size <- search_group0 (mlst_fact_pattern "size") mlst ;;
       ret (Some (remote_time, remote_size))
     else
       time_reply <- ftp_sendcmd ("MDTM " ++ file) ;;
       remote_time <- lift_option IndexError (Str.split_none_1_snd time_reply) ;;
       size_reply <- ftp_sendcmd ("SIZE " ++ file) ;;
       remote_size <- lift_option IndexError (Str.split_none_1_snd size_reply) ;;
       ret (Some (remote_time, remote_size)))
    (ret None).

(** Lines 249-254: [(remote_time, remote_size)] as compared below. *)
Definition remote_metadata (use_mlst_modify_size : bool) (time_offset : Z)
    (file : string) : M Srv (Z * Z) :=
  texts <- query_remote use_mlst_modify_size file ;;
  match texts with
  | None => ret (0, 0)%Z
  | Some (remote_time, remote_size) =>
      seconds <- lift_option ValueError (timegm_strptime env remote_time) ;;
      size <- lift_option ValueError (int_of_text remote_size) ;;
      ret (seconds + time_offset, size)%Z
  end.

(** Line 256. *)
Definition needs_upload (local_time local_size remote_time remote_size : Z) : bool :=
  (remote_time <? local_time)%Z || negb (local_size =? remote_size)%Z.

(** Lines 257-267. *)
Definition upload (file_path file : string) (local_size : Z) : M Srv unit :=
  stdout_write ("uploading " ++ file_path) ;;
  attempt (OpenRead file_path) (can_read env file_path) IOError ;;
  ftp_storbinary ("STOR " ++ file) file_path (BLOCK_SIZE <? local_size)%Z ;;
  emit (CloseFile file_path) ;;
  print "".

(** Lines 236-267, after the orphan list has been updated. *)
Definition sync_file (use_mlst_modify_size : bool) (time_offset : Z)
    (path file : string) : M Srv unit :=
  let file_path := path_join path file in
  local_time <- lift_option OSError (getmtime env file_path) ;;
  local_size <- lift_option OSError (getsize env file_path) ;;
  remote <- remote_metadata use_mlst_modify_size time_offset file ;;
  let (remote_time, remote_size) := remote in
  if needs_upload local_time local_size remote_time remote_size
  then upload file_path file local_size
  else ret tt.

(** The body of [for file in files], threading [orphaned_files]. *)
Fixpoint sync_files (do_clean use_mlst_modify_size : bool) (time_offset : Z)
    (path : string) (fnames : list string) (orphaned_files : list string)
  : M Srv (list string) :=
  match fnames with
  | [] => ret orphaned_files
  | file :: more =>
      let orphaned_files' :=
        if do_clean
        then remove_first (Str.replace sep "/" (path_join path file)) orphaned_files
        else orphaned_files in
      sync_file use_mlst_modify_size time_offset path file ;;
      sync_files do_clean use_mlst_modify_size time_offset path more orphaned_files'
  end.

(** Lines 194-267: the loop over the sorted tree, threading [lastDirs] and
    [orphaned_files]. *)
Fixpoint mirror (do_clean use_mlst_modify_size : bool) (time_offset : Z)
    (tree : tree_t) (lastDirs orphaned_files : list string)
  : M Srv (list string) :=
  match tree with
  | [] => ret orphaned_files
  | (path, fnames) :: tree' =>
      lastDirs' <- navigate lastDirs (segments path) ;;
      orphaned_files' <-
        sync_files do_clean use_mlst_modify_size time_offset path fnames
          orphaned_files ;;
      mirror do_clean use_mlst_modify_size time_offset tree' lastDirs' orphaned_files'
  end.

(** Lines 269-276. *)
Definition delete_orphans (args : arguments) (orphaned_files : list string)
  : M Srv unit :=
  ftp_cwd (docroot args) ;;
  for_each orphaned_files
    (fun file =>
       stdout_write ("deleting " ++ file) ;;
       ftp_delete file ;;
       print "").

(** *** The whole run, lines 50-278

    [ftp.set_debuglevel] only makes [ftplib] print its traffic and is left
    out; [use_tvfs] is the constant [False], so of lines 198-222 only the
    [else] branch is there.  [fuel] bounds the depth to which [rlst]
    follows the server's directories. *)

Definition main (fuel : nat) (args : arguments) : M Srv unit :=
  explicit <- explicit_files args ;;
  ftp_login (host args) (user args) (password args) ;;
  goto_docroot args ;;
  time_offset <- calibrate ;;
  use_mlst_modify_size <- check_features ;;
  orphaned_files <-
    (if clean args then
       stdout_write "indexing server" ;;
       found <- rlst (keep_rules args) fuel "" ;;
       print "" ;;
       ret found
     else ret []) ;;
  tree <- build_tree args explicit ;;
  remaining <-
    mirror (clean args) use_mlst_modify_size time_offset tree [] orphaned_files ;;
  (if clean args then delete_orphans args remaining else ret tt) ;;
  ftp_quit.

(** *** The parts of the run

    The same lines cut in three, so that a statement can speak of the
    moment the run stands at: lines 50-84 (up to the document root), lines
    88-191 (the calibration, the features, the index and the tree) and
    lines 269-278 (the removal of the orphans and [QUIT]), with the loop
    of lines 194-267 in between. *)

Definition reach_docroot (args : arguments) : M Srv (option (list string)) :=
  explicit <- explicit_files args ;;
  ftp_login (host args) (user args) (password args) ;;
  goto_docroot args ;;
  ret explicit.

Definition survey (fuel : nat) (args : arguments) (explicit : option (list string))
  : M Srv (Z * bool * list string * tree_t) :=
  time_offset <- calibrate ;;
  use_mlst_modify_size <- check_features ;;
  orphaned_files <-
    (if clean args then
       stdout_write "indexing server" ;;
       found <- rlst (keep_rules args) fuel "" ;;
       print "" ;;
       ret found
     else ret []) ;;
  tree <- build_tree args explicit ;;
  ret (time_offset, use_mlst_modify_size, orphaned_files, tree).

Definition prepare (fuel : nat) (args : arguments)
  : M Srv (Z * bool * list string * tree_t) :=
  explicit <- reach_docroot args ;;
  survey fuel args explicit.

Definition finish (args : arguments) (remaining : list string) : M Srv unit :=
  (if clean args then delete_orphans args remaining else ret tt) ;;
  ftp_quit.

(** [orphaned_files] after lines 229-234 have dealt with one file. *)
Definition struck (do_clean : bool) (path file : string)
    (orphaned_files : list string) : list string :=
  if do_clean
  then remove_first (Str.replace sep "/" (path_join path file)) orphaned_files
  else orphaned_files.

(** What is left of the run when the loop has dealt with one file of the
    directory [path]: the files [more] after it, the directories [post]
    after [path], then the end of the run. *)
Definition rest_of_run (args : arguments) (use_mlst_modify_size : bool)
    (time_offset : Z) (path : string) (more : list string) (post : tree_t)
    (orphaned_files : list string) : M Srv unit :=
  orphaned_files' <-
    sync_files (clean args) use_mlst_modify_size time_offset path more
      orphaned_files ;;
  remaining <-
    mirror (clean args) use_mlst_modify_size time_offset post (segments path)
      orphaned_files' ;;
  finish args remaining.

End Program.

(* ================================================================== *)
(** ** A small FTP server to run the script against

    The remote tree is a list of paths, each a directory or a file with the
    texts the server reports for its time and size.  It answers [MDTM],
    [SIZE] and [FEAT]; everything stored gets the server's clock and an
    unknown ("0") size. *)

Module Mock.

Record entry : Type := {
  e_path : list string;
  e_file : option (string * string)
}.

Record state : Type := {
  entries : list entry;
  cwd : list string;
  clock : string;
  features : option string
}.

Definition path_eqb (p q : list string) : bool :=
  if list_eq_dec string_dec p q then true else false.

Definition is_dir (e : entry) : bool :=
  match e_file e with None => true | Some _ => false end.

Definition find_entry (p : list string) (s : state) : option entry :=
  find (fun e => path_eqb (e_path e) p) (entries s).

Definition with_cwd (c : list string) (s : state) : state :=
  {| entries := entries s; cwd := c; clock := clock s; features := features s |}.

Definition with_entries (es : list entry) (s : state) : state :=
  {| entries := es; cwd := cwd s; clock := clock s; features := features s |}.

Definition nonempty (x : string) : bool := negb (x =? "")%string.

Definition resolve (s : state) (name : string) : list string :=
  if (name =? "..")%string then removelast (cwd s)
  else match name with
       | String "/" _ => filter nonempty (Str.split "/" name)
       | _ => cwd s ++ filter nonempty (Str.split "/" name)
       end.

Definition do_cwd (name : string) (s : state) : reply unit * state :=
  let target := resolve s name in
  match target, find_entry target s with
  | [], _ => (Done tt, with_cwd [] s)
  | _, Some e => if is_dir e then (Done tt, with_cwd target s) else (Perm, s)
  | _, None => (Perm, s)
  end.

Definition do_mkd (name : string) (s : state) : reply unit * state :=
  let target := resolve s name in
  match find_entry target s with
  | Some _ => (Perm, s)
  | None =>
      (Done tt, with_entries (entries s ++ [{| e_path := target; e_file := None |}]) s)
  end.

Definition do_nlst (s : state) : reply (list string) * state :=
  (Done
     (flat_map
        (fun e =>
           match rev (e_path e) with
           | name :: parent => if path_eqb (rev parent) (cwd s) then [name] else []
           | [] => []
           end)
        (entries s)),
   s).

Definition argument_of (verb line : string) : option string :=
  if String.prefix verb line
  then Some (Str.drop (String.length verb) line)
  else None.

Definition file_fact (pick : string * string -> string) (name : string)
    (s : state) : reply string * state :=
  match find_entry (resolve s name) s with
  | Some {| e_file := Some facts |} => (Done ("213 " ++ pick facts)%string, s)
  | _ => (Perm, s)
  end.

Definition do_sendcmd (line : string) (s : state) : reply string * state :=
  match argument_of "MDTM " line, argument_of "SIZE " line with
  | Some name, _ => file_fact fst name s
  | _, Some name => file_fact snd name s
  | None, None =>
      if (line =? "FEAT")%string then
        match features s with
        | Some text => (Done text, s)
        | None => (Perm, s)
        end
      else (Done "200 OK", s)
  end.

Definition do_stor (line : string) (s : state) : reply unit * state :=
  match argument_of "STOR " line with
  | Some name =>
      let target := resolve s name in
      (Done tt,
       with_entries
         (filter (fun e => negb (path_eqb (e_path e) target)) (entries s)
            ++ [{| e_path := target; e_file := Some (clock s, "0") |}]) s)
  | None => (Fail, s)
  end.

Definition do_delete (name : string) (s : state) : reply unit * state :=
  let target := resolve s name in
  match find_entry target s with
  | Some {| e_file := Some _ |} =>
      (Done tt,
       with_entries (filter (fun e => negb (path_eqb (e_path e) target)) (entries s)) s)
  | _ => (Perm, s)
  end.

#[global] Instance transport : Transport state := {
  srv_login := fun _ _ _ s => (Done tt, s);
  srv_cwd := do_cwd;
  srv_mkd := do_mkd;
  srv_nlst := do_nlst;
  srv_sendcmd := do_sendcmd;
  srv_storbinary := do_stor;
  srv_delete := do_delete;
  srv_quit := fun s => (Done tt, s)
}.

Definition dir (p : list string) : entry := {| e_path := p; e_file := None |}.
Definition file (p : list string) (time size : string) : entry :=
  {| e_path := p; e_file := Some (time, size) |}.

Definition start (es : list entry) (now : string) (feat : option string)
  : world state :=
  {| server := {| entries := es; cwd := []; clock := now; features := feat |};
     trace := [] |}.

(** A POSIX workstation on which times are written as plain counts of
    seconds. *)
Definition posix (root : list node) (stat : string -> option (Z * Z)) : local_env :=
  {| os_sep := "/";
     os_altsep := None;
     local_root := root;
     getmtime := fun p => option_map fst (stat p);
     getsize := fun p => option_map snd (stat p);
     timegm_strptime := fun s => digits s 0%Z;
     can_read := fun _ => true;
     can_write := fun _ => true;
     can_remove := fun _ => true |}.

End Mock.

(* ================================================================== *)
(** ** Vocabulary of the statements *)

(** The local files handed to [storbinary], in order. *)
Definition uploads (t : list event) : list string :=
  flat_map (fun e => match e with Storbinary _ source _ => [source] | _ => [] end) t.

(** What line 257 to 265 put on the trace up to the transfer. *)
Definition upload_started (file_path file : string) (local_size : Z) : list event :=
  [Stdout ("uploading " ++ file_path);
   OpenRead file_path;
   Storbinary ("STOR " ++ file) file_path (BLOCK_SIZE <? local_size)%Z].

(* ================================================================== *)
(** ** Concrete runs *)

Module Examples.

(** A workstation holding [x.txt] (time 100, 3 bytes), [big.bin], and an
    empty file [empty] dated at the epoch. *)
Definition stat (p : string) : option (Z * Z) :=
  if (p =? "x.txt")%string then Some (100, 3)%Z
  else if (p =? "a/x.txt")%string then Some (100, 10)%Z
  else if (p =? "b/y.txt")%string then Some (100, 5)%Z
  else if (p =? "empty")%string then Some (0, 0)%Z
  else if (p =? ".timestamp")%string then Some (1000, 0)%Z
  else None.

Definition here : local_env :=
  Mock.posix [Dir "a" [File "x.txt"]; Dir "b" [File "y.txt"]] stat.

(** A server whose current directory holds [x.txt], 3 bytes, time 50. *)
Definition one_file : world Mock.state :=
  Mock.start [Mock.file ["x.txt"] "50" "3"] "990" None.

(** A server with nothing on it. *)
Definition nothing : world Mock.state := Mock.start [] "990" None.

End Examples.

(** Length of the longest common prefix of two segment lists. *)
Fixpoint common_prefix_length (l1 l2 : list string) : nat :=
  match l1, l2 with
  | a :: l1', b :: l2' =>
      if (a =? b)%string then S (common_prefix_length l1' l2') else 0
  | _, _ => 0
  end.

(** The "move to parent" commands on a trace. *)
Definition count_up (t : list event) : nat :=
  List.length
    (filter (fun e => match e with Cwd d => (d =? "..")%string | _ => false end) t).

(** The commands that enter or create one of the directories [l]. *)
Definition enters (l : list string) (e : event) : Prop :=
  exists d, In d l /\ (e = Cwd d \/ e = Mkd d).

Module Examples2.


End Examples2.

Module Examples3.

Definition newline_text : string := String Str.newline EmptyString.

(** A workstation with nothing to mirror. *)
Definition empty_tree : local_env := Mock.posix [] Examples.stat.

Definition plain (c : bool) (keep : list Re.regex) : arguments :=
  {| host := "h"; user := "u"; password := "p"; docroot := "/www";
     files := []; clean := c; excludes := []; keeps := keep; verbosity := 0 |}.

(** [--clean --keep keepdir] *)
Definition keep_args : arguments := plain true [Re.Lit "keepdir"].

(** A server whose document root holds only the directory [keepdir] with
    one file [f] in it. *)
Definition kept_remote : world Mock.state :=
  Mock.start
    [Mock.dir ["www"]; Mock.dir ["www"; "keepdir"];
     Mock.file ["www"; "keepdir"; "f"] "50" "3"]
    "990" (Some "211 no features").

(** The same server, standing in its document root. *)
Definition kept_docroot : world Mock.state :=
  {| server := Mock.with_cwd ["www"] (server kept_remote); trace := [] |}.

(** The reply to [FEAT] of a server that offers [MLST] with the facts
    [modify] and [size]. *)
Definition feat_with_mlst : string :=
  "211-Features:" ++ newline_text ++
  " MLST modify*;size*;type*;" ++ newline_text ++
  " SIZE" ++ newline_text ++
  "211 End".

(** That server, holding [a/x.txt] as the workstation has it. *)
Definition mlst_remote : world Mock.state :=
  Mock.start
    [Mock.dir ["www"]; Mock.dir ["www"; "a"];
     Mock.file ["www"; "a"; "x.txt"] "200" "10"]
    "990" (Some feat_with_mlst).

Definition a_only : local_env := Mock.posix [Dir "a" [File "x.txt"]] Examples.stat.

(** A server that answers [FEAT] with a permanent error. *)
Definition no_feat : world Mock.state :=
  Mock.start [Mock.dir ["www"]] "990" None.

End Examples3.

(* ================================================================== *)
(** ** What a pattern matches, independently of the matcher

    [Matches ml r bef rest bef' rest']: from the position with [bef]
    behind it (last character first) and [rest] ahead, the pattern [r] can
    consume text and stop with [bef'] behind and [rest'] ahead. *)

Inductive Matches (ml : bool)
  : Re.regex -> string -> string -> string -> string -> Prop :=
| MEps b s : Matches ml Re.Eps b s b s
| MChr c b s : Matches ml (Re.Chr c) b (String c s) (String c b) s
| MDot a b s :
    Ascii.eqb a Str.newline = false ->
    Matches ml Re.Dot b (String a s) (String a b) s
| MCls items a b s :
    existsb (Re.item_has a) items = true ->
    Matches ml (Re.Cls items) b (String a s) (String a b) s
| MCat r1 r2 b s b1 s1 b2 s2 :
    Matches ml r1 b s b1 s1 -> Matches ml r2 b1 s1 b2 s2 ->
    Matches ml (Re.Cat r1 r2) b s b2 s2
| MAltL r1 r2 b s b' s' :
    Matches ml r1 b s b' s' -> Matches ml (Re.Alt r1 r2) b s b' s'
| MAltR r1 r2 b s b' s' :
    Matches ml r2 b s b' s' -> Matches ml (Re.Alt r1 r2) b s b' s'
| MStarStop r b s : Matches ml (Re.Star r) b s b s
| MStarStep r b s b1 s1 b2 s2 :
    Matches ml r b s b1 s1 ->
    String.length s1 < String.length s ->
    Matches ml (Re.Star r) b1 s1 b2 s2 ->
    Matches ml (Re.Star r) b s b2 s2
| MGroup r b s b' s' :
    Matches ml r b s b' s' -> Matches ml (Re.Group r) b s b' s'
| MBol b s : Re.at_bol ml b = true -> Matches ml Re.Bol b s b s
| MEol b s : Re.at_eol ml s = true -> Matches ml Re.Eol b s b s
| MLookBehind r w b s b' s' :
    Re.fixed_width r = Some w ->
    w <= String.length b ->
    Matches ml r (Str.drop w b) (Str.rev_onto (Str.take w b) s) b' s' ->
    String.length s' = String.length s ->
    Matches ml (Re.LookBehind r) b s b s
| MLookAhead r b s b' s' :
    Matches ml r b s b' s' -> Matches ml (Re.LookAhead r) b s b s.

(** The pattern matches the text [q] from its first character to its
    last. *)
Definition fully_matches (r : Re.regex) (q : string) : Prop :=
  exists b', Matches false r "" q b' "".

(** The same, or up to a newline that ends [q]: what ['(%s)$'] accepts
    under [re.match]. *)
Definition matches_whole (r : Re.regex) (q : string) : Prop :=
  exists b' s',
    Matches false r "" q b' s' /\
    (s' = "" \/ s' = String Str.newline "")%string.

(** The pattern matches a beginning of [q] that ends at a ['/'] or at the
    end of [q]: what ['(%s)(/|$)'] accepts under [re.match]. *)
Definition matches_to_boundary (r : Re.regex) (q : string) : Prop :=
  exists b' s',
    Matches false r "" q b' s' /\
    (Re.at_eol false s' = true \/ exists s'', s' = String "/" s'').

(** [re.match(rule, p)] found something. *)
Definition matched_by (rule : Re.regex) (p : string) : bool :=
  match Re.match_at false rule "" p with Some _ => true | None => false end.

(** The value of the rule test of lines 61-62, 143-144, 177-178 and
    183-184 when the rule compiles. *)
Definition hit (env : local_env) (rule : Re.regex) (p : string) : bool :=
  matched_by rule p
  || match os_altsep env with
     | Some alt => matched_by rule (Str.replace (os_sep env) alt p)
     | None => false
     end.

(** Some rule is met by the path. *)
Definition excluded (env : local_env) (rules : list Re.regex) (p : string) : bool :=
  existsb (fun rule => hit env rule p) rules.

(** The directories of the file system [top] that can be reached from its
    root through directories none of which meets a rule: [reached env rules
    top d cs] when the directory with the path [d] and the content [cs] is
    [top] itself, or a child directory, not meeting a rule, of a directory
    that is reached.  Every directory above [d] is thus one that meets no
    rule. *)
Inductive reached (env : local_env) (rules : list Re.regex) (top : list node)
  : string -> list node -> Prop :=
| reached_top : reached env rules top "" top
| reached_child d cs name sub :
    reached env rules top d cs ->
    In (Dir name sub) cs ->
    excluded env rules (path_join env d name) = false ->
    reached env rules top (path_join env d name) sub.

(** The names of the files of a directory that meet no rule, in the order
    of the listing. *)
Definition unexcluded_files (env : local_env) (rules : list Re.regex)
    (d : string) (cs : list node) : list string :=
  filter (fun f => negb (excluded env rules (path_join env d f))) (file_names cs).

(** The file system with every directory that meets a rule emptied, at
    every depth; [root] is the path of [here]. *)
Fixpoint hollow (env : local_env) (rules : list Re.regex) (root : string)
    (here : node) {struct here} : node :=
  match here with
  | File f => File f
  | Dir name cs =>
      Dir name
        (map (fun c =>
                match c with
                | File f => File f
                | Dir nm _ =>
                    if excluded env rules (path_join env root nm)
                    then Dir nm []
                    else hollow env rules (path_join env root nm) c
                end) cs)
  end.

(** What [hollow] makes of one child of the directory [root]. *)
Definition hollow_child (env : local_env) (rules : list Re.regex) (root : string)
    (c : node) : node :=
  match c with
  | File f => File f
  | Dir nm _ =>
      if excluded env rules (path_join env root nm)
      then Dir nm []
      else hollow env rules (path_join env root nm) c
  end.

(** A directory of the file system [top], whatever it is called: its path
    and its content. *)
Definition present (env : local_env) (top : list node) (d : string)
    (cs : list node) : Prop :=
  reached env [] top d cs.

Definition hollow_root (env : local_env) (rules : list Re.regex) : list node :=
  match hollow env rules "" (Dir "" (local_root env)) with
  | Dir _ cs => cs
  | File _ => []
  end.

(** The same surroundings over another local tree. *)
Definition with_root (env : local_env) (root : list node) : local_env :=
  {| os_sep := os_sep env;
     os_altsep := os_altsep env;
     local_root := root;
     getmtime := getmtime env;
     getsize := getsize env;
     timegm_strptime := timegm_strptime env;
     can_read := can_read env;
     can_write := can_write env;
     can_remove := can_remove env |}.

(** The descent of [walk] into the children of one directory, as a
    function of its own. *)
Fixpoint walk_children {Srv : Type} `{Transport Srv} (env : local_env)
    (rules : list Re.regex) (root : string) (dirs : list string)
    (cs : list node) (tree : tree_t) : M Srv tree_t :=
  match cs with
  | [] => ret tree
  | File _ :: cs' => walk_children env rules root dirs cs' tree
  | Dir name sub as c :: cs' =>
      if mem name dirs then
        tree' <- walk env rules (path_join env root name) c tree ;;
        walk_children env rules root dirs cs' tree'
      else walk_children env rules root dirs cs' tree
  end.

(** The same surroundings, except that the file [p] cannot be opened for
    reading. *)
Definition without_read (env : local_env) (p : string) : local_env :=
  {| os_sep := os_sep env;
     os_altsep := os_altsep env;
     local_root := local_root env;
     getmtime := getmtime env;
     getsize := getsize env;
     timegm_strptime := timegm_strptime env;
     can_read := fun q => negb (q =? p)%string && can_read env q;
     can_write := can_write env;
     can_remove := can_remove env |}.

(** The same surroundings, except that the file [p] cannot be created. *)
Definition without_write (env : local_env) (p : string) : local_env :=
  {| os_sep := os_sep env;
     os_altsep := os_altsep env;
     local_root := local_root env;
     getmtime := getmtime env;
     getsize := getsize env;
     timegm_strptime := timegm_strptime env;
     can_read := can_read env;
     can_write := fun q => negb (q =? p)%string && can_write env q;
     can_remove := can_remove env |}.

(** Handing no local file to [storbinary] but the marker. *)
Definition stores_marker_only (e : event) : bool :=
  match e with
  | Storbinary _ source _ => (source =? ".timestamp")%string
  | _ => true
  end.

(** Deleting nothing on the server. *)
Definition no_delete (e : event) : bool :=
  match e with Delete _ => false | _ => true end.

(** A file of a directory that is reached, meeting no rule itself. *)
Definition walked_file (env : local_env) (rules : list Re.regex)
    (top : list node) (src : string) : Prop :=
  exists d cs f,
    reached env rules top d cs /\
    In (File f) cs /\
    excluded env rules (path_join env d f) = false /\
    src = path_join env d f.

(** An entry of the tree as the walk should leave it: a directory of
    [top] that is reached, with those of its files that meet no rule. *)
Definition good_entry (env : local_env) (rules : list Re.regex)
    (top : list node) (e : string * list string) : Prop :=
  (exists cs,
     reached env rules top (fst e) cs /\
     snd e = unexcluded_files env rules (fst e) cs) /\
  forall f, In f (snd e) -> excluded env rules (path_join env (fst e) f) = false.

(** The directories listed between two worlds are all reached. *)
Definition lists_only_reached {Srv : Type} (env : local_env)
    (rules : list Re.regex) (top : list node) (w w' : world Srv) : Prop :=
  forall d, In (Listdir d) (trace w') ->
    In (Listdir d) (trace w) \/ exists cs, reached env rules top d cs.

(** Between two worlds the trace only grew, and every local file handed
    to [storbinary] in between is one of [S]. *)
Definition uploads_within {Srv : Type} (S : string -> Prop) (w w' : world Srv) : Prop :=
  exists new, trace w' = trace w ++ new /\ Forall S (uploads new).

(** A computation that uploads nothing outside [S], however it ends. *)
Definition uploads_only {Srv : Type} {A : Type} (S : string -> Prop)
    (m : M Srv A) : Prop :=
  forall w, uploads_within S w (snd (m w)).

(** The paths of the files of a tree. *)
Definition in_tree (env : local_env) (tree : tree_t) (src : string) : Prop :=
  exists d names f, In (d, names) tree /\ In f names /\ src = path_join env d f.

Module Examples4.

(** A workstation whose tree has a directory [skip] to be excluded and a
    [.timestamp] left at the top. *)
Definition with_skip : local_env :=
  Mock.posix
    [Dir "a" [File "x.txt"]; File ".timestamp"; Dir "skip" [File "z"; Dir "deep" [File "y"]]]
    Examples.stat.

(** [--exclude skip] *)
Definition skip_args : arguments :=
  {| host := "h"; user := "u"; password := "p"; docroot := "/www";
     files := []; clean := false; excludes := [Re.Lit "skip"]; keeps := [];
     verbosity := 0 |}.

(** The same with three files named on the command line. *)
Definition named_args : arguments :=
  {| host := "h"; user := "u"; password := "p"; docroot := "/www";
     files := ["a/x.txt"; ".timestamp"; "xtimestamp/y"]; clean := false;
     excludes := [Re.Lit "skip"]; keeps := []; verbosity := 0 |}.

End Examples4.

(** The order of [sorted]: Python compares the paths byte by byte. *)
Definition leb_rel (a b : string) : Prop := String.leb a b = true.
Definition ltb_rel (a b : string) : Prop := String.ltb a b = true.

(** A trace without what was printed. *)
Definition commands (t : list event) : list event :=
  filter (fun e => match e with Stdout _ => false | _ => true end) t.

(** Two worlds that differ in what was printed at most. *)
Definition alike {Srv : Type} (w1 w2 : world Srv) : Prop :=
  server w1 = server w2 /\ commands (trace w1) = commands (trace w2).

Definition same_outcome {Srv : Type} {A : Type}
    (x y : result A * world Srv) : Prop :=
  fst x = fst y /\ alike (snd x) (snd y).

(* ================================================================== *)
(** ** Vocabulary for the run as a whole *)

(** A computation that, however it ends, only adds events that [allowed]
    accepts to the trace. *)
Definition emits_only {Srv : Type} {A : Type} (allowed : event -> bool)
    (m : M Srv A) : Prop :=
  forall w, exists new,
    trace (snd (m w)) = trace w ++ new /\ forallb allowed new = true.

(** What is printed. *)
Definition is_print (e : event) : bool :=
  match e with Stdout _ => true | _ => false end.

(** What the building of the tree does: listing local directories and
    printing. *)
Definition is_local_walk (e : event) : bool :=
  match e with Listdir _ | Stdout _ => true | _ => false end.

(** What the index of the server does: printing, [NLST], [CWD]. *)
Definition is_index (e : event) : bool :=
  match e with Stdout _ | Nlst | Cwd _ => true | _ => false end.

(** Entering and creating directories. *)
Definition is_navigation (e : event) : bool :=
  match e with Cwd _ | Mkd _ => true | _ => false end.

(** What the calibration does. *)
Definition is_calibration (e : event) : bool :=
  match e with
  | OpenWrite f | CloseFile f | Remove f => (f =? ".timestamp")%string
  | Storbinary line source _ =>
      (line =? "STOR .timestamp")%string && (source =? ".timestamp")%string
  | Sendcmd line => (line =? "MDTM .timestamp")%string
  | _ => false
  end.

(** What the loop over the tree does. *)
Definition is_mirroring (e : event) : bool :=
  match e with
  | Cwd _ | Mkd _ | Sendcmd _ | Stdout _ | OpenRead _ | Storbinary _ _ _
  | CloseFile _ => true
  | _ => false
  end.

(** What the removal of the orphans does. *)
Definition is_cleanup (e : event) : bool :=
  match e with Cwd _ | Stdout _ | Delete _ => true | _ => false end.

(** Neither listing the server nor deleting on it. *)
Definition no_index_no_delete (e : event) : bool :=
  match e with Nlst | Delete _ => false | _ => true end.

(** Creating or removing no local file but the marker. *)
Definition spares_local_files (e : event) : bool :=
  match e with
  | OpenWrite f | Remove f => (f =? ".timestamp")%string
  | _ => true
  end.

(** Changing nothing on the server: no [MKD], [STOR], [DELE]. *)
Definition is_read_only (e : event) : bool :=
  match e with Mkd _ | Storbinary _ _ _ | Delete _ => false | _ => true end.

(** What a run can do, with or without [--clean]. *)
Definition is_run (cleaning : bool) (e : event) : bool :=
  match e with
  | Nlst | Delete _ => cleaning
  | OpenWrite f | Remove f => (f =? ".timestamp")%string
  | _ => true
  end.

Definition is_ok {A : Type} (r : result A) : bool :=
  match r with Ok _ => true | _ => false end.

Definition not_quit (e : event) : bool :=
  match e with Quit => false | _ => true end.

(** What a run can do before it quits. *)
Definition is_body (cleaning : bool) (e : event) : bool :=
  is_run cleaning e && not_quit e.

(** A computation that leaves the server alone.  When [strict] it also
    succeeds; otherwise it succeeds or raises [re.error]. *)
Definition local_only {Srv : Type} {A : Type} (strict : bool) (m : M Srv A) : Prop :=
  forall w,
    server (snd (m w)) = server w /\
    (is_ok (fst (m w)) = true \/ (strict = false /\ fst (m w) = Raise re_error)).

(** [QUIT] was the last thing sent and was not sent before; or it was not
    sent at all, and then the computation did not succeed. *)
Definition quit_only_last {Srv : Type} {A : Type} (m : M Srv A) : Prop :=
  forall w, exists before,
    forallb not_quit before = true /\
    (trace (snd (m w)) = trace w ++ before ++ [Quit] \/
     (trace (snd (m w)) = trace w ++ before /\ is_ok (fst (m w)) = false)).

(** The notice printed for an excluded path. *)
Definition excluding_notice (p : string) : event :=
  Stdout (("excluding " ++ p) ++ String Str.newline "")%string.

(** The file [n] is listed under the directory [d]. *)
Definition listed (tree : tree_t) (d n : string) : Prop :=
  exists names, In (d, names) tree /\ In n names.

(* ================================================================== *)
(** ** A server that keeps a working directory *)

Fixpoint no_slash (s : string) : bool :=
  match s with
  | EmptyString => true
  | String c s' => negb (Ascii.eqb c "/") && no_slash s'
  end.

(** A directory name as a tree walk or a path yields them: not empty, not
    ['..'], without ['/']. *)
Definition plain (d : string) : bool :=
  negb (d =? "..")%string && negb (d =? "")%string && no_slash d.

(** Servers whose working directory is a list of names that [CWD] moves
    in the usual way: ['..'] drops the last name, a plain name that is
    accepted is added, and neither a refused [CWD] nor [MKD] moves it. *)
Class Tracked (Srv : Type) `{Transport Srv} : Type := {
  remote_cwd : Srv -> list string;
  cwd_up : forall s s',
    srv_cwd ".." s = (Done tt, s') -> remote_cwd s' = removelast (remote_cwd s);
  cwd_down : forall d s s',
    plain d = true -> srv_cwd d s = (Done tt, s') ->
    remote_cwd s' = remote_cwd s ++ [d];
  cwd_refused : forall d s s',
    srv_cwd d s = (Perm, s') -> remote_cwd s' = remote_cwd s;
  mkd_stays : forall d s s',
    srv_mkd d s = (Done tt, s') -> remote_cwd s' = remote_cwd s
}.

(** The small server of [Mock], but one that does not know [SIZE]. *)
Module OldServer.

Record state : Type := { inner : Mock.state }.

Definition lift {A} (r : reply A * Mock.state) : reply A * state :=
  (fst r, {| inner := snd r |}).

Definition do_sendcmd (line : string) (s : state) : reply string * state :=
  match Mock.argument_of "SIZE " line with
  | Some _ => (Perm, s)
  | None => lift (Mock.do_sendcmd line (inner s))
  end.

#[global] Instance transport : Transport state := {
  srv_login := fun _ _ _ s => (Done tt, s);
  srv_cwd := fun d s => lift (Mock.do_cwd d (inner s));
  srv_mkd := fun d s => lift (Mock.do_mkd d (inner s));
  srv_nlst := fun s => lift (Mock.do_nlst (inner s));
  srv_sendcmd := do_sendcmd;
  srv_storbinary := fun line s => lift (Mock.do_stor line (inner s));
  srv_delete := fun f s => lift (Mock.do_delete f (inner s));
  srv_quit := fun s => (Done tt, s)
}.

(** It holds [x.txt] exactly as the workstation of [Examples] has it. *)
Definition one_file : world state :=
  {| server := {| inner := server (Mock.start [Mock.file ["x.txt"] "200" "3"] "990" None) |};
     trace := [] |}.

End OldServer.

(* ================================================================== *)
(** ** Vocabulary for the orphans *)

(** The remote paths of the files of a tree, as line 231 writes them. *)
Definition remote_paths (env : local_env) (tree : tree_t) : list string :=
  flat_map
    (fun e => map (fun f => Str.replace (os_sep env) "/" (path_join env (fst e) f))
                (snd e))
    tree.

Module Examples5.

(** A server on which the run stands in a document root that holds
    [a/x.txt], [c/old.txt] and the marker. *)
Definition cleaning : world Mock.state :=
  {| server :=
       {| Mock.entries :=
            [Mock.dir ["a"]; Mock.file ["a"; "x.txt"] "200" "10";
             Mock.dir ["c"]; Mock.file ["c"; "old.txt"] "5" "5"];
          Mock.cwd := [];
          Mock.clock := "990";
          Mock.features := None |};
     trace := [] |}.

(** A listing that names a directory the server lets the run enter but
    not list. *)
Record closed : Type := { inside : bool }.

#[global] Instance closed_transport : Transport closed := {
  srv_login := fun _ _ _ s => (Done tt, s);
  srv_cwd := fun d s => (Done tt, {| inside := negb (d =? "..")%string |});
  srv_mkd := fun _ s => (Perm, s);
  srv_nlst := fun s => if inside s then (Perm, s) else (Done ["private"], s);
  srv_sendcmd := fun _ s => (Perm, s);
  srv_storbinary := fun _ s => (Perm, s);
  srv_delete := fun _ s => (Done tt, s);
  srv_quit := fun s => (Done tt, s)
}.

Definition outside : world closed := {| server := {| inside := false |}; trace := [] |}.

End Examples5.

Module Examples6.

(** The workstation of [Examples3.a_only] on which [a/x.txt] cannot be
    opened. *)
Definition locked : local_env := without_read Examples3.a_only "a/x.txt".

(** The same on which the marker cannot be created. *)
Definition read_only_cwd : local_env := without_write Examples3.a_only ".timestamp".

(** A server that holds an older [a/x.txt] of the same size. *)
Definition older_remote : world Mock.state :=
  Mock.start
    [Mock.dir ["www"]; Mock.dir ["www"; "a"];
     Mock.file ["www"; "a"; "x.txt"] "50" "10"]
    "990" (Some "211 no features").

(** A server with an empty document root. *)
Definition bare_remote : world Mock.state :=
  Mock.start [Mock.dir ["www"]] "990" (Some "211 no features").

(** A workstation from which two files are named, the second through
    ['..']. *)
Definition updir_stat (p : string) : option (Z * Z) :=
  if (p =? "a/x")%string then Some (100, 1)%Z
  else if (p =? "a/../b/y")%string then Some (100, 1)%Z
  else Examples.stat p.

Definition updir : local_env := Mock.posix [] updir_stat.

Definition updir_args : arguments :=
  {| host := "h"; user := "u"; password := "p"; docroot := "/www";
     files := ["a/x"; "a/../b/y"]; clean := false; excludes := []; keeps := [];
     verbosity := 0 |}.

End Examples6.

(* ================================================================== *)
(** * Properties *)

(** ** The monad *)

Section MonadFacts.

Context {Srv : Type} `{Transport Srv}.

Lemma bind_ok {A B} (m : M Srv A) (f : A -> M Srv B) w a w' :
  m w = (Ok a, w') -> bind m f w = f a w'.
Proof. intros E. unfold bind. now rewrite E. Qed.

Lemma bind_raise {A B} (m : M Srv A) (f : A -> M Srv B) w e w' :
  m w = (Raise e, w') -> bind m f w = (Raise e, w').
Proof. intros E. unfold bind. now rewrite E. Qed.

Lemma bind_inv {A B} (m : M Srv A) (f : A -> M Srv B) w b w' :
  bind m f w = (Ok b, w') ->
  exists a w1, m w = (Ok a, w1) /\ f a w1 = (Ok b, w').
Proof.
  unfold bind. destruct (m w) as [[a| |] w1]; intros E; try discriminate.
  now exists a, w1.
Qed.

Lemma emit_run (e : event) (w : world Srv) :
  emit e w = (Ok tt, {| server := server w; trace := trace w ++ [e] |}).
Proof. reflexivity. Qed.

Lemma lift_option_some {A} (e : exn) (a : A) (w : world Srv) :
  lift_option e (Some a) w = (Ok a, w).
Proof. reflexivity. Qed.

End MonadFacts.

(** ** The upload decision *)

Section UploadDecision.

Context {Srv : Type} `{Transport Srv}.
Variable env : local_env.

(** Lines 257-267 in full: the notice, the attempt to open the local file,
    and, only if the file could be opened, the transfer; the handle is
    closed and the line ended only after a transfer that succeeded. *)
Lemma upload_run (file_path file : string) (local_size : Z) (w : world Srv) :
  upload env file_path file local_size w
  = if can_read env file_path then
      match srv_storbinary ("STOR " ++ file) (server w) with
      | (Done _, s) =>
          (Ok tt,
           {| server := s;
              trace := trace w ++ upload_started file_path file local_size
                         ++ [CloseFile file_path; Stdout (String Str.newline "")] |})
      | (Perm, s) =>
          (Raise error_perm,
           {| server := s;
              trace := trace w ++ upload_started file_path file local_size |})
      | (Fail, s) =>
          (Raise error_other,
           {| server := s;
              trace := trace w ++ upload_started file_path file local_size |})
      end
    else
      (Raise IOError,
       {| server := server w;
          trace := trace w ++ [Stdout ("uploading " ++ file_path); OpenRead file_path] |}).
Proof.
  unfold upload, upload_started, bind, stdout_write, print, emit, attempt,
    ftp_storbinary, call; simpl.
  destruct (can_read env file_path); simpl.
  - destruct (srv_storbinary _ _) as [[[]| |] s]; simpl;
      repeat rewrite <- app_assoc; simpl; reflexivity.
  - repeat rewrite <- app_assoc; simpl; reflexivity.
Qed.

Lemma upload_trace (file_path file : string) (local_size : Z) (w : world Srv) :
  can_read env file_path = true ->
  exists rest,
    trace (snd (upload env file_path file local_size w))
    = trace w ++ upload_started file_path file local_size ++ rest /\
    uploads rest = [].
Proof.
  intros R. rewrite upload_run, R.
  destruct (srv_storbinary _ _) as [[[]| |] s]; cbn [snd trace].
  - eexists; split; reflexivity.
  - exists []. split; [now rewrite app_nil_r|reflexivity].
  - exists []. split; [now rewrite app_nil_r|reflexivity].
Qed.

Lemma upload_unreadable (file_path file : string) (local_size : Z) (w : world Srv) :
  can_read env file_path = false ->
  upload env file_path file local_size w
  = (Raise IOError,
     {| server := server w;
        trace := trace w ++ [Stdout ("uploading " ++ file_path); OpenRead file_path] |}).
Proof. intros R. now rewrite upload_run, R. Qed.

Lemma sync_file_decided (u : bool) (offset : Z) (path file : string)
    (w w1 : world Srv) (lt ls rt rs : Z) :
  getmtime env (path_join env path file) = Some lt ->
  getsize env (path_join env path file) = Some ls ->
  remote_metadata env u offset file w = (Ok (rt, rs), w1) ->
  sync_file env u offset path file w
  = if needs_upload lt ls rt rs
    then upload env (path_join env path file) file ls w1
    else (Ok tt, w1).
Proof.
  intros Hm Hs Hr. unfold sync_file. rewrite Hm, Hs.
  unfold bind at 1; simpl. unfold bind at 1; simpl.
  unfold bind at 1. rewrite Hr. now destruct (needs_upload lt ls rt rs).
Qed.

Lemma needs_upload_iff (lt ls rt rs : Z) :
  needs_upload lt ls rt rs = true <-> (lt > rt \/ ls <> rs)%Z.
Proof.
  unfold needs_upload. rewrite orb_true_iff, negb_true_iff, Z.ltb_lt, Z.eqb_neq.
  split; intros [G | G]; auto; left; lia.
Qed.

(** A permanent error from either query is caught: the file counts as
    absent. *)
Lemma mdtm_perm_is_absent (file : string) (w : world Srv) (s' : Srv) :
  srv_sendcmd ("MDTM " ++ file) (server w) = (Perm, s') ->
  query_remote false file w
  = (Ok None, {| server := s'; trace := trace w ++ [Sendcmd ("MDTM " ++ file)] |}).
Proof.
  intros E. unfold query_remote, try_except, bind, ftp_sendcmd, call.
  now rewrite E.
Qed.

Lemma query_remote_never_perm (u : bool) (file : string) (w : world Srv) :
  fst (query_remote u file w) <> Raise error_perm.
Proof.
  unfold query_remote, try_except.
  match goal with |- context [match ?m w with _ => _ end] => destruct (m w) as [[a|e|] w'] end;
    simpl; try discriminate.
  destruct e; simpl; discriminate.
Qed.

End UploadDecision.

(** C5 as stated fails: the server has no file [empty], the local one is
    empty and dated at the epoch; the query fails with a permanent error,
    the run goes on, and nothing is uploaded. *)
Lemma absent_empty_file_at_epoch_is_not_uploaded :
  srv_sendcmd "MDTM empty" (server Examples.nothing) = (Perm, server Examples.nothing) /\
  getmtime Examples.here "empty" = Some 0%Z /\
  getsize Examples.here "empty" = Some 0%Z /\
  fst (sync_file Examples.here false 0 "" "empty" Examples.nothing) = Ok tt /\
  uploads (trace (snd (sync_file Examples.here false 0 "" "empty" Examples.nothing))) = [].
Proof. repeat split; reflexivity. Qed.


(** ** The navigator *)

Section StringOrder.

Lemma ascii_compare_refl (c : ascii) : Ascii.compare c c = Eq.
Proof. unfold Ascii.compare. apply N.compare_refl. Qed.

(** A text is never below one of its own prefixes. *)
Lemma compare_extension (s t : string) : String.compare (s ++ t) s <> Lt.
Proof.
  induction s as [|c s IH]; simpl.
  - destruct t; discriminate.
  - now rewrite ascii_compare_refl.
Qed.

Lemma ltb_empty (s : string) : (s <? "")%string = false.
Proof. now destruct s. Qed.

Lemma split_not_nil (c : ascii) (s : string) : Str.split c s <> [].
Proof.
  induction s as [|a s IH]; simpl; [discriminate|].
  destruct (Ascii.eqb a c); [discriminate|].
  destruct (Str.split c s); discriminate.
Qed.

Lemma join_split (c : ascii) (s : string) : Str.join c (Str.split c s) = s.
Proof.
  unfold Str.join. induction s as [|a s IH]; simpl; [reflexivity|].
  destruct (Ascii.eqb a c) eqn:E.
  - apply Ascii.eqb_eq in E. subst a.
    pose proof (split_not_nil c s) as N.
    destruct (Str.split c s) as [|x xs] eqn:S; [congruence|].
    simpl in *. now rewrite IH.
  - pose proof (split_not_nil c s) as N.
    destruct (Str.split c s) as [|x xs] eqn:S; [congruence|].
    simpl in *. destruct xs; simpl in *; now rewrite <- IH.
Qed.

Lemma append_assoc (a b c : string) : ((a ++ b) ++ c = a ++ (b ++ c))%string.
Proof. induction a as [|x a IH]; simpl; [reflexivity|]. now rewrite IH. Qed.

Lemma join_app (c : ascii) (l1 : list string) (x : string) (l2 : list string) :
  l1 <> [] ->
  Str.join c (l1 ++ x :: l2)
  = (Str.join c l1 ++ String c (Str.join c (x :: l2)))%string.
Proof.
  unfold Str.join. induction l1 as [|y l1 IH]; intros N; [congruence|].
  destruct l1 as [|z l1].
  - reflexivity.
  - change (String.concat (String c "") ((y :: z :: l1) ++ x :: l2))
      with (y ++ String c "" ++ String.concat (String c "") ((z :: l1) ++ x :: l2))%string.
    rewrite IH by discriminate.
    change (String.concat (String c "") (y :: z :: l1))
      with (y ++ String c "" ++ String.concat (String c "") (z :: l1))%string.
    simpl. now rewrite !append_assoc.
Qed.

End StringOrder.

Section Navigator.

Context {Srv : Type} `{Transport Srv}.
Variable env : local_env.

Lemma first_mismatch_some (l1 l2 : list string) (i j : nat) :
  first_mismatch i l1 l2 = Some j -> j = i + common_prefix_length l1 l2.
Proof.
  revert l2 i. induction l1 as [|a l1 IH]; intros [|b l2] i; simpl; try discriminate.
  destruct (a =? b)%string.
  - intros E. apply IH in E. lia.
  - intros [= <-]. lia.
Qed.

Lemma first_mismatch_none (l1 l2 : list string) (i : nat) :
  first_mismatch i l1 l2 = None ->
  (exists rest, l2 = l1 ++ rest) \/ (exists x rest, l1 = l2 ++ x :: rest).
Proof.
  revert l2 i. induction l1 as [|a l1 IH]; intros l2 i; simpl.
  - intros _. left. now exists l2.
  - destruct l2 as [|b l2].
    + intros _. right. now exists a, l1.
    + destruct (a =? b)%string eqn:E; [|discriminate].
      apply String.eqb_eq in E. subst b. intros N.
      destruct (IH _ _ N) as [[rest ->] | (x & rest & ->)].
      * left. now exists rest.
      * right. now exists x, rest.
Qed.

Lemma common_prefix_length_extension (l rest : list string) :
  common_prefix_length l (l ++ rest) = List.length l.
Proof.
  induction l as [|a l IH]; simpl; [reflexivity|].
  now rewrite String.eqb_refl, IH.
Qed.

(** In ascending order the next directory is never a proper ancestor of
    the current one. *)
Lemma next_is_not_an_ancestor (D1 D2 x : string) (rest : list string) :
  (D1 <? D2)%string = true ->
  segments env D1 <> segments env D2 ++ x :: rest.
Proof.
  intros L E. destruct D2 as [|c2 D2'].
  - now rewrite ltb_empty in L.
  - destruct D1 as [|c1 D1'].
    + exact (app_cons_not_nil _ _ _ E).
    + unfold segments in E.
      pose proof (join_split (os_sep env) (String c1 D1')) as J1.
      rewrite E, join_app, join_split in J1 by apply split_not_nil.
      unfold String.ltb in L. rewrite <- J1 in L.
      pose proof (compare_extension (String c2 D2')
                    (String (os_sep env) (Str.join (os_sep env) (x :: rest)))) as C.
      destruct (String.compare _ _); congruence.
Qed.

Lemma repeat_up_trace (n : nat) (w w' : world Srv) :
  repeat_m n (ftp_cwd "..") w = (Ok tt, w') ->
  trace w' = trace w ++ repeat (Cwd "..") n.
Proof.
  revert w. induction n as [|n IH]; intros w; simpl.
  - intros [= <-]. now rewrite app_nil_r.
  - intros E. apply bind_inv in E. destruct E as ([] & w1 & E1 & E2).
    apply IH in E2. rewrite E2.
    unfold ftp_cwd, call in E1. destruct (srv_cwd _ _) as [[[]| |] s]; try discriminate.
    injection E1 as <-. simpl. now rewrite <- app_assoc.
Qed.

Lemma enter_or_create_trace (d : string) (w : world Srv) :
  exists new, trace (snd (enter_or_create d w)) = trace w ++ new /\
              Forall (enters [d]) new.
Proof.
  assert (Ec : enters [d] (Cwd d)) by (exists d; simpl; auto).
  assert (Em : enters [d] (Mkd d)) by (exists d; simpl; auto).
  unfold enter_or_create, try_except, bind, ftp_cwd, ftp_mkd, call.
  destruct (srv_cwd d (server w)) as [[[]| |] s1]; simpl.
  - exists [Cwd d]. auto.
  - destruct (srv_mkd d s1) as [[[]| |] s2]; simpl.
    + destruct (srv_cwd d s2) as [[[]| |] s3]; simpl;
        exists [Cwd d; Mkd d; Cwd d]; repeat rewrite <- app_assoc; simpl; auto.
    + exists [Cwd d; Mkd d]; repeat rewrite <- app_assoc; simpl; auto.
    + exists [Cwd d; Mkd d]; repeat rewrite <- app_assoc; simpl; auto.
  - exists [Cwd d]. auto.
Qed.

Lemma enters_mono (l l' : list string) (e : event) :
  incl l l' -> enters l e -> enters l' e.
Proof. intros I (d & D & E). exists d. auto. Qed.

Lemma descent_trace (l : list string) (w : world Srv) :
  exists down, trace (snd (for_each l enter_or_create w)) = trace w ++ down /\
               Forall (enters l) down.
Proof.
  revert w. induction l as [|d l IH]; intros w; simpl.
  - exists []. now rewrite app_nil_r.
  - destruct (enter_or_create_trace d w) as (new & T & F).
    unfold bind. destruct (enter_or_create d w) as [[[]|e|] w1]; simpl in *.
    + destruct (IH w1) as (down & T' & F').
      exists (new ++ down). rewrite T', T, app_assoc. split; [reflexivity|].
      apply Forall_app. split.
      * eapply Forall_impl; [|exact F]. intros e. apply enters_mono.
        intros x [<-|[]]. now left.
      * eapply Forall_impl; [|exact F']. intros e. apply enters_mono.
        intros x I. now right.
    + exists new. split; [exact T|].
      eapply Forall_impl; [|exact F]. intros e'. apply enters_mono.
      intros x [<-|[]]. now left.
    + exists new. split; [exact T|].
      eapply Forall_impl; [|exact F]. intros e'. apply enters_mono.
      intros x [<-|[]]. now left.
Qed.

Lemma count_up_app (t1 t2 : list event) :
  count_up (t1 ++ t2) = count_up t1 + count_up t2.
Proof. unfold count_up. now rewrite filter_app, length_app. Qed.

Lemma count_up_repeat (n : nat) : count_up (repeat (Cwd "..") n) = n.
Proof. induction n; simpl; [reflexivity|]. unfold count_up in *. simpl. now rewrite IHn. Qed.

Lemma count_up_descent (l : list string) (down : list event) :
  ~ In ".." l -> Forall (enters l) down -> count_up down = 0.
Proof.
  intros N F. induction F as [|e down (d & D & E) F IH]; [reflexivity|].
  unfold count_up in *. simpl.
  destruct E as [-> | ->]; [|exact IH].
  destruct (d =? "..")%string eqn:Q; [|exact IH].
  apply String.eqb_eq in Q. subst d. contradiction.
Qed.

(** One navigation between two directory paths in ascending order: a
    navigation that completes first issues [len(D1) - k] commands
    [cwd '..'], [k] being the length of the longest common prefix of the
    two segment lists, then only enters or creates the segments of [D2]
    beyond [k], and returns the segment list of [D2]. *)
Lemma navigate_from_to (D1 D2 : string) (w w' : world Srv) (l : list string) :
  (D1 <? D2)%string = true ->
  navigate (segments env D1) (segments env D2) w = (Ok l, w') ->
  let k := common_prefix_length (segments env D1) (segments env D2) in
  let n := List.length (segments env D1) - k in
  l = segments env D2 /\
  exists down,
    trace w' = trace w ++ repeat (Cwd "..") n ++ down /\
    Forall (enters (skipn k (segments env D2))) down /\
    (~ In ".." (skipn k (segments env D2)) ->
     count_up (repeat (Cwd "..") n ++ down) = n).
Proof.
  intros L E k n. unfold navigate in E.
  apply bind_inv in E. destruct E as (i & w1 & E1 & E).
  apply bind_inv in E. destruct E as ([] & w2 & E2 & E).
  injection E as <- <-. split; [reflexivity|].
  assert (P : i = k /\ trace w1 = trace w ++ repeat (Cwd "..") n).
  { destruct (first_mismatch 0 (segments env D1) (segments env D2)) as [j|] eqn:F.
    - apply first_mismatch_some in F. simpl in F.
      apply bind_inv in E1. destruct E1 as ([] & w0 & E0 & E1).
      injection E1 as <- <-. apply repeat_up_trace in E0.
      subst j. split; [reflexivity|exact E0].
    - injection E1 as <- <-.
      destruct (first_mismatch_none _ _ _ F) as [[rest R] | (x & rest & R)].
      + assert (K : k = List.length (segments env D1)).
        { unfold k. rewrite R at 1. apply common_prefix_length_extension. }
        split; [now rewrite K|].
        unfold n. rewrite K, Nat.sub_diag. simpl. now rewrite app_nil_r.
      + exfalso. exact (next_is_not_an_ancestor _ _ _ _ L R). }
  destruct P as [-> T1].
  destruct (descent_trace (skipn k (segments env D2)) w1) as (down & T2 & F).
  rewrite E2 in T2. simpl in T2.
  exists down. split; [|split].
  - now rewrite T2, T1, <- app_assoc.
  - exact F.
  - intros N. rewrite count_up_app, count_up_repeat.
    rewrite (count_up_descent _ _ N F). lia.
Qed.

End Navigator.


(** ** The server's features (C6, C7) *)

Section Features.

Context {Srv : Type} `{Transport Srv}.

(** The pattern of line 113 does not compile, so the [try] block is left
    through its [except] before anything is sent. *)
Lemma mlst_line_pattern_rejected : Re.compilable mlst_line_pattern = false.
Proof. reflexivity. Qed.

Lemma negotiate_mlst_run (features : string) (w : world Srv) :
  negotiate_mlst features w = (Ok false, w).
Proof. reflexivity. Qed.

Lemma check_features_run (w : world Srv) :
  check_features w
  = match srv_sendcmd "FEAT" (server w) with
    | (Done _, s) => (Ok false, {| server := s; trace := trace w ++ [Sendcmd "FEAT"] |})
    | (Perm, s) => (Raise error_perm, {| server := s; trace := trace w ++ [Sendcmd "FEAT"] |})
    | (Fail, s) => (Raise error_other, {| server := s; trace := trace w ++ [Sendcmd "FEAT"] |})
    end.
Proof.
  unfold check_features, bind, ftp_sendcmd, call.
  destruct (srv_sendcmd "FEAT" (server w)) as [[text| |] s]; reflexivity.
Qed.

(** Without the capability every file costs [MDTM] and then [SIZE]. *)
Lemma separate_queries (file : string) (w w' : world Srv) (texts : string * string) :
  query_remote false file w = (Ok (Some texts), w') ->
  trace w' = trace w ++ [Sendcmd ("MDTM " ++ file); Sendcmd ("SIZE " ++ file)].
Proof.
  unfold query_remote, try_except, bind, ftp_sendcmd, call, lift_option.
  destruct (srv_sendcmd _ (server w)) as [[t| |] s1]; simpl;
    try discriminate.
  destruct (Str.split_none_1_snd t); simpl; try discriminate.
  destruct (srv_sendcmd _ s1) as [[z| |] s2]; simpl;
    try discriminate.
  destruct (Str.split_none_1_snd z); simpl; try discriminate.
  intros E. injection E as _ <-. simpl. now rewrite <- app_assoc.
Qed.

(** C7, as the code has it.  Once the reply to [FEAT] has arrived,
    negotiation cannot end the run: whatever the reply says, the run goes
    on with the optimization off, and each file's time and size are then
    asked for by two separate commands. *)
Theorem negotiation_after_feat_never_aborts (w : world Srv) (text : string) (s : Srv) :
  srv_sendcmd "FEAT" (server w) = (Done text, s) ->
  check_features w
  = (Ok false, {| server := s; trace := trace w ++ [Sendcmd "FEAT"] |}) /\
  (forall features (w0 : world Srv), negotiate_mlst features w0 = (Ok false, w0)) /\
  (forall file (w0 w' : world Srv) texts,
     query_remote false file w0 = (Ok (Some texts), w') ->
     trace w' = trace w0 ++ [Sendcmd ("MDTM " ++ file); Sendcmd ("SIZE " ++ file)]).
Proof.
  intros E. split; [|split].
  - now rewrite check_features_run, E.
  - intros features w0. apply negotiate_mlst_run.
  - intros file w0 w' texts. apply separate_queries.
Qed.

(** A failure of the [FEAT] query itself is not caught. *)
Lemma feat_failure_is_fatal (w : world Srv) (s : Srv) :
  srv_sendcmd "FEAT" (server w) = (Perm, s) ->
  fst (check_features w) = Raise error_perm.
Proof. intros E. now rewrite check_features_run, E. Qed.

End Features.

(** C6, on the code.  Whatever the reply to [FEAT] says, the capability is
    never switched on.  In particular, against a server that offers [MLST]
    with [modify] and [size] and holds [a/x.txt], the run sends no
    [OPTS MLST] and no [MLST] command and asks for the file's time and size
    with [MDTM] and [SIZE]. *)
Theorem combined_query_is_never_enabled :
  (forall (Srv : Type) (T : Transport Srv) features (w : world Srv),
     negotiate_mlst features w = (Ok false, w)) /\
  srv_sendcmd "FEAT" (server Examples3.mlst_remote)
  = (Done Examples3.feat_with_mlst, server Examples3.mlst_remote) /\
  let run := main Examples3.a_only 5 (Examples3.plain false [])
               Examples3.mlst_remote in
  fst run = Ok tt /\
  ~ In (Sendcmd "OPTS MLST modify;size;") (trace (snd run)) /\
  ~ In (Sendcmd "MLST x.txt") (trace (snd run)) /\
  In (Sendcmd "MDTM x.txt") (trace (snd run)) /\
  In (Sendcmd "SIZE x.txt") (trace (snd run)).
Proof.
  split; [intros; apply negotiate_mlst_run|].
  vm_compute. repeat split; try tauto;
    intros G; repeat (destruct G as [G|G]; [discriminate G|]); exact G.
Qed.

Lemma negotiation_after_feat_never_aborts_witness :
  check_features Examples3.mlst_remote
  = (Ok false,
     {| server := server Examples3.mlst_remote;
        trace := trace Examples3.mlst_remote ++ [Sendcmd "FEAT"] |}).
Proof.
  exact (proj1 (negotiation_after_feat_never_aborts Examples3.mlst_remote
                  Examples3.feat_with_mlst (server Examples3.mlst_remote) eq_refl)).
Defined.

(** C7 as stated fails: a server that answers [FEAT] with a permanent
    error ends the run there. *)
Lemma feat_failure_aborts_the_run :
  srv_sendcmd "FEAT" (server Examples3.no_feat) = (Perm, server Examples3.no_feat) /\
  let run := main Examples3.a_only 5 (Examples3.plain false []) Examples3.no_feat in
  fst run = Raise error_perm /\
  last (trace (snd run)) Quit = Sendcmd "FEAT".
Proof. vm_compute. auto. Qed.

(** ** The clock offset *)

Section Calibration.

Context {Srv : Type} `{Transport Srv}.
Variable env : local_env.

(** A calibration whose marker cannot be created ends there: nothing is
    sent and nothing is removed. *)
Lemma calibrate_unwritable (w : world Srv) :
  can_write env ".timestamp" = false ->
  calibrate env w
  = (Raise IOError,
     {| server := server w; trace := trace w ++ [OpenWrite ".timestamp"] |}).
Proof.
  intros W. unfold calibrate, bind, attempt. now rewrite W.
Qed.

(** Once the marker is created it is sent, and whatever happens next the
    local marker is closed and [os.remove] is called on it before the
    calibration is left; nothing else is sent but the [MDTM] query. *)
Lemma calibrate_trace (w : world Srv) :
  can_write env ".timestamp" = true ->
  exists query,
    trace (snd (calibrate env w))
    = trace w
      ++ [OpenWrite ".timestamp";
          Storbinary "STOR .timestamp" ".timestamp" false;
          CloseFile ".timestamp"]
      ++ query ++ [Remove ".timestamp"] /\
    (query = [] \/ query = [Sendcmd "MDTM .timestamp"]).
Proof.
  intros W.
  unfold calibrate, try_finally, bind, emit, attempt, ftp_storbinary, ftp_sendcmd,
    call, lift_option; rewrite W; simpl.
  destruct (can_remove env ".timestamp");
  (destruct (srv_storbinary _ _) as [[[]| |] s1]; simpl;
    try (exists []; repeat rewrite <- app_assoc; simpl; auto; fail);
  destruct (getmtime env ".timestamp"); simpl;
    try (exists []; repeat rewrite <- app_assoc; simpl; auto; fail);
  destruct (srv_sendcmd _ _) as [[t| |] s2]; simpl;
    try (exists [Sendcmd "MDTM .timestamp"]; repeat rewrite <- app_assoc; simpl; auto; fail);
  destruct (Str.split_none_1_snd t); simpl;
    try (exists [Sendcmd "MDTM .timestamp"]; repeat rewrite <- app_assoc; simpl; auto; fail);
  destruct (timegm_strptime env s); simpl;
    exists [Sendcmd "MDTM .timestamp"]; repeat rewrite <- app_assoc; simpl; auto).
Qed.

End Calibration.

(** C8 as stated fails: a complete run without [--clean] stores the marker
    and never deletes anything; the marker is still on the server when the
    run has quit. *)
Lemma remote_marker_is_left_behind :
  let run := main Examples3.a_only 5 (Examples3.plain false [])
               Examples3.mlst_remote in
  fst run = Ok tt /\
  In (Storbinary "STOR .timestamp" ".timestamp" false) (trace (snd run)) /\
  (forall f, ~ In (Delete f) (trace (snd run))) /\
  Mock.find_entry ["www"; ".timestamp"] (server (snd run))
  = Some (Mock.file ["www"; ".timestamp"] "990" "0").
Proof.
  vm_compute. repeat split; try tauto.
  intros f G. repeat (destruct G as [G|G]; [discriminate G|]). exact G.
Qed.

(** ** The matcher against the meaning of patterns (C9) *)

Section Matcher.

Variable ml : bool.

Lemma orelse_some {T} (a b : option T) (t : T) :
  Re.orelse a b = Some t -> a = Some t \/ (a = None /\ b = Some t).
Proof. destruct a; simpl; intros E; [left|right]; auto. Qed.

Lemma orelse_found {T} (a b : option T) :
  (a <> None \/ b <> None) -> Re.orelse a b <> None.
Proof. destruct a; simpl; intros [G|G]; congruence. Qed.

(** Whatever the matcher finds, the pattern matches. *)
Lemma run_sound (r : Re.regex) :
  forall T b s (k : string -> string -> option T) t,
    Re.run T ml r b s k = Some t ->
    exists b' s', Matches ml r b s b' s' /\ k b' s' = Some t.
Proof.
  induction r as [ |c| |items|r1 IH1 r2 IH2|r1 IH1 r2 IH2|r1 IH1|r1 IH1| | |r1 IH1|r1 IH1];
    intros T b s k t; cbn [Re.run].
  - intros E. exists b, s. split; [constructor|exact E].
  - destruct s as [|a s']; [discriminate|].
    destruct (Ascii.eqb a c) eqn:Q; [|discriminate].
    apply Ascii.eqb_eq in Q. subst a. intros E.
    exists (String c b), s'. split; [constructor|exact E].
  - destruct s as [|a s']; [discriminate|].
    destruct (Ascii.eqb a Str.newline) eqn:Q; [discriminate|]. intros E.
    exists (String a b), s'. split; [now constructor|exact E].
  - destruct s as [|a s']; [discriminate|].
    destruct (existsb (Re.item_has a) items) eqn:Q; [|discriminate]. intros E.
    exists (String a b), s'. split; [now constructor|exact E].
  - intros E. apply IH1 in E. destruct E as (b1 & s1 & M1 & E).
    apply IH2 in E. destruct E as (b2 & s2 & M2 & E).
    exists b2, s2. split; [econstructor; eassumption|exact E].
  - intros E. apply orelse_some in E. destruct E as [E | [_ E]].
    + apply IH1 in E. destruct E as (b' & s' & M & E).
      exists b', s'. split; [now apply MAltL|exact E].
    + apply IH2 in E. destruct E as (b' & s' & M & E).
      exists b', s'. split; [now apply MAltR|exact E].
  - generalize (String.length s) as n. intros n. revert b s t.
    induction n as [|n IHn]; intros b s t E.
    + simpl in E. exists b, s. split; [constructor|exact E].
    + apply orelse_some in E. destruct E as [E | [_ E]].
      * apply IH1 in E. destruct E as (b1 & s1 & M1 & E).
        destruct (String.length s1 <? String.length s) eqn:Q; [|discriminate].
        apply Nat.ltb_lt in Q. apply IHn in E.
        destruct E as (b2 & s2 & M2 & E).
        exists b2, s2. split; [|exact E]. eapply MStarStep; eassumption.
      * exists b, s. split; [constructor|exact E].
  - intros E. apply IH1 in E. destruct E as (b' & s' & M & E).
    exists b', s'. split; [now constructor|exact E].
  - destruct (Re.at_bol ml b) eqn:Q; [|discriminate]. intros E.
    exists b, s. split; [now constructor|exact E].
  - destruct (Re.at_eol ml s) eqn:Q; [|discriminate]. intros E.
    exists b, s. split; [now constructor|exact E].
  - destruct (Re.fixed_width r1) as [w|] eqn:W; [|discriminate].
    destruct (w <=? String.length b) eqn:L; [|discriminate].
    apply Nat.leb_le in L.
    match goal with |- context [Re.run unit ml r1 ?b0 ?s0 ?k0] =>
      destruct (Re.run unit ml r1 b0 s0 k0) as [[]|] eqn:R end; [|discriminate].
    apply IH1 in R. destruct R as (b' & s' & M & R).
    destruct (String.length s' =? String.length s) eqn:Q; [|discriminate].
    apply Nat.eqb_eq in Q. intros E.
    exists b, s. split; [|exact E]. eapply MLookBehind; eassumption.
  - destruct (Re.run unit ml r1 b s (fun _ _ => Some tt)) as [[]|] eqn:R;
      [|discriminate].
    apply IH1 in R. destruct R as (b' & s' & M & _). intros E.
    exists b, s. split; [|exact E]. eapply MLookAhead; eassumption.
Qed.

(** Whenever the pattern matches in a way the continuation accepts, the
    matcher finds something. *)
Lemma run_complete (r : Re.regex) :
  forall T b s b' s' (k : string -> string -> option T),
    Matches ml r b s b' s' -> k b' s' <> None ->
    Re.run T ml r b s k <> None.
Proof.
  induction r as [ |c| |items|r1 IH1 r2 IH2|r1 IH1 r2 IH2|r1 IH1|r1 IH1| | |r1 IH1|r1 IH1];
    intros T b s b' s' k M K; cbn [Re.run].
  - inversion M; subst. exact K.
  - inversion M; subst. now rewrite Ascii.eqb_refl.
  - inversion M; subst.
    match goal with Q : Ascii.eqb _ _ = false |- _ => now rewrite Q end.
  - inversion M; subst.
    match goal with Q : existsb _ _ = true |- _ => now rewrite Q end.
  - inversion M; subst.
    eapply IH1; [eassumption|]. eapply IH2; eassumption.
  - apply orelse_found. inversion M; subst.
    + left. eapply IH1; eassumption.
    + right. eapply IH2; eassumption.
  - assert (G : forall n, String.length s <= n ->
              (fix star (n : nat) (bef rest : string) {struct n} : option T :=
                 Re.orelse
                   match n with
                   | O => None
                   | S n' =>
                       Re.run T ml r1 bef rest
                         (fun b0 s0 =>
                            if String.length s0 <? String.length rest
                            then star n' b0 s0 else None)
                   end
                   (k bef rest)) n b s <> None).
    { remember (Re.Star r1) as r0 eqn:R0.
      induction M as [ | | | | | | |r b s|r b s b1 s1 b2 s2 M1 _ L1 M2 IHM2| | | | | ];
        try discriminate; injection R0 as ->; intros n L.
      - destruct n; apply orelse_found; now right.
      - destruct n as [|n]; [lia|].
        apply orelse_found. left.
        eapply IH1; [eassumption|].
        apply Nat.ltb_lt in L1 as Q. rewrite Q.
        apply IHM2; [reflexivity|exact K|lia]. }
    apply G. lia.
  - inversion M; subst. eapply IH1; eassumption.
  - inversion M; subst.
    match goal with Q : Re.at_bol _ _ = true |- _ => now rewrite Q end.
  - inversion M; subst.
    match goal with Q : Re.at_eol _ _ = true |- _ => now rewrite Q end.
  - inversion M; subst.
    match goal with Q : Re.fixed_width _ = Some _ |- _ => rewrite Q end.
    match goal with Q : _ <= String.length _ |- _ =>
      apply Nat.leb_le in Q; rewrite Q end.
    match goal with |- context [Re.run unit ml r1 ?b0 ?s0 ?k0] =>
      destruct (Re.run unit ml r1 b0 s0 k0) as [[]|] eqn:R end; [exact K|].
    exfalso. revert R. eapply IH1; [eassumption|].
    match goal with Q : String.length _ = String.length _ |- _ =>
      apply Nat.eqb_eq in Q; now rewrite Q end.
  - inversion M; subst.
    match goal with |- context [Re.run unit ml r1 ?b0 ?s0 ?k0] =>
      destruct (Re.run unit ml r1 b0 s0 k0) as [[]|] eqn:R end; [exact K|].
    exfalso. revert R. eapply IH1; [eassumption|discriminate].
Qed.

End Matcher.

Section Rules.

Context {Srv : Type} `{Transport Srv}.
Variable env : local_env.

(** A match moves the position and nothing else: the text as a whole
    stays what it was. *)
Lemma Matches_text (ml : bool) (r : Re.regex) (b s b' s' : string) :
  Matches ml r b s b' s' -> Str.rev_onto b' s' = Str.rev_onto b s.
Proof.
  induction 1; try reflexivity; try congruence.
Qed.

Lemma at_eol_end (s : string) :
  Re.at_eol false s = true <-> (s = "" \/ s = String Str.newline "")%string.
Proof.
  destruct s as [|c [|d s]]; simpl.
  - intuition.
  - split.
    + intros Q. apply Ascii.eqb_eq in Q. subst c. now right.
    + intros [Q|Q]; [discriminate|]. injection Q as ->. reflexivity.
  - split; [discriminate|]. intros [Q|Q]; discriminate.
Qed.

Lemma matched_by_iff (rule : Re.regex) (p : string) :
  matched_by rule p = true <-> exists b' s', Matches false rule "" p b' s'.
Proof.
  unfold matched_by, Re.match_at. split.
  - destruct (Re.run _ _ _ _ _ _) as [t|] eqn:R; [|discriminate]. intros _.
    apply run_sound in R. destruct R as (b' & s' & M & _). eauto.
  - intros (b' & s' & M).
    destruct (Re.run _ _ _ _ _ _) as [t|] eqn:R; [reflexivity|].
    exfalso. revert R. eapply run_complete; [eassumption|discriminate].
Qed.

Lemma whole_path_rule_iff (r : Re.regex) (p : string) :
  matched_by (whole_path_rule r) p = true <-> matches_whole r p.
Proof.
  rewrite matched_by_iff. unfold whole_path_rule, matches_whole. split.
  - intros (b' & s' & M). inversion M as [ | | | |? ? ? ? b1 s1 ? ? M1 M2| | | | | | | | | ]; subst.
    inversion M1; subst. inversion M2; subst.
    exists b', s'. split; [assumption|]. now apply at_eol_end.
  - intros (b' & s' & M & E). exists b', s'.
    econstructor; [constructor; eassumption|].
    constructor. now apply at_eol_end.
Qed.

Lemma boundary_rule_iff (r : Re.regex) (p : string) :
  matched_by (boundary_rule r) p = true <-> matches_to_boundary r p.
Proof.
  rewrite matched_by_iff. unfold boundary_rule, matches_to_boundary. split.
  - intros (b' & s' & M). inversion M as [ | | | |? ? ? ? b1 s1 ? ? M1 M2| | | | | | | | | ]; subst.
    inversion M1; subst. inversion M2 as [ | | | | | | | | |? ? ? ? ? M3| | | | ]; subst.
    exists b1, s1. split; [assumption|].
    inversion M3 as [ | | | | |? ? ? ? ? ? M4|? ? ? ? ? ? M4| | | | | | | ]; subst;
      inversion M4; subst; eauto.
  - intros (b' & s' & M & [E | (s'' & ->)]).
    + exists b', s'. econstructor; [constructor; eassumption|].
      constructor. apply MAltR. now constructor.
    + exists (String "/" b'), s''. econstructor; [constructor; eassumption|].
      constructor. apply MAltL. constructor.
Qed.

Lemma compilable_whole_path_rule (r : Re.regex) :
  Re.compilable (whole_path_rule r) = Re.compilable r.
Proof. simpl. now rewrite andb_true_r. Qed.

Lemma compilable_boundary_rule (r : Re.regex) :
  Re.compilable (boundary_rule r) = Re.compilable r.
Proof. simpl. now rewrite andb_true_r. Qed.

(** The rule test changes nothing; it yields [hit], or [re.error] for a
    rule that does not compile. *)
Lemma rule_hits_run (rule : Re.regex) (p : string) (w : world Srv) :
  rule_hits env rule p w
  = if Re.compilable rule then (Ok (hit env rule p), w) else (Raise re_error, w).
Proof.
  unfold rule_hits, re_match, hit, matched_by, bind.
  destruct (Re.compilable rule); [|reflexivity]. simpl.
  destruct (Re.match_at false rule "" p); [reflexivity|].
  destruct (os_altsep env) as [alt|]; [|reflexivity]. simpl.
  now destruct (Re.match_at false rule "" (Str.replace (os_sep env) alt p)).
Qed.

(** C9, as the code has it.  A compiled exclude or keep rule is met by a
    candidate path exactly when the pattern matches the path from its first
    character through to its end (or to a newline that ends it), the path
    being taken as it is or with the alternative separator; the text the
    pattern consumed and what is left of the path make up the whole
    path. *)
Theorem rule_matches_whole_paths_only (r : Re.regex) (p : string) (w : world Srv) :
  Re.compilable r = true ->
  rule_hits env (whole_path_rule r) p w
  = (Ok (hit env (whole_path_rule r) p), w) /\
  (hit env (whole_path_rule r) p = true <->
   matches_whole r p \/
   exists alt, os_altsep env = Some alt /\
               matches_whole r (Str.replace (os_sep env) alt p)) /\
  (forall q b' s', Matches false r "" q b' s' -> q = Str.rev_onto b' s').
Proof.
  intros C. split; [|split].
  - now rewrite rule_hits_run, compilable_whole_path_rule, C.
  - unfold hit. rewrite orb_true_iff, whole_path_rule_iff.
    destruct (os_altsep env) as [alt|].
    + rewrite whole_path_rule_iff. split.
      * intros [G|G]; [now left|]. right. now exists alt.
      * intros [G|(alt' & [= <-] & G)]; [now left|now right].
    + split.
      * intros [G|G]; [now left|discriminate].
      * intros [G|(alt' & Q & _)]; [now left|discriminate].
  - intros q b' s' M. apply Matches_text in M. now rewrite M.
Qed.

End Rules.

Lemma rule_matches_whole_paths_only_witness :
  rule_hits Examples.here (whole_path_rule (Re.Lit "ab")) "ab" Examples.nothing
  = (Ok (hit Examples.here (whole_path_rule (Re.Lit "ab")) "ab"), Examples.nothing) /\
  (hit Examples.here (whole_path_rule (Re.Lit "ab")) "ab" = true <->
   matches_whole (Re.Lit "ab") "ab" \/
   exists alt, os_altsep Examples.here = Some alt /\
               matches_whole (Re.Lit "ab") (Str.replace (os_sep Examples.here) alt "ab")) /\
  (forall q b' s', Matches false (Re.Lit "ab") "" q b' s' -> q = Str.rev_onto b' s').
Proof.
  apply (rule_matches_whole_paths_only Examples.here (Re.Lit "ab") "ab"
           Examples.nothing).
  reflexivity.
Defined.

(** C9 as stated fails: the pattern [b] matches the suffix [b] of the path
    [ab], which ends where the path ends, and the rule made of it is not
    met by [ab]. *)
Lemma suffix_match_is_not_a_rule_match :
  fully_matches (Re.Chr "b") "b" /\
  Matches false (Re.Chr "b") "a" "b" "ba" "" /\
  rule_hits Examples.here (whole_path_rule (Re.Chr "b")) "ab" Examples.nothing
  = (Ok false, Examples.nothing).
Proof.
  split; [|split].
  - exists "b"%string. constructor.
  - constructor.
  - reflexivity.
Qed.

(** ** The local tree *)

Lemma node_induction (P : node -> Prop) :
  (forall n, P (File n)) ->
  (forall n cs, Forall P cs -> P (Dir n cs)) ->
  forall x, P x.
Proof.
  intros Hf Hd. fix IH 1. intros [n | n cs]; [apply Hf|]. apply Hd.
  induction cs as [|c cs IHcs]; constructor; [apply IH | exact IHcs].
Qed.

Section Walk.

Context {Srv : Type} `{Transport Srv}.
Variable env : local_env.

Lemma walk_unfold (rules : list Re.regex) (root name : string)
    (children : list node) (tree : tree_t) (w : world Srv) :
  walk env rules root (Dir name children) tree w
  = (emit (Listdir root) ;;
     pruned <- apply_excludes env rules root (dir_names children) (file_names children) ;;
     walk_children env rules root (fst pruned) children
       (match snd pruned with [] => tree | _ => setitem root (snd pruned) tree end)) w.
Proof.
  cbn [walk]. unfold bind. destruct (emit (Listdir root) w) as [[[]| |] w1]; try reflexivity.
  destruct (apply_excludes _ _ _ _ _ w1) as [[[dirs fnames]| |] w2]; try reflexivity.
  cbn [fst snd].
  generalize (match fnames with [] => tree | _ => setitem root fnames tree end).
  generalize w2. clear.
  induction children as [|[f|name sub] cs IH]; intros w t; cbn [walk_children].
  - reflexivity.
  - apply IH.
  - destruct (mem name dirs); [|apply IH].
    unfold bind. destruct (walk env rules _ _ t w) as [[t'| |] w']; try reflexivity.
    apply IH.
Qed.

Lemma filter_filter {A} (f g : A -> bool) (l : list A) :
  filter g (filter f l) = filter (fun x => f x && g x) l.
Proof.
  induction l as [|x l IH]; simpl; [reflexivity|].
  destruct (f x); simpl; [|exact IH]. destruct (g x); now rewrite IH.
Qed.

(** The deletion loop keeps exactly the names whose path the rule does not
    meet, and only prints. *)
Lemma exclude_matching_ok (rule : Re.regex) (path_of : string -> string)
    (names names' : list string) (w w' : world Srv) :
  exclude_matching env rule path_of names w = (Ok names', w') ->
  names' = filter (fun x => negb (hit env rule (path_of x))) names /\
  server w' = server w /\
  (forall d, In (Listdir d) (trace w') -> In (Listdir d) (trace w)).
Proof.
  revert names' w'. induction names as [|x names IH]; intros names' w'; simpl.
  - intros [= <- <-]. auto.
  - intros E. apply bind_inv in E. destruct E as (rest' & w1 & E1 & E).
    apply IH in E1. destruct E1 as (-> & S1 & T1).
    apply bind_inv in E. destruct E as (b & w2 & E2 & E).
    rewrite rule_hits_run in E2. destruct (Re.compilable rule); [|discriminate].
    injection E2 as <- <-.
    destruct (hit env rule (path_of x)); simpl.
    + apply bind_inv in E. destruct E as ([] & w3 & E3 & E).
      injection E as <- <-. injection E3 as <-. simpl.
      repeat split; auto. intros d I. apply in_app_or in I.
      destruct I as [I|[I|[]]]; [auto|discriminate].
    + injection E as <- <-. auto.
Qed.

Lemma apply_excludes_ok (rules : list Re.regex) (root : string)
    (dirs fnames dirs' fnames' : list string) (w w' : world Srv) :
  apply_excludes env rules root dirs fnames w = (Ok (dirs', fnames'), w') ->
  dirs' = filter (fun x => negb (excluded env rules (path_join env root x))) dirs /\
  fnames' = filter (fun x => negb (excluded env rules (path_join env root x))) fnames /\
  server w' = server w /\
  (forall d, In (Listdir d) (trace w') -> In (Listdir d) (trace w)).
Proof.
  revert dirs fnames w. induction rules as [|rule rules IH]; intros dirs fnames w; simpl.
  - intros [= <- <- <-].
    repeat split; auto; symmetry; apply forallb_filter_id; now apply forallb_forall.
  - intros E. apply bind_inv in E. destruct E as (d1 & w1 & E1 & E).
    apply exclude_matching_ok in E1. destruct E1 as (-> & S1 & T1).
    apply bind_inv in E. destruct E as (f1 & w2 & E2 & E).
    apply exclude_matching_ok in E2. destruct E2 as (-> & S2 & T2).
    apply IH in E. destruct E as (-> & -> & S3 & T3).
    rewrite !filter_filter.
    repeat split; try congruence; auto;
      apply filter_ext; intros x; now rewrite negb_orb.
Qed.

Lemma mem_In (x : string) (l : list string) : mem x l = true <-> In x l.
Proof.
  unfold mem. rewrite existsb_exists. split.
  - intros (y & I & Q). apply String.eqb_eq in Q. now subst y.
  - intros I. exists x. split; [exact I|apply String.eqb_refl].
Qed.

Lemma dir_names_middle (pre post : list node) (name : string) (sub : list node) :
  dir_names (pre ++ Dir name sub :: post) = dir_names pre ++ name :: dir_names post.
Proof. unfold dir_names. now rewrite flat_map_app. Qed.

Lemma file_names_middle (pre post : list node) (name : string) (sub : list node) :
  file_names (pre ++ Dir name sub :: post) = file_names pre ++ file_names post.
Proof. unfold file_names. now rewrite flat_map_app. Qed.

Lemma walk_children_skips (rules : list Re.regex) (root : string)
    (dirs : list string) (pre post : list node) (name : string)
    (sub sub' : list node) (tree : tree_t) (w : world Srv) :
  mem name dirs = false ->
  walk_children env rules root dirs (pre ++ Dir name sub :: post) tree w
  = walk_children env rules root dirs (pre ++ Dir name sub' :: post) tree w.
Proof.
  intros N. revert tree w.
  induction pre as [|[f|d s] pre IH]; intros tree w; cbn [walk_children app].
  - now rewrite N.
  - apply IH.
  - destruct (mem d dirs); [|apply IH].
    unfold bind. destruct (walk env rules _ _ tree w) as [[t'| |] w']; try reflexivity.
    apply IH.
Qed.

(** What an excluded directory holds has no part in the walk. *)
Lemma walk_ignores_excluded (rules : list Re.regex) (root n name : string)
    (pre post sub sub' : list node) (tree : tree_t) (w : world Srv) :
  excluded env rules (path_join env root name) = true ->
  walk env rules root (Dir n (pre ++ Dir name sub :: post)) tree w
  = walk env rules root (Dir n (pre ++ Dir name sub' :: post)) tree w.
Proof.
  intros X. rewrite !walk_unfold, !dir_names_middle, !file_names_middle.
  unfold bind. destruct (emit (Listdir root) w) as [[[]| |] w1]; try reflexivity.
  destruct (apply_excludes _ _ _ _ _ w1) as [[[dirs fnames]| |] w2] eqn:E;
    try reflexivity.
  cbn [fst snd]. apply walk_children_skips.
  apply apply_excludes_ok in E. destruct E as (-> & _).
  destruct (mem name _) eqn:Q; [|reflexivity].
  apply mem_In, filter_In in Q. destruct Q as [_ Q]. now rewrite X in Q.
Qed.

Lemma setitem_Forall (P : string * list string -> Prop) (key : string)
    (names : list string) (tree : tree_t) :
  P (key, names) -> Forall P tree -> Forall P (setitem key names tree).
Proof.
  intros K F. induction F as [|[k old] tree Pk F IH]; simpl.
  - auto.
  - destruct (k =? key)%string eqn:Q.
    + apply String.eqb_eq in Q. subst k. auto.
    + auto.
Qed.

Lemma lists_only_reached_refl (rules : list Re.regex) (top : list node)
    (w : world Srv) :
  lists_only_reached env rules top w w.
Proof. intros d I. now left. Qed.

Lemma lists_only_reached_trans (rules : list Re.regex) (top : list node)
    (w1 w2 w3 : world Srv) :
  lists_only_reached env rules top w1 w2 ->
  lists_only_reached env rules top w2 w3 ->
  lists_only_reached env rules top w1 w3.
Proof. intros A B d I. destruct (B d I) as [J|V]; [apply A, J|now right]. Qed.

Lemma walk_children_invariant (rules : list Re.regex) (top : list node)
    (root : string) (dirs : list string) (all cs : list node) :
  reached env rules top root all ->
  (forall c, In c cs -> In c all) ->
  (forall name, mem name dirs = true ->
                excluded env rules (path_join env root name) = false) ->
  Forall
    (fun c =>
       forall root tree (w : world Srv) tree' w',
         (forall n sub, c = Dir n sub -> reached env rules top root sub) ->
         Forall (good_entry env rules top) tree ->
         walk env rules root c tree w = (Ok tree', w') ->
         Forall (good_entry env rules top) tree' /\
         lists_only_reached env rules top w w')
    cs ->
  forall tree (w : world Srv) tree' w',
    Forall (good_entry env rules top) tree ->
    walk_children env rules root dirs cs tree w = (Ok tree', w') ->
    Forall (good_entry env rules top) tree' /\ lists_only_reached env rules top w w'.
Proof.
  intros V Sub D F. induction F as [|c cs Pc F IH]; intros tree w tree' w' G E.
  - injection E as <- <-. split; [exact G|apply lists_only_reached_refl].
  - assert (Sub' : forall c', In c' cs -> In c' all).
    { intros c' I. apply Sub. now right. }
    destruct c as [f|name sub]; cbn [walk_children] in E.
    + now apply IH with (tree := tree).
    + destruct (mem name dirs) eqn:Q; [|now apply IH with (tree := tree)].
      apply bind_inv in E. destruct E as (t1 & w1 & E1 & E).
      apply Pc in E1; [|intros n sub0 [= <- <-];
                         apply (reached_child env rules top root all name sub V);
                         [apply Sub; now left|now apply D]|exact G].
      destruct E1 as [G1 L1].
      apply IH in E; [|exact Sub'|exact G1]. destruct E as [G2 L2].
      split; [exact G2|]. eapply lists_only_reached_trans; eassumption.
Qed.

(** Whatever the walk adds to the tree is a directory reached through
    directories that meet no rule, with its files that meet no rule; and
    only such directories are listed. *)
Lemma walk_invariant (rules : list Re.regex) (top : list node) (here : node) :
  forall root tree (w : world Srv) tree' w',
    (forall n sub, here = Dir n sub -> reached env rules top root sub) ->
    Forall (good_entry env rules top) tree ->
    walk env rules root here tree w = (Ok tree', w') ->
    Forall (good_entry env rules top) tree' /\ lists_only_reached env rules top w w'.
Proof.
  induction here as [f|n cs IH] using node_induction;
    intros root tree w tree' w' V G E.
  - injection E as <- <-. split; [exact G|apply lists_only_reached_refl].
  - specialize (V n cs eq_refl).
    rewrite walk_unfold in E.
    apply bind_inv in E. destruct E as ([] & w1 & E1 & E).
    injection E1 as <-.
    apply bind_inv in E. destruct E as ([dirs fnames] & w2 & E2 & E).
    apply apply_excludes_ok in E2. destruct E2 as (-> & -> & _ & T2).
    cbn [fst snd] in E.
    eapply walk_children_invariant in E; try eassumption.
    + destruct E as [G' L]. split; [exact G'|].
      intros d I. destruct (L d I) as [J|J]; [|now right].
      apply T2 in J. simpl in J. apply in_app_or in J.
      destruct J as [J|[J|[]]]; [now left|]. injection J as <-.
      right. now exists cs.
    + auto.
    + intros name Q. apply mem_In, filter_In in Q.
      destruct Q as [_ Q]. now apply negb_true_iff in Q.
    + match goal with |- Forall _ (match ?l with [] => _ | _ => _ end) =>
        destruct l eqn:Q end; [exact G|].
      rewrite <- Q. apply setitem_Forall; [|exact G].
      split.
      * exists cs. split; [exact V|reflexivity].
      * simpl. intros f I. apply filter_In in I.
        destruct I as [_ I]. now apply negb_true_iff in I.
Qed.

(** *** The content of an excluded directory has no part in the walk *)

Lemma hollow_dir (rules : list Re.regex) (root name : string) (cs : list node) :
  hollow env rules root (Dir name cs)
  = Dir name
      (map (fun c =>
              match c with
              | File f => File f
              | Dir nm _ =>
                  if excluded env rules (path_join env root nm)
                  then Dir nm []
                  else hollow env rules (path_join env root nm) c
              end) cs).
Proof. reflexivity. Qed.

Lemma hollow_keeps_dir_names (rules : list Re.regex) (root : string) (cs : list node) :
  dir_names
    (map (fun c =>
            match c with
            | File f => File f
            | Dir nm _ =>
                if excluded env rules (path_join env root nm)
                then Dir nm []
                else hollow env rules (path_join env root nm) c
            end) cs)
  = dir_names cs.
Proof.
  induction cs as [|[f|nm sub] cs IH]; simpl; [reflexivity|exact IH|].
  destruct (excluded env rules (path_join env root nm)); simpl; now rewrite IH.
Qed.

Lemma hollow_keeps_file_names (rules : list Re.regex) (root : string) (cs : list node) :
  file_names
    (map (fun c =>
            match c with
            | File f => File f
            | Dir nm _ =>
                if excluded env rules (path_join env root nm)
                then Dir nm []
                else hollow env rules (path_join env root nm) c
            end) cs)
  = file_names cs.
Proof.
  induction cs as [|[f|nm sub] cs IH]; simpl; [reflexivity|now rewrite IH|].
  destruct (excluded env rules (path_join env root nm)); simpl; now rewrite IH.
Qed.

(** The walk does the same on the file system as on the one in which
    every directory that meets a rule has been emptied. *)
Lemma walk_hollow (rules : list Re.regex) (here : node) :
  forall root tree (w : world Srv),
    walk env rules root here tree w
    = walk env rules root (hollow env rules root here) tree w.
Proof.
  induction here as [f|n cs IH] using node_induction; intros root tree w.
  - reflexivity.
  - rewrite hollow_dir, !walk_unfold, hollow_keeps_dir_names, hollow_keeps_file_names.
    unfold bind. destruct (emit (Listdir root) w) as [[[]| |] w1]; try reflexivity.
    destruct (apply_excludes _ _ _ _ _ w1) as [[[dirs fnames]| |] w2] eqn:E;
      try reflexivity.
    cbn [fst snd].
    apply apply_excludes_ok in E. destruct E as (D & _).
    assert (X : forall name, mem name dirs = true ->
                  excluded env rules (path_join env root name) = false).
    { intros name Q. subst dirs. apply mem_In, filter_In in Q.
      destruct Q as [_ Q]. now apply negb_true_iff in Q. }
    clear D.
    generalize (match fnames with [] => tree | _ => setitem root fnames tree end).
    generalize w2.
    induction IH as [|c cs Pc F IHcs]; intros v t; [reflexivity|].
    destruct c as [f|nm sub]; cbn [walk_children map].
    + apply IHcs.
    + destruct (excluded env rules (path_join env root nm)) eqn:Q.
      * destruct (mem nm dirs) eqn:Mm; [|apply IHcs].
        apply X in Mm. congruence.
      * rewrite hollow_dir. cbv beta iota.
        destruct (mem nm dirs) eqn:Mm; [|apply IHcs].
        rewrite <- hollow_dir. unfold bind. rewrite <- Pc.
        destruct (walk env rules _ _ t v) as [[t'| |] v']; try reflexivity.
        apply IHcs.
Qed.

Lemma insert_sorted_In (item x : string * list string) (l : tree_t) :
  In x (insert_sorted item l) <-> x = item \/ In x l.
Proof.
  induction l as [|y l IH]; simpl; [intuition|].
  destruct (String.leb (fst item) (fst y)); simpl; [intuition|].
  rewrite IH. intuition.
Qed.

Lemma sorted_items_In (x : string * list string) (tree : tree_t) :
  In x (sorted_items tree) <-> In x tree.
Proof.
  unfold sorted_items. induction tree as [|y tree IH]; simpl; [tauto|].
  rewrite insert_sorted_In, IH. intuition.
Qed.

(** The tree built by walking holds only directories that are reached
    and files that meet no exclude rule, and only directories that are
    reached were listed. *)
Lemma walked_tree_is_good (args : arguments) (w w' : world Srv) (tree : tree_t) :
  build_tree env args None w = (Ok tree, w') ->
  Forall (good_entry env (exclude_rules args) (local_root env)) tree /\
  lists_only_reached env (exclude_rules args) (local_root env) w w'.
Proof.
  unfold build_tree. intros E.
  apply bind_inv in E. destruct E as (t & w1 & E1 & E). injection E as <- <-.
  assert (V : forall n sub, Dir "" (local_root env) = Dir n sub ->
                reached env (exclude_rules args) (local_root env) "" sub).
  { intros n sub [= <- <-]. apply reached_top. }
  destruct (walk_invariant _ _ _ _ _ _ _ _ V (Forall_nil _) E1) as [G L].
  split; [|exact L].
  rewrite Forall_forall in *. intros x I.
  apply (proj1 (sorted_items_In _ _)) in I. auto.
Qed.

(** The tree is built as it would be with every excluded directory
    emptied. *)
Lemma build_tree_hollow (args : arguments) (w : world Srv) :
  build_tree env args None w
  = build_tree (with_root env (hollow_root env (exclude_rules args))) args None w.
Proof.
  unfold build_tree, bind.
  rewrite (walk_hollow (exclude_rules args) (Dir "" (local_root env)) "" [] w).
  reflexivity.
Qed.

End Walk.

(** ** What can be uploaded *)

Section Uploads.

Context {Srv : Type} `{Transport Srv}.
Variable env : local_env.
Variable S : string -> Prop.

Lemma uploads_app (t1 t2 : list event) : uploads (t1 ++ t2) = uploads t1 ++ uploads t2.
Proof. unfold uploads. apply flat_map_app. Qed.

Lemma uploads_within_refl (w : world Srv) : uploads_within S w w.
Proof. exists []. now rewrite app_nil_r. Qed.

Lemma uploads_within_trans (w1 w2 w3 : world Srv) :
  uploads_within S w1 w2 -> uploads_within S w2 w3 -> uploads_within S w1 w3.
Proof.
  intros (n1 & T1 & F1) (n2 & T2 & F2). exists (n1 ++ n2).
  rewrite T2, T1, app_assoc. split; [reflexivity|].
  rewrite uploads_app. now apply Forall_app.
Qed.

Lemma only_ret {A} (a : A) : uploads_only S (ret a : M Srv A).
Proof. intros w. apply uploads_within_refl. Qed.

Lemma only_raise {A} (e : exn) : uploads_only S (raise e : M Srv A).
Proof. intros w. apply uploads_within_refl. Qed.

Lemma only_lift_option {A} (e : exn) (o : option A) :
  uploads_only S (lift_option e o : M Srv A).
Proof. destruct o; [apply only_ret|apply only_raise]. Qed.

Lemma only_bind {A B} (m : M Srv A) (f : A -> M Srv B) :
  uploads_only S m -> (forall a, uploads_only S (f a)) -> uploads_only S (bind m f).
Proof.
  intros Hm Hf w. specialize (Hm w). unfold bind.
  destruct (m w) as [[a|e|] w1]; simpl in *; try exact Hm.
  eapply uploads_within_trans; [exact Hm|apply Hf].
Qed.

Lemma only_try_except {A} (c : exn -> bool) (m h : M Srv A) :
  uploads_only S m -> uploads_only S h -> uploads_only S (try_except c m h).
Proof.
  intros Hm Hh w. specialize (Hm w). unfold try_except.
  destruct (m w) as [[a|e|] w1]; simpl in *; try exact Hm.
  destruct (c e); [|exact Hm].
  eapply uploads_within_trans; [exact Hm|apply Hh].
Qed.

Lemma only_call {A} (e : event) (f : Srv -> reply A * Srv) :
  Forall S (uploads [e]) -> uploads_only S (call e f).
Proof.
  intros F w. unfold call. destruct (f (server w)) as [[a| |] s]; simpl;
    exists [e]; auto.
Qed.

Lemma only_emit (e : event) :
  Forall S (uploads [e]) -> uploads_only S (emit e : M Srv unit).
Proof. intros F w. exists [e]. auto. Qed.

Lemma only_attempt (e : event) (allowed : bool) (failure : exn) :
  Forall S (uploads [e]) -> uploads_only S (attempt e allowed failure : M Srv unit).
Proof. intros F w. unfold attempt. destruct allowed; exists [e]; auto. Qed.

Lemma only_for_each {A} (l : list A) (body : A -> M Srv unit) :
  (forall x, In x l -> uploads_only S (body x)) -> uploads_only S (for_each l body).
Proof.
  induction l as [|x l IH]; intros B; simpl; [apply only_ret|].
  apply only_bind; [apply B; now left|]. intros _. apply IH.
  intros y I. apply B. now right.
Qed.

Lemma only_repeat_m (n : nat) (body : M Srv unit) :
  uploads_only S body -> uploads_only S (repeat_m n body).
Proof.
  intros B. induction n as [|n IH]; simpl; [apply only_ret|].
  apply only_bind; [exact B|]. intros _. exact IH.
Qed.

Ltac quiet :=
  repeat first
    [ apply only_ret | apply only_raise | apply only_lift_option
    | apply only_call; constructor | apply only_emit; constructor
    | apply only_try_except
    | apply only_bind; [|intros ?] ].

Lemma only_enter_or_create (d : string) : uploads_only S (enter_or_create d).
Proof. unfold enter_or_create, ftp_cwd, ftp_mkd. quiet. Qed.

Lemma only_navigate (lastDirs dirs : list string) :
  uploads_only S (navigate lastDirs dirs).
Proof.
  unfold navigate. apply only_bind.
  - destruct (first_mismatch 0 lastDirs dirs); [|apply only_ret].
    apply only_bind; [|intros _; apply only_ret].
    apply only_repeat_m. unfold ftp_cwd. quiet.
  - intros i. apply only_bind; [|intros _; apply only_ret].
    apply only_for_each. intros d _. apply only_enter_or_create.
Qed.

Lemma only_re_search (ml : bool) (r : Re.regex) (s : string) :
  uploads_only S (re_search ml r s : M Srv (option string)).
Proof. unfold re_search. destruct (Re.compilable r); quiet. Qed.

Lemma only_query_remote (u : bool) (file : string) :
  uploads_only S (query_remote u file).
Proof.
  unfold query_remote, search_group0, str_lowercase, ftp_sendcmd.
  apply only_try_except; [|apply only_ret].
  destruct u; quiet; apply only_re_search.
Qed.

Lemma only_sync_file (u : bool) (offset : Z) (path file : string) :
  S (path_join env path file) ->
  uploads_only S (sync_file env u offset path file).
Proof.
  intros I. unfold sync_file, remote_metadata, upload, stdout_write, print,
    ftp_storbinary.
  apply only_bind; [apply only_lift_option|intros lt].
  apply only_bind; [apply only_lift_option|intros ls].
  apply only_bind.
  - apply only_bind; [apply only_query_remote|].
    intros [[t z]|]; quiet.
  - intros [rt rs]. destruct (needs_upload lt ls rt rs); [|apply only_ret].
    apply only_bind; [apply only_emit; constructor|intros _].
    apply only_bind; [apply only_attempt; constructor|intros _].
    apply only_bind; [apply only_call; simpl; auto|intros _].
    quiet.
Qed.

Lemma only_sync_files (c u : bool) (offset : Z) (path : string)
    (fnames orphaned : list string) :
  (forall f, In f fnames -> S (path_join env path f)) ->
  uploads_only S (sync_files env c u offset path fnames orphaned).
Proof.
  revert orphaned. induction fnames as [|f fnames IH]; intros orphaned I; simpl.
  - apply only_ret.
  - apply only_bind; [apply only_sync_file; apply I; now left|].
    intros _. apply IH. intros g G. apply I. now right.
Qed.

End Uploads.

Section Mirror.

Context {Srv : Type} `{Transport Srv}.
Variable env : local_env.

(** The loop over the tree uploads files of the tree and nothing else. *)
Lemma mirror_uploads_the_tree (c u : bool) (offset : Z) (tree : tree_t)
    (lastDirs orphaned : list string) :
  uploads_only (in_tree env tree)
    (mirror env c u offset tree lastDirs orphaned : M Srv (list string)).
Proof.
  assert (G : forall S, (forall src, in_tree env tree src -> S src) ->
                        uploads_only S
                          (mirror env c u offset tree lastDirs orphaned : M Srv (list string))).
  { revert lastDirs orphaned. induction tree as [|[d names] tree IH];
      intros lastDirs orphaned S I; simpl.
    - apply only_ret.
    - apply only_bind; [apply only_navigate|intros l].
      apply only_bind.
      + apply only_sync_files. intros f F. apply I.
        exists d, names, f. simpl. auto.
      + intros o. apply IH. intros src (d' & n' & f & A & B & C). apply I.
        exists d', n', f. simpl. auto. }
  apply G. auto.
Qed.

End Mirror.


(** ** The marker is always excluded (C10) *)

Section Timestamp.

Context {Srv : Type} `{Transport Srv}.
Variable env : local_env.

Lemma filter_explicit_ok (excl : list Re.regex) (fs fs' : list string)
    (w w' : world Srv) :
  filter_explicit env excl fs w = (Ok fs', w') ->
  fs' = filter (fun f => negb (existsb (fun e => hit env (boundary_rule e) f) excl)) fs.
Proof.
  revert fs w. induction excl as [|e excl IH]; intros fs w; simpl.
  - intros [= <- <-]. symmetry. apply forallb_filter_id. now apply forallb_forall.
  - intros E. apply bind_inv in E. destruct E as (fs1 & w1 & E1 & E).
    apply exclude_matching_ok in E1. destruct E1 as (-> & _).
    apply IH in E. subst fs'. rewrite filter_filter.
    apply filter_ext. intros f. now rewrite negb_orb.
Qed.

Lemma fully_matches_whole (r : Re.regex) (q : string) :
  fully_matches r q -> matches_whole r q.
Proof. intros (b' & M). exists b', ""%string. auto. Qed.

Lemma matches_whole_to_boundary (r : Re.regex) (q : string) :
  matches_whole r q -> matches_to_boundary r q.
Proof.
  intros (b' & s' & M & E). exists b', s'. split; [exact M|].
  left. now apply at_eol_end.
Qed.

Lemma hit_of_matched (rule : Re.regex) (p : string) :
  matched_by rule p = true -> hit env rule p = true.
Proof. intros Q. unfold hit. now rewrite Q. Qed.

(** C10.  Whatever the command line, ['.timestamp'] is among the exclude
    patterns and its rule among the exclude rules.  So the tree built by
    walking holds no file whose path the pattern matches from end to end,
    and of the files named on the command line none is kept that the
    pattern matches up to a ['/'] or up to its end. *)
Theorem timestamp_is_always_excluded (args : arguments) :
  In timestamp_pattern (excludes_with_timestamp args) /\
  In (whole_path_rule timestamp_pattern) (exclude_rules args) /\
  (forall (w w' : world Srv) tree,
     build_tree env args None w = (Ok tree, w') ->
     forall d names f,
       In (d, names) tree -> In f names ->
       ~ fully_matches timestamp_pattern (path_join env d f)) /\
  (forall (w w' : world Srv) fs,
     explicit_files env args w = (Ok (Some fs), w') ->
     forall f,
       In f fs ->
       In f (files args) /\ ~ matches_to_boundary timestamp_pattern f).
Proof.
  assert (A : In timestamp_pattern (excludes_with_timestamp args)).
  { unfold excludes_with_timestamp. apply in_or_app. right. now left. }
  assert (B : In (whole_path_rule timestamp_pattern) (exclude_rules args)).
  { unfold exclude_rules. now apply in_map. }
  split; [exact A|]. split; [exact B|]. split.
  - intros w w' tree E d names f I J F.
    destruct (walked_tree_is_good env args w w' tree E) as [G _].
    rewrite Forall_forall in G. destruct (G _ I) as [_ X].
    specialize (X f J). simpl in X.
    assert (Y : excluded env (exclude_rules args) (path_join env d f) = true).
    { apply existsb_exists. exists (whole_path_rule timestamp_pattern).
      split; [exact B|]. apply hit_of_matched, whole_path_rule_iff.
      now apply fully_matches_whole. }
    congruence.
  - intros w w' fs E f I. unfold explicit_files in E.
    destruct (files args) as [|f0 fs0]; [discriminate|].
    apply bind_inv in E. destruct E as (fs' & w1 & E & Q).
    injection Q as <- <-. apply filter_explicit_ok in E. subst fs'.
    apply filter_In in I. destruct I as [I N]. split; [exact I|].
    intros F. apply negb_true_iff in N.
    assert (Y : existsb (fun e => hit env (boundary_rule e) f)
                  (excludes_with_timestamp args) = true).
    { apply existsb_exists. exists timestamp_pattern. split; [exact A|].
      now apply hit_of_matched, boundary_rule_iff. }
    congruence.
Qed.

End Timestamp.

Lemma timestamp_is_always_excluded_witness :
  build_tree Examples4.with_skip Examples4.skip_args None Examples.nothing
  = (Ok [("a", ["x.txt"])],
     snd (build_tree Examples4.with_skip Examples4.skip_args None Examples.nothing)) /\
  ~ fully_matches timestamp_pattern (path_join Examples4.with_skip "a" "x.txt") /\
  explicit_files Examples4.with_skip Examples4.named_args Examples.nothing
  = (Ok (Some ["a/x.txt"]),
     snd (explicit_files Examples4.with_skip Examples4.named_args Examples.nothing)) /\
  In "a/x.txt" (files Examples4.named_args) /\
  ~ matches_to_boundary timestamp_pattern "a/x.txt".
Proof.
  split; [reflexivity|]. split.
  - apply (proj1 (proj2 (proj2
             (timestamp_is_always_excluded Examples4.with_skip Examples4.skip_args)))
             Examples.nothing _ [("a", ["x.txt"])] eq_refl "a" ["x.txt"] "x.txt");
      simpl; auto.
  - split; [reflexivity|].
    apply (proj2 (proj2 (proj2
             (timestamp_is_always_excluded Examples4.with_skip Examples4.named_args)))
             Examples.nothing _ ["a/x.txt"] eq_refl "a/x.txt").
    simpl. auto.
Defined.

(** ** The order in which the directories are processed *)

Section Order.

Context {Srv : Type} `{Transport Srv}.
Variable env : local_env.

Lemma setitem_keys (key : string) (names : list string) (tree : tree_t) :
  map fst (setitem key names tree)
  = if mem key (map fst tree) then map fst tree else map fst tree ++ [key].
Proof.
  induction tree as [|[k old] tree IH]; simpl; [reflexivity|].
  rewrite (String.eqb_sym key k). destruct (k =? key)%string; simpl; [reflexivity|].
  rewrite IH. now destruct (mem key (map fst tree)).
Qed.

Lemma setdefault_append_keys (key name : string) (tree : tree_t) :
  map fst (setdefault_append key name tree)
  = if mem key (map fst tree) then map fst tree else map fst tree ++ [key].
Proof.
  induction tree as [|[k old] tree IH]; simpl; [reflexivity|].
  rewrite (String.eqb_sym key k). destruct (k =? key)%string; simpl; [reflexivity|].
  rewrite IH. now destruct (mem key (map fst tree)).
Qed.

Lemma NoDup_add_key (key : string) (l : list string) :
  NoDup l -> NoDup (if mem key l then l else l ++ [key]).
Proof.
  intros N. destruct (mem key l) eqn:Q; [exact N|].
  apply NoDup_app; [exact N|constructor; [intros []|constructor]|].
  intros x I [<-|[]]. apply mem_In in I. congruence.
Qed.

Lemma setitem_NoDup (key : string) (names : list string) (tree : tree_t) :
  NoDup (map fst tree) -> NoDup (map fst (setitem key names tree)).
Proof. rewrite setitem_keys. apply NoDup_add_key. Qed.

Lemma tree_of_files_NoDup (fs : list string) :
  NoDup (map fst (tree_of_files env fs)).
Proof.
  unfold tree_of_files.
  assert (G : forall tree, NoDup (map fst tree) ->
                NoDup (map fst (fold_left
                  (fun tree file =>
                     setdefault_append (dirname env file) (basename env file) tree)
                  fs tree))).
  { induction fs as [|f fs IH]; intros tree N; simpl; [exact N|].
    apply IH. rewrite setdefault_append_keys. now apply NoDup_add_key. }
  apply G. constructor.
Qed.

Lemma walk_children_NoDup (rules : list Re.regex) (root : string)
    (dirs : list string) (cs : list node) :
  Forall
    (fun c =>
       forall root tree (w : world Srv) tree' w',
         NoDup (map fst tree) ->
         walk env rules root c tree w = (Ok tree', w') ->
         NoDup (map fst tree'))
    cs ->
  forall tree (w : world Srv) tree' w',
    NoDup (map fst tree) ->
    walk_children env rules root dirs cs tree w = (Ok tree', w') ->
    NoDup (map fst tree').
Proof.
  intros F. induction F as [|c cs Pc F IH]; intros tree w tree' w' N E.
  - now injection E as <- <-.
  - destruct c as [f|name sub]; cbn [walk_children] in E.
    + now apply IH with (tree := tree) (w := w) (w' := w').
    + destruct (mem name dirs); [|now apply IH with (tree := tree) (w := w) (w' := w')].
      apply bind_inv in E. destruct E as (t1 & w1 & E1 & E).
      apply Pc in E1; [|exact N]. now apply IH in E.
Qed.

Lemma walk_NoDup (rules : list Re.regex) (here : node) :
  forall root tree (w : world Srv) tree' w',
    NoDup (map fst tree) ->
    walk env rules root here tree w = (Ok tree', w') ->
    NoDup (map fst tree').
Proof.
  induction here as [f|n cs IH] using node_induction;
    intros root tree w tree' w' N E.
  - now injection E as <- <-.
  - rewrite walk_unfold in E.
    apply bind_inv in E. destruct E as ([] & w1 & _ & E).
    apply bind_inv in E. destruct E as (pruned & w2 & _ & E).
    eapply walk_children_NoDup in E; [exact E|exact IH|].
    destruct (snd pruned); [exact N|]. now apply setitem_NoDup.
Qed.

Lemma insert_sorted_keys (item : string * list string) (l : tree_t) :
  Permutation.Permutation (map fst (insert_sorted item l)) (fst item :: map fst l).
Proof.
  induction l as [|x l IH]; simpl; [reflexivity|].
  destruct (String.leb (fst item) (fst x)); simpl; [reflexivity|].
  rewrite IH. apply Permutation.perm_swap.
Qed.

Lemma sorted_items_keys (tree : tree_t) :
  Permutation.Permutation (map fst (sorted_items tree)) (map fst tree).
Proof.
  unfold sorted_items. induction tree as [|x tree IH]; simpl; [reflexivity|].
  rewrite insert_sorted_keys. now constructor.
Qed.

Lemma insert_sorted_Sorted (item : string * list string) (l : tree_t) :
  Sorted.Sorted leb_rel (map fst l) ->
  Sorted.Sorted leb_rel (map fst (insert_sorted item l)).
Proof.
  induction l as [|x l IH]; intros S; simpl.
  - repeat constructor.
  - destruct (String.leb (fst item) (fst x)) eqn:Q; simpl.
    + constructor; [exact S|]. now constructor.
    + inversion S as [|? ? S' Hd]; subst. constructor; [now apply IH|].
      destruct l as [|y l]; simpl.
      * constructor. destruct (String.leb_total (fst item) (fst x)); congruence.
      * destruct (String.leb (fst item) (fst y)); simpl.
        -- constructor. destruct (String.leb_total (fst item) (fst x)); congruence.
        -- inversion Hd; subst. now constructor.
Qed.

Lemma sorted_items_Sorted (tree : tree_t) :
  Sorted.Sorted leb_rel (map fst (sorted_items tree)).
Proof.
  unfold sorted_items. induction tree as [|x tree IH]; simpl; [constructor|].
  now apply insert_sorted_Sorted.
Qed.

Lemma leb_neq_ltb (a b : string) :
  String.leb a b = true -> a <> b -> String.ltb a b = true.
Proof.
  unfold String.leb, String.ltb. intros L N.
  destruct (String.compare a b) eqn:C; try discriminate; [|reflexivity].
  apply String.compare_eq_iff in C. contradiction.
Qed.

Lemma Sorted_strict (l : list string) :
  NoDup l -> Sorted.Sorted leb_rel l -> Sorted.Sorted ltb_rel l.
Proof.
  induction l as [|a l IH]; intros N S; [constructor|].
  inversion N as [|? ? Na Nl]; subst. inversion S as [|? ? S' Hd]; subst.
  constructor; [now apply IH|].
  destruct Hd as [|b l L]; constructor.
  apply leb_neq_ltb; [exact L|]. intros ->. apply Na. now left.
Qed.

(** The directories of the tree come out in strictly ascending order:
    each one is processed after a smaller one. *)
Lemma built_tree_is_ascending (args : arguments) (explicit : option (list string))
    (w w' : world Srv) (tree : tree_t) :
  build_tree env args explicit w = (Ok tree, w') ->
  Sorted.Sorted ltb_rel (map fst tree).
Proof.
  unfold build_tree. intros E.
  apply bind_inv in E. destruct E as (t & w1 & E1 & E). injection E as <- <-.
  apply Sorted_strict; [|apply sorted_items_Sorted].
  assert (N : NoDup (map fst t)).
  { destruct explicit as [fs|].
    - injection E1 as <- <-. apply tree_of_files_NoDup.
    - eapply walk_NoDup; [|exact E1]. constructor. }
  eapply Permutation.Permutation_NoDup; [|exact N].
  symmetry. apply sorted_items_keys.
Qed.

(** Two entries that follow each other in the tree. *)
Lemma consecutive_entries_ascend (args : arguments) (explicit : option (list string))
    (w w' : world Srv) (pre post : tree_t) (D1 D2 : string) (f1 f2 : list string) :
  build_tree env args explicit w = (Ok (pre ++ (D1, f1) :: (D2, f2) :: post), w') ->
  (D1 <? D2)%string = true.
Proof.
  intros E. apply built_tree_is_ascending in E.
  rewrite map_app in E. simpl in E.
  induction pre as [|x pre IH]; simpl in E.
  - inversion E as [|? ? _ Hd]; subst. now inversion Hd.
  - inversion E; subst. now apply IH.
Qed.

End Order.

(** ** The keep rules and the index (C3) *)

Section Index.

Context {Srv : Type} `{Transport Srv}.
Variable env : local_env.

Lemma commands_app (t1 t2 : list event) :
  commands (t1 ++ t2) = commands t1 ++ commands t2.
Proof. unfold commands. apply filter_app. Qed.

Lemma same_bind {A B} (m1 m2 : M Srv A) (f1 f2 : A -> M Srv B) (w1 w2 : world Srv) :
  same_outcome (m1 w1) (m2 w2) ->
  (forall a v1 v2, alike v1 v2 -> same_outcome (f1 a v1) (f2 a v2)) ->
  same_outcome (bind m1 f1 w1) (bind m2 f2 w2).
Proof.
  unfold bind, same_outcome. intros [R A0] F.
  destruct (m1 w1) as [[a1|e1|] v1], (m2 w2) as [[a2|e2|] v2]; simpl in *;
    try discriminate R; try (split; [congruence|exact A0]).
  injection R as <-. now apply F.
Qed.

Lemma same_try {A} (c : exn -> bool) (m1 m2 h1 h2 : M Srv A) (w1 w2 : world Srv) :
  same_outcome (m1 w1) (m2 w2) ->
  (forall v1 v2, alike v1 v2 -> same_outcome (h1 v1) (h2 v2)) ->
  same_outcome (try_except c m1 h1 w1) (try_except c m2 h2 w2).
Proof.
  unfold try_except, same_outcome. intros [R A0] F.
  destruct (m1 w1) as [[a1|e1|] v1], (m2 w2) as [[a2|e2|] v2]; simpl in *;
    try discriminate R; try (split; [congruence|exact A0]).
  injection R as <-. destruct (c e1); [now apply F|now split].
Qed.

Lemma same_call {A} (e : event) (f : Srv -> reply A * Srv) (w1 w2 : world Srv) :
  alike w1 w2 -> same_outcome (call e f w1) (call e f w2).
Proof.
  intros [S T]. unfold call. rewrite S.
  destruct (f (server w2)) as [[a| |] s]; simpl;
    (split; [reflexivity|split; [reflexivity|]]); simpl;
    now rewrite !commands_app, T.
Qed.

Lemma same_ret {A} (a : A) (w1 w2 : world Srv) :
  alike w1 w2 -> same_outcome (ret a w1) (ret a w2).
Proof. intros A0. now split. Qed.

Lemma alike_printed (text : string) (s : Srv) (t : list event) (w2 : world Srv) :
  alike {| server := s; trace := t |} w2 ->
  alike {| server := s; trace := t ++ [Stdout text] |} w2.
Proof.
  intros [S T]. split; [exact S|]. simpl in *.
  rewrite commands_app, T. simpl. apply app_nil_r.
Qed.

Lemma alike_eta (w1 w2 : world Srv) :
  alike w1 w2 -> alike {| server := server w1; trace := trace w1 |} w2.
Proof. now destruct w1. Qed.

Lemma alike_sym (w1 w2 : world Srv) : alike w1 w2 -> alike w2 w1.
Proof. intros [S T]. now split. Qed.

Lemma alike_trans (w1 w2 w3 : world Srv) : alike w1 w2 -> alike w2 w3 -> alike w1 w3.
Proof. intros [S T] [S' T']. split; congruence. Qed.

(** Going through the keep rules prints at most. *)
Lemma announce_kept_prints (rules : list Re.regex) (filePath : string)
    (w1 w2 : world Srv) :
  Forall (fun r => Re.compilable r = true) rules ->
  alike w1 w2 ->
  same_outcome (announce_kept env rules filePath w1) (Ok tt, w2).
Proof.
  unfold announce_kept. intros F. revert w1.
  induction F as [|r rules C F IH]; intros w1 A0; simpl.
  - now split.
  - unfold bind at 1. unfold bind at 1. rewrite rule_hits_run, C.
    destruct (hit env r filePath).
    + unfold print, emit, bind at 1. simpl.
      apply IH. now apply alike_printed, alike_printed, alike_eta.
    + simpl. now apply IH.
Qed.

(** The index does not depend on the keep rules: with any rules that
    compile, [rlst] returns what it returns with none, and leaves the
    server as it leaves it with none. *)
Lemma rlst_ignores_keep_rules (rules : list Re.regex) (fuel : nat) :
  Forall (fun r => Re.compilable r = true) rules ->
  forall path (w1 w2 : world Srv),
    alike w1 w2 ->
    same_outcome (rlst env rules fuel path w1) (rlst env [] fuel path w2).
Proof.
  intros F. induction fuel as [|fuel IH]; intros path w1 w2 A0; cbn [rlst].
  - now split.
  - apply same_bind.
    { unfold stdout_write, emit. split; [reflexivity|]. simpl.
      apply alike_printed, alike_eta, alike_sym, alike_printed, alike_eta, alike_sym.
      exact A0. }
    intros [] v1 v2 A1. apply same_bind; [now apply same_call|].
    intros names u1 u2 A2.
    match goal with |- same_outcome (?f names [] u1) (?g names [] u2) =>
      assert (G : forall names results (x1 x2 : world Srv),
                alike x1 x2 ->
                same_outcome (f names results x1) (g names results x2))
    end; [|now apply G].
    clear names u1 u2 A2.
    induction names as [|file names IHn]; intros results u1 u2 A2.
    + now apply same_ret.
    + apply same_bind.
      * destruct (announce_kept_prints rules (child_path path file) u1 u2 F A2)
          as [R A3].
        split; [exact R|exact A3].
      * intros [] x1 x2 A3. apply same_bind; [|intros results'; apply IHn].
        apply same_try; [|intros; now apply same_ret].
        apply same_bind; [now apply same_call|]. intros [] y1 y2 A4.
        apply same_bind; [now apply IH|]. intros below z1 z2 A5.
        apply same_try; [|intros; now apply same_ret].
        apply same_bind; [now apply same_call|]. intros [] q1 q2 A6.
        now apply same_ret.
Qed.

End Index.

(** C3, on the code.  Keep rules have no effect on the index: with any
    rules that compile, [rlst] returns what it returns with no rule at
    all.  So with [--clean --keep keepdir], a server whose document root
    holds only the directory [keepdir] with a file [f], and nothing to
    mirror locally: the notice "keeping keepdir" is printed, and yet
    [keepdir/f] is among the orphan candidates that [rlst] returns and is
    deleted at the end of the run. *)
Theorem kept_directory_is_indexed_and_deleted :
  (forall (Srv : Type) (T : Transport Srv) env rules fuel path (w : world Srv),
     Forall (fun r => Re.compilable r = true) rules ->
     fst (rlst env rules fuel path w) = fst (rlst env [] fuel path w) /\
     server (snd (rlst env rules fuel path w))
     = server (snd (rlst env [] fuel path w))) /\
  let indexed := rlst Examples3.empty_tree (keep_rules Examples3.keep_args) 5 ""
                   Examples3.kept_docroot in
  let run := main Examples3.empty_tree 5 Examples3.keep_args Examples3.kept_remote in
  fst indexed = Ok ["keepdir/f"] /\
  In (Stdout ("keeping keepdir" ++ Examples3.newline_text)) (trace (snd indexed)) /\
  fst run = Ok tt /\
  In (Delete "keepdir/f") (trace (snd run)) /\
  Mock.find_entry ["www"; "keepdir"; "f"] (server (snd run)) = None.
Proof.
  split.
  - intros Srv T env rules fuel path w F.
    destruct (rlst_ignores_keep_rules env rules fuel F path w w) as (R & S & _).
    + now split.
    + now split.
  - vm_compute. intuition.
Qed.

(* ================================================================== *)
(** * Further properties of the run *)

(** ** What each part of the run can do *)

Section Alphabets.

Context {Srv : Type} `{Transport Srv}.
Variable env : local_env.

Lemma emits_ret (allowed : event -> bool) {A} (a : A) :
  emits_only allowed (ret a : M Srv A).
Proof. intros w. exists []. now rewrite app_nil_r. Qed.

Lemma emits_raise (allowed : event -> bool) {A} (e : exn) :
  emits_only allowed (raise e : M Srv A).
Proof. intros w. exists []. now rewrite app_nil_r. Qed.

Lemma emits_diverge (allowed : event -> bool) {A} :
  emits_only allowed (diverge : M Srv A).
Proof. intros w. exists []. now rewrite app_nil_r. Qed.

Lemma emits_lift_option (allowed : event -> bool) {A} (e : exn) (o : option A) :
  emits_only allowed (lift_option e o : M Srv A).
Proof. destruct o; [apply emits_ret|apply emits_raise]. Qed.

Lemma emits_step (allowed : event -> bool) (w1 w2 w3 : world Srv) :
  (exists new, trace w2 = trace w1 ++ new /\ forallb allowed new = true) ->
  (exists new, trace w3 = trace w2 ++ new /\ forallb allowed new = true) ->
  exists new, trace w3 = trace w1 ++ new /\ forallb allowed new = true.
Proof.
  intros (n1 & T1 & F1) (n2 & T2 & F2). exists (n1 ++ n2).
  rewrite T2, T1, app_assoc, forallb_app, F1, F2. auto.
Qed.

Lemma emits_bind (allowed : event -> bool) {A B} (m : M Srv A) (f : A -> M Srv B) :
  emits_only allowed m -> (forall a, emits_only allowed (f a)) ->
  emits_only allowed (bind m f).
Proof.
  intros Hm Hf w. specialize (Hm w). unfold bind.
  destruct (m w) as [[a|e|] w1]; simpl in *; try exact Hm.
  eapply emits_step; [exact Hm|apply Hf].
Qed.

Lemma emits_try_except (allowed : event -> bool) {A} (c : exn -> bool)
    (m h : M Srv A) :
  emits_only allowed m -> emits_only allowed h ->
  emits_only allowed (try_except c m h).
Proof.
  intros Hm Hh w. specialize (Hm w). unfold try_except.
  destruct (m w) as [[a|e|] w1]; simpl in *; try exact Hm.
  destruct (c e); [|exact Hm].
  eapply emits_step; [exact Hm|apply Hh].
Qed.

Lemma emits_try_finally (allowed : event -> bool) {A} (m : M Srv A) (f : M Srv unit) :
  emits_only allowed m -> emits_only allowed f ->
  emits_only allowed (try_finally m f).
Proof.
  intros Hm Hf w. specialize (Hm w). unfold try_finally.
  destruct (m w) as [[a|e|] w1]; simpl in *; try exact Hm;
    specialize (Hf w1); destruct (f w1) as [[[]|e'|] w2]; simpl in *;
    eapply emits_step; eassumption.
Qed.

Lemma emits_call (allowed : event -> bool) {A} (e : event) (f : Srv -> reply A * Srv) :
  allowed e = true -> emits_only allowed (call e f).
Proof.
  intros F w. unfold call. destruct (f (server w)) as [[a| |] s]; simpl;
    exists [e]; simpl; now rewrite F.
Qed.

Lemma emits_emit (allowed : event -> bool) (e : event) :
  allowed e = true -> emits_only allowed (emit e : M Srv unit).
Proof. intros F w. exists [e]. simpl. now rewrite F. Qed.

Lemma emits_attempt (allowed : event -> bool) (e : event) (ok : bool) (failure : exn) :
  allowed e = true -> emits_only allowed (attempt e ok failure : M Srv unit).
Proof.
  intros F w. unfold attempt. destruct ok; exists [e]; simpl; now rewrite F.
Qed.

Lemma emits_for_each (allowed : event -> bool) {A} (l : list A)
    (body : A -> M Srv unit) :
  (forall x, emits_only allowed (body x)) -> emits_only allowed (for_each l body).
Proof.
  intros B. induction l as [|x l IH]; simpl; [apply emits_ret|].
  apply emits_bind; [apply B|]. intros _. exact IH.
Qed.

Lemma emits_repeat_m (allowed : event -> bool) (n : nat) (body : M Srv unit) :
  emits_only allowed body -> emits_only allowed (repeat_m n body).
Proof.
  intros B. induction n as [|n IH]; simpl; [apply emits_ret|].
  apply emits_bind; [exact B|]. intros _. exact IH.
Qed.

Lemma emits_weaken (tight allowed : event -> bool) {A} (m : M Srv A) :
  (forall e, tight e = true -> allowed e = true) ->
  emits_only tight m -> emits_only allowed m.
Proof.
  intros I Hm w. destruct (Hm w) as (new & T & F). exists new.
  split; [exact T|]. rewrite forallb_forall in *. auto.
Qed.

Ltac emits :=
  repeat match goal with
    | |- emits_only _ (bind _ _) => apply emits_bind; [|intros ?]
    | |- emits_only _ (ret _) => apply emits_ret
    | |- emits_only _ (raise _) => apply emits_raise
    | |- emits_only _ diverge => apply emits_diverge
    | |- emits_only _ (lift_option _ _) => apply emits_lift_option
    | |- emits_only _ (try_except _ _ _) => apply emits_try_except
    | |- emits_only _ (try_finally _ _) => apply emits_try_finally
    | |- emits_only _ (call _ _) => apply emits_call; reflexivity
    | |- emits_only _ (emit _) => apply emits_emit; reflexivity
    | |- emits_only _ (attempt _ _ _) => apply emits_attempt; reflexivity
    | |- emits_only _ (for_each _ _) => apply emits_for_each; intros ?
    | |- emits_only _ (repeat_m _ _) => apply emits_repeat_m
    end.

Lemma emits_rule_hits (allowed : event -> bool) (rule : Re.regex) (p : string) :
  emits_only allowed (rule_hits env rule p : M Srv bool).
Proof.
  intros w. rewrite rule_hits_run. exists [].
  destruct (Re.compilable rule); now rewrite app_nil_r.
Qed.

Lemma emits_exclude_matching (allowed : event -> bool) (rule : Re.regex)
    (path_of : string -> string) (names : list string) :
  (forall text, allowed (Stdout text) = true) ->
  emits_only allowed (exclude_matching env rule path_of names : M Srv (list string)).
Proof.
  intros P. induction names as [|x names IH]; simpl; [apply emits_ret|].
  apply emits_bind; [exact IH|intros rest'].
  apply emits_bind; [apply emits_rule_hits|intros hit].
  destruct hit; [|apply emits_ret].
  apply emits_bind; [apply emits_emit, P|intros _; apply emits_ret].
Qed.

Lemma emits_explicit_files (args : arguments) :
  emits_only is_print (explicit_files env args : M Srv (option (list string))).
Proof.
  unfold explicit_files. destruct (files args) as [|f fs]; [apply emits_ret|].
  apply emits_bind; [|intros ?; apply emits_ret].
  generalize (f :: fs). generalize (excludes_with_timestamp args).
  induction l as [|e l IH]; intros names; simpl; [apply emits_ret|].
  apply emits_bind; [now apply emits_exclude_matching|intros ?; apply IH].
Qed.

Lemma emits_apply_excludes (rules : list Re.regex) (root : string)
    (dirs fnames : list string) :
  emits_only is_print
    (apply_excludes env rules root dirs fnames : M Srv (list string * list string)).
Proof.
  revert dirs fnames. induction rules as [|r rules IH]; intros dirs fnames; simpl.
  - apply emits_ret.
  - apply emits_bind; [now apply emits_exclude_matching|intros ?].
    apply emits_bind; [now apply emits_exclude_matching|intros ?]. apply IH.
Qed.

Lemma emits_walk (rules : list Re.regex) (here : node) :
  forall root tree,
    emits_only is_local_walk (walk env rules root here tree : M Srv tree_t).
Proof.
  induction here as [f|n cs IH] using node_induction; intros root tree.
  - apply emits_ret.
  - intros w. rewrite walk_unfold. revert w.
    apply emits_bind; [now apply emits_emit|intros _].
    apply emits_bind.
    { eapply emits_weaken; [|apply emits_apply_excludes]. now intros []. }
    intros pruned.
    generalize (match snd pruned with
                | [] => tree
                | _ :: _ => setitem root (snd pruned) tree
                end).
    induction IH as [|c cs Pc F IHcs]; intros t; cbn [walk_children].
    + apply emits_ret.
    + destruct c as [f|name sub]; [apply IHcs|].
      destruct (mem name (fst pruned)); [|apply IHcs].
      apply emits_bind; [apply Pc|intros ?; apply IHcs].
Qed.

Lemma emits_build_tree (args : arguments) (explicit : option (list string)) :
  emits_only is_local_walk (build_tree env args explicit : M Srv tree_t).
Proof.
  unfold build_tree. apply emits_bind; [|intros ?; apply emits_ret].
  destruct explicit; [apply emits_ret|apply emits_walk].
Qed.

Lemma emits_enter_or_create (d : string) :
  emits_only is_navigation (enter_or_create d : M Srv unit).
Proof. unfold enter_or_create, ftp_cwd, ftp_mkd. emits. Qed.

Lemma emits_goto_docroot (args : arguments) :
  emits_only is_navigation (goto_docroot args : M Srv unit).
Proof. unfold goto_docroot. apply emits_for_each. apply emits_enter_or_create. Qed.

Lemma emits_navigate (lastDirs dirs : list string) :
  emits_only is_navigation (navigate lastDirs dirs : M Srv (list string)).
Proof.
  unfold navigate, ftp_cwd. apply emits_bind.
  - destruct (first_mismatch 0 lastDirs dirs); emits.
  - intros i. apply emits_bind; [|intros ?; apply emits_ret].
    apply emits_for_each. apply emits_enter_or_create.
Qed.

Lemma emits_calibrate : emits_only is_calibration (calibrate env : M Srv Z).
Proof. unfold calibrate, ftp_storbinary, ftp_sendcmd. emits. Qed.

Lemma emits_check_features : emits_only is_mirroring (check_features : M Srv bool).
Proof.
  unfold check_features, ftp_sendcmd. apply emits_bind; [emits|].
  intros features w. rewrite negotiate_mlst_run. exists []. now rewrite app_nil_r.
Qed.

Lemma emits_announce_kept (rules : list Re.regex) (filePath : string) :
  emits_only is_index (announce_kept env rules filePath : M Srv unit).
Proof.
  unfold announce_kept, print. apply emits_for_each. intros keep.
  apply emits_bind; [apply emits_rule_hits|intros [|]]; emits.
Qed.

Lemma emits_rlst (rules : list Re.regex) (fuel : nat) :
  forall path, emits_only is_index (rlst env rules fuel path : M Srv (list string)).
Proof.
  induction fuel as [|fuel IH]; intros path; cbn [rlst]; [apply emits_diverge|].
  unfold stdout_write, ftp_nlst.
  apply emits_bind; [emits|intros _]. apply emits_bind; [emits|intros names].
  match goal with |- emits_only _ (?f names []) =>
    assert (G : forall names results, emits_only is_index (f names results))
  end; [|apply G].
  clear names. induction names as [|file names IHn]; intros results.
  - apply emits_ret.
  - apply emits_bind; [apply emits_announce_kept|intros _].
    apply emits_bind; [|intros ?; apply IHn].
    unfold ftp_cwd. apply emits_try_except; [|apply emits_ret].
    apply emits_bind; [emits|intros _].
    apply emits_bind; [apply IH|intros below]. emits.
Qed.

Lemma emits_re_search (allowed : event -> bool) (ml : bool) (r : Re.regex) (s : string) :
  emits_only allowed (re_search ml r s : M Srv (option string)).
Proof. unfold re_search. destruct (Re.compilable r); emits. Qed.

Lemma emits_query_remote (u : bool) (file : string) :
  emits_only is_mirroring (query_remote u file : M Srv (option (string * string))).
Proof.
  unfold query_remote, search_group0, str_lowercase, ftp_sendcmd.
  apply emits_try_except; [|apply emits_ret].
  destruct u; emits; apply emits_re_search.
Qed.

Lemma emits_sync_file (u : bool) (offset : Z) (path file : string) :
  emits_only is_mirroring (sync_file env u offset path file : M Srv unit).
Proof.
  unfold sync_file, remote_metadata, upload, stdout_write, print, ftp_storbinary.
  apply emits_bind; [emits|intros lt]. apply emits_bind; [emits|intros ls].
  apply emits_bind.
  - apply emits_bind; [apply emits_query_remote|]. intros [[t z]|]; emits.
  - intros [rt rs]. destruct (needs_upload lt ls rt rs); emits.
Qed.

Lemma emits_mirror (c u : bool) (offset : Z) (tree : tree_t) :
  forall lastDirs orphaned,
    emits_only is_mirroring
      (mirror env c u offset tree lastDirs orphaned : M Srv (list string)).
Proof.
  induction tree as [|[d names] tree IH]; intros lastDirs orphaned; simpl.
  - apply emits_ret.
  - apply emits_bind.
    { eapply emits_weaken; [|apply emits_navigate]. now intros []. }
    intros l. apply emits_bind; [|intros ?; apply IH].
    generalize orphaned. induction names as [|f names IHn]; intros o; simpl.
    + apply emits_ret.
    + apply emits_bind; [apply emits_sync_file|intros _; apply IHn].
Qed.

Lemma emits_delete_orphans (args : arguments) (orphaned : list string) :
  emits_only is_cleanup (delete_orphans args orphaned : M Srv unit).
Proof. unfold delete_orphans, ftp_cwd, ftp_delete, stdout_write, print. emits. Qed.

(** The run is a chain of steps that stay within [is_body], closed by
    [ftp.quit()]: whatever holds of [ftp.quit()] and is carried over such
    steps holds of the run. *)
Lemma main_spine (P : M Srv unit -> Prop) (fuel : nat) (args : arguments) :
  (forall A (m : M Srv A) (f : A -> M Srv unit),
     emits_only (is_body (clean args)) m -> (forall a, P (f a)) -> P (bind m f)) ->
  P ftp_quit ->
  P (main env fuel args).
Proof.
  intros B Q. unfold main.
  assert (W : forall tight {A} (m : M Srv A),
            (forall e, tight e = true -> is_body (clean args) e = true) ->
            emits_only tight m -> emits_only (is_body (clean args)) m).
  { intros tight A m J. now apply emits_weaken. }
  apply B; [apply (W is_print); [now intros []|apply emits_explicit_files]|].
  intros explicit. unfold ftp_login.
  apply B; [now apply emits_call|intros _].
  apply B; [apply (W is_navigation); [now intros []|apply emits_goto_docroot]|].
  intros _.
  apply B;
    [apply (W is_calibration);
       [intros []; unfold is_body; simpl; try discriminate; auto;
        intros E; now rewrite E
       |apply emits_calibrate]|].
  intros time_offset.
  apply B; [apply (W is_mirroring); [now intros []|apply emits_check_features]|].
  intros u. apply B.
  { destruct (clean args) eqn:C; [|apply emits_ret].
    unfold stdout_write, print.
    apply emits_bind; [now apply emits_emit|intros _].
    apply emits_bind; [|intros found].
    - eapply emits_weaken; [|apply emits_rlst]. now intros [].
    - apply emits_bind; [now apply emits_emit|intros _; apply emits_ret]. }
  intros orphaned.
  apply B; [apply (W is_local_walk); [now intros []|apply emits_build_tree]|].
  intros tree.
  apply B; [apply (W is_mirroring); [now intros []|apply emits_mirror]|].
  intros remaining. apply B; [|intros _; exact Q].
  destruct (clean args) eqn:C; [|apply emits_ret].
  eapply emits_weaken; [|apply emits_delete_orphans]. now intros [].
Qed.

Lemma emits_main (allowed : event -> bool) (fuel : nat) (args : arguments) :
  (forall e, is_run (clean args) e = true -> allowed e = true) ->
  emits_only allowed (main env fuel args : M Srv unit).
Proof.
  intros I. apply main_spine.
  - intros A m f Hm Hf. apply emits_bind; [|exact Hf].
    eapply emits_weaken; [|exact Hm]. intros e E. apply I.
    unfold is_body in E. now apply andb_true_iff in E.
  - unfold ftp_quit. apply emits_call, I. reflexivity.
Qed.

Lemma quit_bind {A} (m : M Srv A) (f : A -> M Srv unit) :
  emits_only not_quit m -> (forall a, quit_only_last (f a)) ->
  quit_only_last (bind m f).
Proof.
  intros Hm Hf w. destruct (Hm w) as (n1 & T1 & F1). unfold bind.
  destruct (m w) as [[a|e|] w1]; simpl in *.
  - destruct (Hf a w1) as (before & F & [T | [T K]]).
    + exists (n1 ++ before). rewrite forallb_app, F1, F. split; [reflexivity|].
      left. now rewrite T, T1, <- !app_assoc.
    + exists (n1 ++ before). rewrite forallb_app, F1, F. split; [reflexivity|].
      right. split; [now rewrite T, T1, <- !app_assoc|exact K].
  - exists n1. auto.
  - exists n1. auto.
Qed.

End Alphabets.

(** ** The run as a whole *)

Section WholeRun.

Context {Srv : Type} `{Transport Srv}.
Variable env : local_env.

(** X2.  Without [--clean] the run never lists the server and never
    deletes anything on it, however it ends. *)
Theorem run_without_clean_never_lists_or_deletes (fuel : nat) (args : arguments) :
  clean args = false ->
  emits_only no_index_no_delete (main env fuel args : M Srv unit).
Proof.
  intros C. apply emits_main. rewrite C. intros []; simpl; auto.
Qed.

(** X3.  Whatever the arguments and however the run ends, the only local
    file it creates or removes is [.timestamp]. *)
Theorem run_spares_local_files (fuel : nat) (args : arguments) :
  emits_only spares_local_files (main env fuel args : M Srv unit).
Proof. apply emits_main. intros []; simpl; auto. Qed.

(** X4.  [QUIT] is sent at most once and nothing follows it; a run that
    succeeds has sent it, and a run that sent none has failed: there is no
    [finally] around line 278. *)
Theorem quit_is_sent_last_or_not_at_all (fuel : nat) (args : arguments) :
  quit_only_last (main env fuel args : M Srv unit).
Proof.
  apply main_spine.
  - intros A m f Hm Hf. apply quit_bind; [|exact Hf].
    eapply emits_weaken; [|exact Hm]. intros e E.
    unfold is_body in E. now apply andb_true_iff in E.
  - intros w. exists []. split; [reflexivity|]. left.
    unfold ftp_quit, call. now destruct (srv_quit (server w)) as [[[]| |] s].
Qed.

(** X5.  Indexing the server only prints, lists and changes directory:
    whatever the server answers and to whatever depth, [rlst] sends no
    command but [NLST] and [CWD]. *)
Theorem index_only_lists_and_enters (rules : list Re.regex) (fuel : nat) (path : string) :
  emits_only is_index (rlst env rules fuel path : M Srv (list string)).
Proof. apply emits_rlst. Qed.

End WholeRun.

Lemma run_without_clean_never_lists_or_deletes_witness :
  emits_only no_index_no_delete
    (main Examples3.a_only 5 (Examples3.plain false []) : M Mock.state unit).
Proof.
  apply (run_without_clean_never_lists_or_deletes Examples3.a_only 5
           (Examples3.plain false [])).
  reflexivity.
Defined.

(** ** Building the tree *)

Section Building.

Context {Srv : Type} `{Transport Srv}.
Variable env : local_env.

(** X1.  The tree comes out of [sorted] with its directory paths in
    strictly ascending order: of two entries that follow each other the
    second has the greater path, so no directory occurs twice in a row. *)
Theorem tree_directories_strictly_ascend (args : arguments)
    (explicit : option (list string)) (w w' : world Srv) (tree : tree_t) :
  build_tree env args explicit w = (Ok tree, w') ->
  Sorted.Sorted ltb_rel (map fst tree) /\
  forall pre post D1 D2 f1 f2,
    tree = pre ++ (D1, f1) :: (D2, f2) :: post -> (D1 <? D2)%string = true.
Proof.
  intros E. split; [exact (built_tree_is_ascending env args explicit w w' tree E)|].
  intros pre post D1 D2 f1 f2 ->.
  exact (consecutive_entries_ascend env args explicit w w' pre post D1 D2 f1 f2 E).
Qed.

Lemma local_ret (strict : bool) {A} (a : A) : local_only strict (ret a : M Srv A).
Proof. intros w. simpl. auto. Qed.

Lemma local_bind (strict : bool) {A B} (m : M Srv A) (f : A -> M Srv B) :
  local_only strict m -> (forall a, local_only strict (f a)) ->
  local_only strict (bind m f).
Proof.
  intros Hm Hf w. destruct (Hm w) as [S R]. unfold bind.
  destruct (m w) as [[a|e|] w1]; simpl in *.
  - destruct (Hf a w1) as [S' R']. split; [now rewrite S'|exact R'].
  - split; [exact S|]. destruct R as [R|[R1 R2]]; [discriminate R|].
    injection R2 as ->. auto.
  - destruct R as [R|[_ R]]; discriminate R.
Qed.

Lemma local_emit (strict : bool) (e : event) : local_only strict (emit e : M Srv unit).
Proof. intros w. simpl. auto. Qed.

Lemma local_rule_hits (strict : bool) (rule : Re.regex) (p : string) :
  (strict = true -> Re.compilable rule = true) ->
  local_only strict (rule_hits env rule p : M Srv bool).
Proof.
  intros C w. rewrite rule_hits_run.
  destruct (Re.compilable rule); simpl; [auto|].
  split; [reflexivity|]. right. split; [|reflexivity].
  destruct strict; [now discriminate C|reflexivity].
Qed.

Lemma local_exclude_matching (strict : bool) (rule : Re.regex)
    (path_of : string -> string) (names : list string) :
  (strict = true -> Re.compilable rule = true) ->
  local_only strict (exclude_matching env rule path_of names : M Srv (list string)).
Proof.
  intros C. induction names as [|x names IH]; simpl; [apply local_ret|].
  apply local_bind; [exact IH|intros rest'].
  apply local_bind; [now apply local_rule_hits|intros hit].
  destruct hit; [|apply local_ret].
  apply local_bind; [apply local_emit|intros _; apply local_ret].
Qed.

Lemma local_apply_excludes (strict : bool) (rules : list Re.regex) (root : string) :
  (strict = true -> Forall (fun r => Re.compilable r = true) rules) ->
  forall dirs fnames,
    local_only strict
      (apply_excludes env rules root dirs fnames : M Srv (list string * list string)).
Proof.
  induction rules as [|r rules IH]; intros C dirs fnames; simpl; [apply local_ret|].
  assert (Cr : strict = true -> Re.compilable r = true).
  { intros S. specialize (C S). now inversion C. }
  assert (Cs : strict = true -> Forall (fun r => Re.compilable r = true) rules).
  { intros S. specialize (C S). now inversion C. }
  apply local_bind; [now apply local_exclude_matching|intros ?].
  apply local_bind; [now apply local_exclude_matching|intros ?]. now apply IH.
Qed.

Lemma local_walk (strict : bool) (rules : list Re.regex) (here : node) :
  (strict = true -> Forall (fun r => Re.compilable r = true) rules) ->
  forall root tree, local_only strict (walk env rules root here tree : M Srv tree_t).
Proof.
  intros C. induction here as [f|n cs IH] using node_induction; intros root tree.
  - apply local_ret.
  - intros w. rewrite walk_unfold. revert w.
    apply local_bind; [apply local_emit|intros _].
    apply local_bind; [now apply local_apply_excludes|intros pruned].
    generalize (match snd pruned with
                | [] => tree
                | _ :: _ => setitem root (snd pruned) tree
                end).
    induction IH as [|c cs Pc F IHcs]; intros t; cbn [walk_children].
    + apply local_ret.
    + destruct c as [f|name sub]; [apply IHcs|].
      destruct (mem name (fst pruned)); [|apply IHcs].
      apply local_bind; [apply Pc|intros ?; apply IHcs].
Qed.

Lemma compilable_exclude_rules (args : arguments) :
  Forall (fun r => Re.compilable r = true) (excludes args) ->
  Forall (fun r => Re.compilable r = true) (exclude_rules args).
Proof.
  intros F. unfold exclude_rules, excludes_with_timestamp.
  rewrite map_app. apply Forall_app. split.
  - induction F as [|r l C F IH]; simpl; constructor; [|exact IH].
    now rewrite compilable_whole_path_rule.
  - now repeat constructor.
Qed.

(** X6.  Building the tree leaves the server alone, and the only way it
    can fail is [re.error]; it cannot fail at all when every exclude
    pattern compiles. *)
Theorem building_the_tree_is_local (strict : bool) (args : arguments)
    (explicit : option (list string)) :
  (strict = true -> Forall (fun r => Re.compilable r = true) (excludes args)) ->
  local_only strict (build_tree env args explicit : M Srv tree_t).
Proof.
  intros C. unfold build_tree.
  apply local_bind; [|intros ?; apply local_ret].
  destruct explicit; [apply local_ret|].
  apply local_walk. intros S. apply compilable_exclude_rules. auto.
Qed.

(** X7.  The loop that deletes from a list while running over its
    indices backwards (lines 59-64, 175-180, 181-186) keeps exactly the
    names whose path the rule does not meet, in their order, prints one
    notice for each name it removes, the last name first, and leaves the
    server alone. *)
Theorem exclusion_loop_is_a_filter (rule : Re.regex) (path_of : string -> string)
    (names names' : list string) (w w' : world Srv) :
  exclude_matching env rule path_of names w = (Ok names', w') ->
  names' = filter (fun x => negb (hit env rule (path_of x))) names /\
  trace w'
  = trace w
    ++ map (fun x => excluding_notice (path_of x))
         (rev (filter (fun x => hit env rule (path_of x)) names)) /\
  server w' = server w.
Proof.
  revert names' w'. induction names as [|x names IH]; intros names' w'; simpl.
  - intros [= <- <-]. simpl. now rewrite app_nil_r.
  - intros E. apply bind_inv in E. destruct E as (rest' & w1 & E1 & E).
    apply IH in E1. destruct E1 as (-> & T1 & S1).
    apply bind_inv in E. destruct E as (b & w2 & E2 & E).
    rewrite rule_hits_run in E2. destruct (Re.compilable rule); [|discriminate].
    injection E2 as <- <-.
    destruct (hit env rule (path_of x)); simpl.
    + apply bind_inv in E. destruct E as ([] & w3 & E3 & E).
      injection E as <- <-. injection E3 as <-. simpl.
      rewrite T1, map_app, <- app_assoc. auto.
    + injection E as <- <-. auto.
Qed.

(** X8.  Of the files named on the command line, those are kept, in their
    order, that no exclude pattern (the user's or ['.timestamp']) matches
    up to a ['/'] or to the end.  Naming no file means walking the tree;
    naming files that are all excluded means mirroring nothing. *)
Theorem named_files_are_filtered_in_order (args : arguments)
    (r : option (list string)) (w w' : world Srv) :
  explicit_files env args w = (Ok r, w') ->
  (files args = [] -> r = None) /\
  (files args <> [] ->
   r = Some (filter
               (fun f => negb (existsb (fun e => hit env (boundary_rule e) f)
                                 (excludes_with_timestamp args)))
               (files args))) /\
  (forall v : world Srv, build_tree env args (Some []) v = (Ok [], v)).
Proof.
  unfold explicit_files. intros E. split; [|split].
  - intros Q. rewrite Q in E. now injection E as <- _.
  - intros N. destruct (files args) as [|f fs]; [congruence|].
    apply bind_inv in E. destruct E as (fs' & w1 & E1 & E).
    injection E as <- _. apply filter_explicit_ok in E1. now subst fs'.
  - reflexivity.
Qed.

Lemma setdefault_append_listed (key name : string) (tree : tree_t) (d n : string) :
  listed (setdefault_append key name tree) d n
  <-> listed tree d n \/ (d = key /\ n = name).
Proof.
  unfold listed. induction tree as [|[k old] tree IH]; simpl.
  - split.
    + intros (names & [E|[]] & I). injection E as <- <-.
      destruct I as [<-|[]]. auto.
    + intros [(names & [] & _)|[-> ->]]. exists [name]. simpl. auto.
  - destruct (k =? key)%string eqn:Q.
    + apply String.eqb_eq in Q. subst k. split.
      * intros (names & [E|I] & J).
        -- injection E as <- <-. apply in_app_or in J.
           destruct J as [J|[<-|[]]]; [|auto].
           left. exists old. simpl. auto.
        -- left. exists names. simpl. auto.
      * intros [(names & [E|I] & J)|[-> ->]].
        -- injection E as <- <-. exists (old ++ [name]).
           split; [now left|]. apply in_or_app. auto.
        -- exists names. simpl. auto.
        -- exists (old ++ [name]). split; [now left|].
           apply in_or_app. simpl. auto.
    + split.
      * intros (names & [E|I] & J).
        -- injection E as <- <-. left. exists old. simpl. auto.
        -- destruct (proj1 IH (ex_intro _ names (conj I J))) as [(m & A & B)|G];
             [|auto]. left. exists m. simpl. auto.
      * intros [(names & [E|I] & J)|G].
        -- injection E as <- <-. exists old. simpl. auto.
        -- destruct (proj2 IH (or_introl (ex_intro _ names (conj I J))))
             as (m & A & B).
           exists m. simpl. auto.
        -- destruct (proj2 IH (or_intror G)) as (m & A & B). exists m. simpl. auto.
Qed.

(** X9.  The tree made of the files named on the command line lists a
    name under a directory exactly when some named file has that directory
    as its [dirname] and that name as its [basename]. *)
Theorem named_tree_lists_the_named_files (fs : list string) (d n : string) :
  listed (tree_of_files env fs) d n
  <-> exists f, In f fs /\ d = dirname env f /\ n = basename env f.
Proof.
  unfold tree_of_files.
  assert (G : forall tree,
            listed (fold_left
                      (fun tree file =>
                         setdefault_append (dirname env file) (basename env file) tree)
                      fs tree) d n
            <-> listed tree d n \/
                exists f, In f fs /\ d = dirname env f /\ n = basename env f).
  { induction fs as [|f fs IH]; intros tree; simpl.
    - split; [auto|]. intros [G|(f & [] & _)]. exact G.
    - rewrite IH, setdefault_append_listed. split.
      + intros [[G|[-> ->]]|(g & I & J)]; eauto 6.
      + intros [G|(g & [<-|I] & -> & ->)]; eauto 6. }
  rewrite G. split.
  - intros [(names & [] & _)|G0]. exact G0.
  - auto.
Qed.

End Building.

Lemma tree_directories_strictly_ascend_witness :
  Sorted.Sorted ltb_rel (map fst [("a", ["x.txt"]); ("b", ["y.txt"])]) /\
  forall pre post D1 D2 f1 f2,
    [("a", ["x.txt"]); ("b", ["y.txt"])] = pre ++ (D1, f1) :: (D2, f2) :: post ->
    (D1 <? D2)%string = true.
Proof.
  apply (tree_directories_strictly_ascend Examples.here Examples4.skip_args None
           Examples.nothing
           (snd (build_tree Examples.here Examples4.skip_args None Examples.nothing))).
  reflexivity.
Defined.

Lemma building_the_tree_is_local_witness :
  local_only true
    (build_tree Examples4.with_skip Examples4.skip_args None : M Mock.state tree_t).
Proof.
  apply (building_the_tree_is_local Examples4.with_skip true Examples4.skip_args None).
  intros _. repeat constructor.
Defined.

Lemma exclusion_loop_is_a_filter_witness :
  ["a"] = filter (fun x => negb (hit Examples.here (whole_path_rule (Re.Lit "skip")) x))
            ["a"; "skip"] /\
  trace (snd (exclude_matching Examples.here (whole_path_rule (Re.Lit "skip"))
                (fun x => x) ["a"; "skip"] Examples.nothing))
  = trace Examples.nothing
    ++ map (fun x => excluding_notice x)
         (rev (filter (fun x => hit Examples.here (whole_path_rule (Re.Lit "skip")) x)
                 ["a"; "skip"])) /\
  server (snd (exclude_matching Examples.here (whole_path_rule (Re.Lit "skip"))
                 (fun x => x) ["a"; "skip"] Examples.nothing))
  = server Examples.nothing.
Proof.
  apply (exclusion_loop_is_a_filter Examples.here (whole_path_rule (Re.Lit "skip"))
           (fun x => x) ["a"; "skip"] ["a"] Examples.nothing).
  reflexivity.
Defined.

Lemma named_files_are_filtered_in_order_witness :
  (files Examples4.named_args = [] -> Some ["a/x.txt"] = None) /\
  (files Examples4.named_args <> [] ->
   Some ["a/x.txt"]
   = Some (filter
             (fun f => negb (existsb (fun e => hit Examples4.with_skip (boundary_rule e) f)
                               (excludes_with_timestamp Examples4.named_args)))
             (files Examples4.named_args))) /\
  (forall v : world Mock.state,
     build_tree Examples4.with_skip Examples4.named_args (Some []) v = (Ok [], v)).
Proof.
  apply (named_files_are_filtered_in_order Examples4.with_skip Examples4.named_args
           (Some ["a/x.txt"]) Examples.nothing
           (snd (explicit_files Examples4.with_skip Examples4.named_args Examples.nothing))).
  reflexivity.
Defined.

(** ** The clock offset and the queries *)

Section Offsets.

Context {Srv : Type} `{Transport Srv}.
Variable env : local_env.

(** X10.  A calibration that succeeds returns the local time of the
    marker minus the time the server reports for it, and that is what is
    added to every remote time afterwards: a remote file for which the
    server reports the time [rt_f] is compared as [rt_f + local - remote],
    so a file the server dates like the marker counts as dated like the
    local marker, whatever the two clocks say. *)
Theorem clock_skew_cancels (w w' : world Srv) (offset : Z) :
  calibrate env w = (Ok offset, w') ->
  exists s1 reply text local_time remote_time,
    srv_storbinary "STOR .timestamp" (server w) = (Done tt, s1) /\
    getmtime env ".timestamp" = Some local_time /\
    srv_sendcmd "MDTM .timestamp" s1 = (Done reply, server w') /\
    Str.split_none_1_snd reply = Some text /\
    timegm_strptime env text = Some remote_time /\
    offset = (local_time - remote_time)%Z /\
    forall file (v v1 : world Srv) time_text size_text rt_f size,
      query_remote false file v = (Ok (Some (time_text, size_text)), v1) ->
      timegm_strptime env time_text = Some rt_f ->
      int_of_text size_text = Some size ->
      remote_metadata env false offset file v
      = (Ok (rt_f + local_time - remote_time, size)%Z, v1) /\
      (rt_f = remote_time ->
       remote_metadata env false offset file v = (Ok (local_time, size), v1)).
Proof.
  unfold calibrate, try_finally, bind, emit, attempt, ftp_storbinary, ftp_sendcmd,
    call, lift_option; simpl.
  destruct (can_write env ".timestamp"); [|discriminate].
  destruct (srv_storbinary _ _) as [[[]| |] s1] eqn:E1; simpl;
    try (destruct (can_remove env ".timestamp"); discriminate).
  destruct (getmtime env ".timestamp") as [lt|] eqn:E2; simpl;
    try (destruct (can_remove env ".timestamp"); discriminate).
  destruct (srv_sendcmd _ s1) as [[reply| |] s2] eqn:E3; simpl;
    try (destruct (can_remove env ".timestamp"); discriminate).
  destruct (Str.split_none_1_snd reply) as [text|] eqn:E4; simpl;
    try (destruct (can_remove env ".timestamp"); discriminate).
  destruct (timegm_strptime env text) as [rt|] eqn:E5; simpl;
    try (destruct (can_remove env ".timestamp"); discriminate).
  destruct (can_remove env ".timestamp"); [|discriminate].
  intros E. injection E as <- <-. simpl.
  exists s1, reply, text, lt, rt.
  do 6 (split; [first [reflexivity|assumption]|]).
  intros file v v1 time_text size_text rt_f size Q T Z.
  assert (R : remote_metadata env false (lt - rt) file v
              = (Ok (rt_f + lt - rt, size)%Z, v1)).
  { unfold remote_metadata. rewrite (bind_ok _ _ _ _ _ Q). unfold lift_option.
    rewrite T, Z. unfold bind, ret. do 2 f_equal. f_equal. lia. }
  split; [exact R|]. intros ->. rewrite R. do 2 f_equal. f_equal. lia.
Qed.

(** X11.  The script takes for granted that the server knows [SIZE]
    (line 240).  When it does not, that is, when [MDTM] is answered and
    [SIZE] is refused with a permanent error, the file counts as absent:
    unless it is empty and dated at or before the epoch, every run
    announces its upload and opens it, and sends it with [STOR] if it could
    be opened; if it could not, the run ends there with [IOError]. *)
Theorem server_without_size_means_upload (offset : Z) (path file : string)
    (w : world Srv) (reply time_text : string) (s1 s2 : Srv) (lt ls : Z) :
  srv_sendcmd ("MDTM " ++ file) (server w) = (Done reply, s1) ->
  Str.split_none_1_snd reply = Some time_text ->
  srv_sendcmd ("SIZE " ++ file) s1 = (Perm, s2) ->
  getmtime env (path_join env path file) = Some lt ->
  getsize env (path_join env path file) = Some ls ->
  (lt > 0 \/ ls <> 0)%Z ->
  exists rest,
    trace (snd (sync_file env false offset path file w))
    = trace w
      ++ [Sendcmd ("MDTM " ++ file); Sendcmd ("SIZE " ++ file)]
      ++ [Stdout ("uploading " ++ path_join env path file);
          OpenRead (path_join env path file)]
      ++ rest /\
    (can_read env (path_join env path file) = true ->
     exists rest',
       rest = Storbinary ("STOR " ++ file) (path_join env path file)
                (BLOCK_SIZE <? ls)%Z :: rest') /\
    (can_read env (path_join env path file) = false ->
     rest = [] /\
     fst (sync_file env false offset path file w) = Raise IOError).
Proof.
  intros E1 E2 E3 Hm Hs G.
  assert (Q : query_remote false file w
              = (Ok None,
                 {| server := s2;
                    trace := trace w ++ [Sendcmd ("MDTM " ++ file);
                                         Sendcmd ("SIZE " ++ file)] |})).
  { unfold query_remote, try_except, bind, ftp_sendcmd, call, lift_option.
    simpl in E1, E3 |- *. rewrite E1. simpl. rewrite E2. simpl. rewrite E3. simpl.
    now rewrite <- app_assoc. }
  assert (R : remote_metadata env false offset file w
              = (Ok (0, 0)%Z,
                 {| server := s2;
                    trace := trace w ++ [Sendcmd ("MDTM " ++ file);
                                         Sendcmd ("SIZE " ++ file)] |})).
  { unfold remote_metadata. now rewrite (bind_ok _ _ _ _ _ Q). }
  rewrite (sync_file_decided env _ _ _ _ _ _ _ _ _ _ Hm Hs R).
  apply needs_upload_iff in G. rewrite G. rewrite upload_run.
  destruct (can_read env (path_join env path file)); cbn [server trace snd fst].
  - destruct (srv_storbinary _ _) as [[[]| |] s3]; cbn [trace snd fst];
      unfold upload_started;
      eexists; (split; [rewrite <- !app_assoc; simpl; reflexivity|]);
      (split; [intros _; eexists; reflexivity|discriminate]).
  - exists []. split; [now rewrite <- !app_assoc|].
    split; [discriminate|auto].
Qed.

End Offsets.

Lemma clock_skew_cancels_witness :
  exists s1 reply text local_time remote_time,
    srv_storbinary "STOR .timestamp" (server Examples.one_file) = (Done tt, s1) /\
    getmtime Examples.here ".timestamp" = Some local_time /\
    srv_sendcmd "MDTM .timestamp" s1
    = (Done reply, server (snd (calibrate Examples.here Examples.one_file))) /\
    Str.split_none_1_snd reply = Some text /\
    timegm_strptime Examples.here text = Some remote_time /\
    10%Z = (local_time - remote_time)%Z /\
    forall file (v v1 : world Mock.state) time_text size_text rt_f size,
      query_remote false file v = (Ok (Some (time_text, size_text)), v1) ->
      timegm_strptime Examples.here time_text = Some rt_f ->
      int_of_text size_text = Some size ->
      remote_metadata Examples.here false 10 file v
      = (Ok (rt_f + local_time - remote_time, size)%Z, v1) /\
      (rt_f = remote_time ->
       remote_metadata Examples.here false 10 file v = (Ok (local_time, size), v1)).
Proof.
  apply (clock_skew_cancels Examples.here Examples.one_file
           (snd (calibrate Examples.here Examples.one_file)) 10).
  reflexivity.
Defined.

Lemma server_without_size_means_upload_witness :
  exists rest,
    trace (snd (sync_file Examples.here false 0 "" "x.txt" OldServer.one_file))
    = trace OldServer.one_file
      ++ [Sendcmd "MDTM x.txt"; Sendcmd "SIZE x.txt"]
      ++ [Stdout "uploading x.txt"; OpenRead "x.txt"]
      ++ rest /\
    (can_read Examples.here "x.txt" = true ->
     exists rest', rest = Storbinary "STOR x.txt" "x.txt" (BLOCK_SIZE <? 3)%Z :: rest') /\
    (can_read Examples.here "x.txt" = false ->
     rest = [] /\
     fst (sync_file Examples.here false 0 "" "x.txt" OldServer.one_file) = Raise IOError).
Proof.
  apply (server_without_size_means_upload Examples.here 0 "" "x.txt"
           OldServer.one_file "213 200" "200"
           (server OldServer.one_file) (server OldServer.one_file) 100 3);
    try reflexivity.
  left. reflexivity.
Defined.

(** ** The navigator and the server's working directory *)

Section InStep.

Context {Srv : Type} `{Tracked Srv}.

Lemma first_mismatch_same (l : list string) (i : nat) : first_mismatch i l l = None.
Proof.
  revert i. induction l as [|a l IH]; intros i; simpl; [reflexivity|].
  now rewrite String.eqb_refl.
Qed.

(** X13.  Navigating to the directory the run is in sends nothing. *)
Theorem navigating_to_the_same_directory_sends_nothing (l : list string)
    (w : world Srv) :
  navigate l l w = (Ok l, w).
Proof.
  unfold navigate. rewrite first_mismatch_same. unfold bind at 1. simpl.
  rewrite skipn_all. reflexivity.
Qed.








End InStep.

(** The small server keeps a working directory in that sense. *)
Section MockInStep.







End MockInStep.


(** ** The orphans *)

Section Orphans.

Context {Srv : Type} `{Transport Srv}.
Variable env : local_env.

Lemma remove_first_incl (x y : string) (l : list string) :
  In y (remove_first x l) -> In y l.
Proof.
  induction l as [|a l IH]; simpl; [auto|].
  destruct (a =? x)%string; simpl; [auto|]. intros [E|I]; auto.
Qed.

Lemma remove_first_NoDup (x : string) (l : list string) :
  NoDup l ->
  NoDup (remove_first x l) /\
  forall y, In y (remove_first x l) <-> In y l /\ y <> x.
Proof.
  induction 1 as [|a l Na N IH]; simpl.
  - split; [constructor|]. tauto.
  - destruct IH as [N' I']. destruct (a =? x)%string eqn:Q.
    + apply String.eqb_eq in Q. subst a. split; [exact N|].
      intros y. split.
      * intros I. split; [now right|]. intros ->. contradiction.
      * intros [[E|I] D]; [congruence|exact I].
    + apply String.eqb_neq in Q. split.
      * constructor; [|exact N']. intros I. apply Na. now apply I' in I.
      * intros y. simpl. rewrite I'. split.
        -- intros [E|[I D]]; [subst y; auto|auto].
        -- intros [[E|I] D]; auto.
Qed.

Lemma strike_incl (xs orphaned : list string) (y : string) :
  In y (fold_left (fun o x => remove_first x o) xs orphaned) -> In y orphaned.
Proof.
  revert orphaned. induction xs as [|x xs IH]; intros orphaned; simpl; [auto|].
  intros I. apply IH in I. now apply remove_first_incl in I.
Qed.

Lemma strike_NoDup (xs orphaned : list string) :
  NoDup orphaned ->
  forall y,
    In y (fold_left (fun o x => remove_first x o) xs orphaned)
    <-> In y orphaned /\ ~ In y xs.
Proof.
  revert orphaned. induction xs as [|x xs IH]; intros orphaned N y; simpl.
  - tauto.
  - destruct (remove_first_NoDup x orphaned N) as [N' I'].
    rewrite (IH _ N' y), I'. split.
    + intros [[I D] J]. split; [exact I|]. intros [E|K]; [congruence|contradiction].
    + intros [I J]. repeat split; auto.
Qed.

Lemma sync_files_orphans (c u : bool) (offset : Z) (path : string)
    (fnames orphaned rem : list string) (w w' : world Srv) :
  sync_files env c u offset path fnames orphaned w = (Ok rem, w') ->
  rem = if c
        then fold_left (fun o x => remove_first x o)
               (map (fun f => Str.replace (os_sep env) "/" (path_join env path f)) fnames)
               orphaned
        else orphaned.
Proof.
  revert orphaned w. induction fnames as [|f fnames IH]; intros orphaned w; simpl.
  - intros [= <- _]. now destruct c.
  - intros E. apply bind_inv in E. destruct E as ([] & w1 & _ & E).
    apply IH in E. subst rem. now destruct c.
Qed.

Lemma mirror_orphans (c u : bool) (offset : Z) (tree : tree_t)
    (lastDirs orphaned rem : list string) (w w' : world Srv) :
  mirror env c u offset tree lastDirs orphaned w = (Ok rem, w') ->
  rem = if c
        then fold_left (fun o x => remove_first x o) (remote_paths env tree) orphaned
        else orphaned.
Proof.
  revert lastDirs orphaned w.
  induction tree as [|[d names] tree IH]; intros lastDirs orphaned w; simpl.
  - intros [= <- _]. now destruct c.
  - intros E. apply bind_inv in E. destruct E as (l & w1 & _ & E).
    apply bind_inv in E. destruct E as (o & w2 & E2 & E).
    apply sync_files_orphans in E2. apply IH in E. subst rem o.
    destruct c; [|reflexivity]. unfold remote_paths. simpl.
    now rewrite fold_left_app.
Qed.

(** X14.  When the loop over the tree has completed, the list of orphans
    is the index without the files of the tree: nothing is in it that was
    not indexed, and, the index naming every path once, a path is left in
    it exactly when it was indexed and is not the remote path of a file of
    the tree.  Without [--clean] the list is not touched. *)
Theorem orphans_are_the_index_minus_the_tree (c u : bool) (offset : Z)
    (tree : tree_t) (lastDirs orphaned rem : list string) (w w' : world Srv) :
  mirror env c u offset tree lastDirs orphaned w = (Ok rem, w') ->
  (c = false -> rem = orphaned) /\
  (forall x, In x rem -> In x orphaned) /\
  (c = true -> NoDup orphaned ->
   forall x, In x rem <-> In x orphaned /\ ~ In x (remote_paths env tree)).
Proof.
  intros E. apply mirror_orphans in E. subst rem. split; [|split].
  - now intros ->.
  - intros x. destruct c; [apply strike_incl|auto].
  - intros -> N x. now apply strike_NoDup.
Qed.

Lemma delete_step (f : string) (l : list string) (w : world Srv) :
  for_each (f :: l)
    (fun file => stdout_write ("deleting " ++ file) ;; ftp_delete file ;; print "") w
  = match srv_delete f (server w) with
    | (Done _, s1) =>
        for_each l
          (fun file => stdout_write ("deleting " ++ file) ;; ftp_delete file ;; print "")
          {| server := s1;
             trace := trace w ++ [Stdout ("deleting " ++ f); Delete f;
                                  Stdout (String Str.newline "")] |}
    | (Perm, s1) =>
        (Raise error_perm,
         {| server := s1;
            trace := trace w ++ [Stdout ("deleting " ++ f); Delete f] |})
    | (Fail, s1) =>
        (Raise error_other,
         {| server := s1;
            trace := trace w ++ [Stdout ("deleting " ++ f); Delete f] |})
    end.
Proof.
  cbn [for_each]. unfold bind, stdout_write, print, emit, ftp_delete, call.
  cbn [server trace].
  destruct (srv_delete f (server w)) as [[[]| |] s1]; cbn [server trace];
    now rewrite <- !app_assoc.
Qed.

Lemma deletions_in_order (l : list string) (w : world Srv) :
  exists k new,
    trace (snd (for_each l
                  (fun file =>
                     stdout_write ("deleting " ++ file) ;;
                     ftp_delete file ;;
                     print "") w))
    = trace w ++ new /\
    commands new = map Delete (firstn k l) /\
    k <= List.length l /\
    (is_ok (fst (for_each l
                   (fun file =>
                      stdout_write ("deleting " ++ file) ;;
                      ftp_delete file ;;
                      print "") w)) = true -> k = List.length l).
Proof.
  revert w. induction l as [|f l IH]; intros w.
  - exists 0, []. simpl. rewrite app_nil_r. auto.
  - rewrite delete_step.
    destruct (srv_delete f (server w)) as [[[]| |] s1].
    + match goal with |- context [for_each l ?body ?w1] =>
        destruct (IH w1) as (k & new & T & C & L & K) end.
      exists (S k),
        ([Stdout ("deleting " ++ f); Delete f; Stdout (String Str.newline "")] ++ new).
      rewrite T. cbn [trace]. split; [now rewrite <- !app_assoc|].
      split; [|split].
      * rewrite commands_app, C. reflexivity.
      * simpl. lia.
      * intros O. simpl. f_equal. now apply K.
    + exists 1, [Stdout ("deleting " ++ f); Delete f]. cbn [trace fst snd].
      split; [reflexivity|]. simpl. split; [reflexivity|].
      split; [lia|discriminate].
    + exists 1, [Stdout ("deleting " ++ f); Delete f]. cbn [trace fst snd].
      split; [reflexivity|]. simpl. split; [reflexivity|].
      split; [lia|discriminate].
Qed.

Lemma delete_orphans_run (args : arguments) (orphaned : list string) (w : world Srv) :
  delete_orphans args orphaned w
  = match srv_cwd (docroot args) (server w) with
    | (Done _, s1) =>
        for_each orphaned
          (fun file => stdout_write ("deleting " ++ file) ;; ftp_delete file ;; print "")
          {| server := s1; trace := trace w ++ [Cwd (docroot args)] |}
    | (Perm, s1) =>
        (Raise error_perm, {| server := s1; trace := trace w ++ [Cwd (docroot args)] |})
    | (Fail, s1) =>
        (Raise error_other, {| server := s1; trace := trace w ++ [Cwd (docroot args)] |})
    end.
Proof.
  unfold delete_orphans, bind, ftp_cwd, call.
  now destruct (srv_cwd (docroot args) (server w)) as [[[]| |] s1].
Qed.

(** X15.  The removal of the orphans goes to the document root and then
    deletes the orphans one by one in the order of the list; it stops at
    the first command that fails, deleting nothing after it, and when it
    succeeds it has sent one [DELE] for every orphan. *)
Theorem orphans_are_deleted_in_order (args : arguments) (orphaned : list string)
    (w : world Srv) :
  exists k new,
    trace (snd (delete_orphans args orphaned w)) = trace w ++ new /\
    commands new = Cwd (docroot args) :: map Delete (firstn k orphaned) /\
    k <= List.length orphaned /\
    (fst (delete_orphans args orphaned w) = Ok tt -> k = List.length orphaned).
Proof.
  rewrite delete_orphans_run.
  destruct (srv_cwd (docroot args) (server w)) as [[[]| |] s1].
  - match goal with |- context [for_each orphaned ?body ?w1] =>
      destruct (deletions_in_order orphaned w1) as (k & new & T & C & L & K) end.
    exists k, (Cwd (docroot args) :: new).
    rewrite T. cbn [trace]. split; [now rewrite <- app_assoc|].
    split; [simpl; now rewrite <- C|]. split; [exact L|].
    intros O. apply K. now rewrite O.
  - exists 0, [Cwd (docroot args)]. simpl. repeat split; [lia|discriminate].
  - exists 0, [Cwd (docroot args)]. simpl. repeat split; [lia|discriminate].
Qed.

(** X17.  The bare [except] of line 154 takes any failure below a
    directory for "not a directory": when the server lets the run enter
    [file] and then fails to list it, [file] itself is recorded as an
    orphan candidate, and no [cwd '..'] is sent, so that the run goes on
    from inside [file]. *)
Theorem unlistable_directory_is_indexed_as_a_file (rules : list Re.regex)
    (fuel : nat) (path file : string) (w : world Srv) (s1 s2 s3 : Srv)
    (failure : reply (list string)) :
  Forall (fun r => Re.compilable r = true) rules ->
  srv_nlst (server w) = (Done [file], s1) ->
  srv_cwd file s1 = (Done tt, s2) ->
  srv_nlst s2 = (failure, s3) ->
  (forall names, failure <> Done names) ->
  fst (rlst env rules (S (S fuel)) path w) = Ok [file] /\
  server (snd (rlst env rules (S (S fuel)) path w)) = s3 /\
  commands (trace (snd (rlst env rules (S (S fuel)) path w)))
  = commands (trace w) ++ [Nlst; Cwd file; Nlst].
Proof.
  intros F E1 E2 E3 N.
  assert (A0 : alike w w) by now split.
  destruct (rlst_ignores_keep_rules env rules (S (S fuel)) F path w w A0)
    as (R & S & T).
  rewrite R, S, T. clear R S T A0 F.
  cbn [rlst]. unfold bind, stdout_write, emit, ftp_nlst, ftp_cwd, call,
    announce_kept, try_except; cbn [for_each ret server trace fst snd].
  rewrite E1. cbn [server trace fst snd]. rewrite E2. cbn [server trace fst snd].
  rewrite E3. destruct failure as [names| |]; [now destruct (N names)| |];
    cbn [server trace fst snd any_exn app];
    (split; [reflexivity|split; [reflexivity|]]);
    unfold ret; cbn [trace snd];
    rewrite !commands_app; simpl; now rewrite !app_nil_r, <- !app_assoc.
Qed.

End Orphans.

Lemma orphans_are_the_index_minus_the_tree_witness :
  (true = false -> ["c/old.txt"] = ["a/x.txt"; "c/old.txt"]) /\
  (forall x, In x ["c/old.txt"] -> In x ["a/x.txt"; "c/old.txt"]) /\
  (true = true -> NoDup ["a/x.txt"; "c/old.txt"] ->
   forall x, In x ["c/old.txt"]
             <-> In x ["a/x.txt"; "c/old.txt"] /\
                 ~ In x (remote_paths Examples.here [("a", ["x.txt"])])).
Proof.
  apply (orphans_are_the_index_minus_the_tree Examples.here true false 0
           [("a", ["x.txt"])] [] ["a/x.txt"; "c/old.txt"] ["c/old.txt"]
           Examples5.cleaning
           (snd (mirror Examples.here true false 0 [("a", ["x.txt"])] []
                   ["a/x.txt"; "c/old.txt"] Examples5.cleaning))).
  reflexivity.
Defined.

Lemma unlistable_directory_is_indexed_as_a_file_witness :
  fst (rlst Examples.here [] 2 "" Examples5.outside) = Ok ["private"] /\
  server (snd (rlst Examples.here [] 2 "" Examples5.outside))
  = {| Examples5.inside := true |} /\
  commands (trace (snd (rlst Examples.here [] 2 "" Examples5.outside)))
  = commands (trace Examples5.outside) ++ [Nlst; Cwd "private"; Nlst].
Proof.
  apply (unlistable_directory_is_indexed_as_a_file Examples.here [] 0 "" "private"
           Examples5.outside
           {| Examples5.inside := false |} {| Examples5.inside := true |}
           {| Examples5.inside := true |} Perm).
  - constructor.
  - reflexivity.
  - reflexivity.
  - reflexivity.
  - intros names. discriminate.
Defined.

(* ================================================================== *)
(** * The run, from its first line to a given moment *)

Section Phases.

Context {Srv : Type} `{Transport Srv}.
Variable env : local_env.

Lemma navigate_result (lastDirs dirs l : list string) (w w' : world Srv) :
  navigate lastDirs dirs w = (Ok l, w') -> l = dirs.
Proof.
  unfold navigate. intros E.
  apply bind_inv in E. destruct E as (i & w1 & _ & E).
  apply bind_inv in E. destruct E as ([] & w2 & _ & E).
  now injection E as <-.
Qed.

Lemma sync_files_app (c u : bool) (off : Z) (path : string) (n1 n2 : list string) :
  forall o (w : world Srv) o1 w1,
    sync_files env c u off path n1 o w = (Ok o1, w1) ->
    sync_files env c u off path (n1 ++ n2) o w
    = sync_files env c u off path n2 o1 w1.
Proof.
  induction n1 as [|f n1 IH]; intros o w o1 w1 E.
  - injection E as <- <-. reflexivity.
  - cbn [sync_files app] in *.
    apply bind_inv in E. destruct E as ([] & w2 & E1 & E).
    rewrite (bind_ok _ _ _ _ _ E1). now apply IH.
Qed.

(** When the loop has dealt with the directories [pre] and with the files
    [n1] of the directory [d], it goes on with the other files of [d] and
    then with the directories after [d], the directory it stands in being
    [d]. *)
Lemma mirror_reaches (c u : bool) (off : Z) (pre post : tree_t) (d : string)
    (n1 n2 : list string) :
  forall l o (w : world Srv) o1 w1,
    mirror env c u off (pre ++ [(d, n1)]) l o w = (Ok o1, w1) ->
    mirror env c u off (pre ++ (d, n1 ++ n2) :: post) l o w
    = (o2 <- sync_files env c u off d n2 o1 ;;
       mirror env c u off post (segments env d) o2) w1.
Proof.
  induction pre as [|[d0 n0] pre IH]; intros l o w o1 w1 E.
  - cbn [mirror app] in *.
    apply bind_inv in E. destruct E as (l' & wa & En & E).
    apply bind_inv in E. destruct E as (o' & wb & Es & E).
    injection E as <- <-.
    rewrite (bind_ok _ _ _ _ _ En).
    apply navigate_result in En. subst l'.
    unfold bind. now rewrite (sync_files_app _ _ _ _ _ n2 _ _ _ _ Es).
  - cbn [mirror app] in *.
    apply bind_inv in E. destruct E as (l' & wa & En & E).
    apply bind_inv in E. destruct E as (o' & wb & Es & E).
    rewrite (bind_ok _ _ _ _ _ En), (bind_ok _ _ _ _ _ Es). now apply IH.
Qed.

(** The run is its preparation, the loop over the tree and the end. *)
Lemma main_phases (fuel : nat) (args : arguments) (w : world Srv) :
  main env fuel args w
  = (st <- prepare env fuel args ;;
     let '(time_offset, use_mlst_modify_size, orphaned_files, tree) := st in
     remaining <-
       mirror env (clean args) use_mlst_modify_size time_offset tree []
         orphaned_files ;;
     finish args remaining) w.
Proof.
  unfold main, prepare, reach_docroot, survey, finish, bind, ret.
  destruct (explicit_files env args w) as [[explicit|e|] w1]; try reflexivity.
  destruct (ftp_login _ _ _ w1) as [[[]|e|] w2]; try reflexivity.
  destruct (goto_docroot args w2) as [[[]|e|] w3]; try reflexivity.
  destruct (calibrate env w3) as [[off|e|] w4]; try reflexivity.
  destruct (check_features w4) as [[u|e|] w5]; try reflexivity.
  destruct (clean args).
  - destruct (stdout_write "indexing server" w5) as [[[]|e|] w6]; try reflexivity.
    destruct (rlst env (keep_rules args) fuel "" w6) as [[found|e|] w7];
      try reflexivity.
    destruct (print "" w7) as [[[]|e|] w8]; try reflexivity.
    destruct (build_tree env args explicit w8) as [[tree|e|] w9]; reflexivity.
  - destruct (build_tree env args explicit w5) as [[tree|e|] w9]; reflexivity.
Qed.

Lemma main_after_prepare (fuel : nat) (args : arguments) (w w0 : world Srv)
    (off : Z) (u : bool) (orph : list string) (tree : tree_t) :
  prepare env fuel args w = (Ok (off, u, orph, tree), w0) ->
  main env fuel args w
  = (remaining <- mirror env (clean args) u off tree [] orph ;;
     finish args remaining) w0.
Proof. intros P. now rewrite main_phases, (bind_ok _ _ _ _ _ P). Qed.

(** The run at the moment the loop comes to the file [f] of the directory
    [d]: it deals with that file and then does the rest. *)
Lemma main_at_file (fuel : nat) (args : arguments) (w w0 w1 : world Srv)
    (off : Z) (u : bool) (orph o1 : list string) (pre post : tree_t)
    (d f : string) (n1 n2 : list string) :
  prepare env fuel args w
  = (Ok (off, u, orph, pre ++ (d, n1 ++ f :: n2) :: post), w0) ->
  mirror env (clean args) u off (pre ++ [(d, n1)]) [] orph w0 = (Ok o1, w1) ->
  main env fuel args w
  = (sync_file env u off d f ;;
     rest_of_run env args u off d n2 post (struck env (clean args) d f o1)) w1.
Proof.
  intros P R. rewrite (main_after_prepare _ _ _ _ _ _ _ _ P).
  unfold bind at 1. rewrite (mirror_reaches _ _ _ _ _ _ _ (f :: n2) _ _ _ _ _ R).
  cbn [sync_files]. unfold rest_of_run, struck, bind.
  destruct (sync_file env u off d f w1) as [[[]|e|] w2]; try reflexivity.
  destruct (sync_files env _ _ _ _ _ _ w2) as [[o2|e|] w3]; try reflexivity.
Qed.

(** The run at the moment the loop goes from the directory [D1] to the
    next one. *)
Lemma main_at_directory (c u : bool) (off : Z) (pre post : tree_t)
    (D1 D2 : string) (f1 f2 l o o1 : list string) (w w1 : world Srv) :
  mirror env c u off (pre ++ [(D1, f1)]) l o w = (Ok o1, w1) ->
  mirror env c u off (pre ++ (D1, f1) :: (D2, f2) :: post) l o w
  = (l2 <- navigate (segments env D1) (segments env D2) ;;
     o2 <- sync_files env c u off D2 f2 o1 ;;
     mirror env c u off post l2 o2) w1.
Proof.
  intros R.
  pose proof (mirror_reaches c u off pre ((D2, f2) :: post) D1 f1 [] _ _ _ _ _ R) as Q.
  rewrite app_nil_r in Q. rewrite Q. reflexivity.
Qed.

End Phases.

(** ** The upload decision in the run (C1, C5) *)

Section Decision.

Context {Srv : Type} `{Transport Srv}.
Variable env : local_env.

(** C1, as the code has it.  Take any run, and any file [f] of a
    directory [d] of its tree that the loop comes to; let [lt], [ls] be the
    local time and size and [rt], [rs] the remote ones, the time corrected
    by the offset of the calibration.  The run then deals with that file
    and goes on with the rest.  Dealing with it, it enters the upload
    branch, printing the notice and opening the local file, if and only if
    [lt > rt] or [ls <> rs]; and [STOR] is sent if and only if this holds
    and the file could be opened: a file that cannot be opened ends the run
    with [IOError] before anything is sent, and a file that is sent is
    closed, and its line of output ended, only when the server has accepted
    it.  With equal sizes and a newer
    remote file nothing happens at all, and a size mismatch on a file that
    can be opened sends it whatever the times are. *)
Theorem upload_iff_newer_or_size_differs (fuel : nat) (args : arguments)
    (w w0 w1 w2 : world Srv) (off : Z) (u : bool) (orph o1 : list string)
    (pre post : tree_t) (d f : string) (n1 n2 : list string) (lt ls rt rs : Z) :
  prepare env fuel args w
  = (Ok (off, u, orph, pre ++ (d, n1 ++ f :: n2) :: post), w0) ->
  mirror env (clean args) u off (pre ++ [(d, n1)]) [] orph w0 = (Ok o1, w1) ->
  getmtime env (path_join env d f) = Some lt ->
  getsize env (path_join env d f) = Some ls ->
  remote_metadata env u off f w1 = (Ok (rt, rs), w2) ->
  main env fuel args w
  = (sync_file env u off d f ;;
     rest_of_run env args u off d n2 post (struck env (clean args) d f o1)) w1 /\
  ((lt > rt \/ ls <> rs)%Z ->
   sync_file env u off d f w1 = upload env (path_join env d f) f ls w2) /\
  upload env (path_join env d f) f ls w2
  = (if can_read env (path_join env d f) then
       match srv_storbinary ("STOR " ++ f) (server w2) with
       | (Done _, s) =>
           (Ok tt,
            {| server := s;
               trace := trace w2 ++ upload_started (path_join env d f) f ls
                          ++ [CloseFile (path_join env d f);
                              Stdout (String Str.newline "")] |})
       | (Perm, s) =>
           (Raise error_perm,
            {| server := s;
               trace := trace w2 ++ upload_started (path_join env d f) f ls |})
       | (Fail, s) =>
           (Raise error_other,
            {| server := s;
               trace := trace w2 ++ upload_started (path_join env d f) f ls |})
       end
     else
       (Raise IOError,
        {| server := server w2;
           trace := trace w2 ++ [Stdout ("uploading " ++ path_join env d f);
                                 OpenRead (path_join env d f)] |})) /\
  exists step,
    trace (snd (sync_file env u off d f w1)) = trace w2 ++ step /\
    (In (OpenRead (path_join env d f)) step <-> (lt > rt \/ ls <> rs)%Z) /\
    (uploads step = [path_join env d f]
     <-> (lt > rt \/ ls <> rs)%Z /\ can_read env (path_join env d f) = true) /\
    (uploads step = [] \/ uploads step = [path_join env d f]) /\
    ((lt > rt \/ ls <> rs)%Z -> can_read env (path_join env d f) = true ->
     exists tail,
       step = upload_started (path_join env d f) f ls ++ tail /\ uploads tail = []) /\
    ((lt > rt \/ ls <> rs)%Z -> can_read env (path_join env d f) = false ->
     step = [Stdout ("uploading " ++ path_join env d f); OpenRead (path_join env d f)] /\
     main env fuel args w
     = (Raise IOError,
        {| server := server w2;
           trace := trace w2 ++ [Stdout ("uploading " ++ path_join env d f);
                                 OpenRead (path_join env d f)] |})) /\
    (~ (lt > rt \/ ls <> rs)%Z ->
     step = [] /\ sync_file env u off d f w1 = (Ok tt, w2)) /\
    (ls = rs -> (rt > lt)%Z -> step = []) /\
    (ls <> rs -> can_read env (path_join env d f) = true ->
     uploads step = [path_join env d f]).
Proof.
  intros P R Hm Hs Hr.
  pose proof (main_at_file env _ _ _ _ _ _ _ _ _ _ _ _ _ _ _ P R) as Q.
  split; [exact Q|]. rewrite Q. clear Q.
  unfold bind at 1.
  rewrite (sync_file_decided env _ _ _ _ _ _ _ _ _ _ Hm Hs Hr).
  split; [intros G; apply needs_upload_iff in G; now rewrite G|].
  split; [apply upload_run|].
  destruct (needs_upload lt ls rt rs) eqn:N.
  - apply needs_upload_iff in N. rewrite upload_run.
    destruct (can_read env (path_join env d f)) eqn:C.
    + assert (G : exists tail,
                trace (snd (match srv_storbinary ("STOR " ++ f) (server w2) with
                            | (Done _, s) =>
                                (Ok tt,
                                 {| server := s;
                                    trace := trace w2
                                      ++ upload_started (path_join env d f) f ls
                                      ++ [CloseFile (path_join env d f);
                                          Stdout (String Str.newline "")] |})
                            | (Perm, s) =>
                                (Raise error_perm,
                                 {| server := s;
                                    trace := trace w2
                                      ++ upload_started (path_join env d f) f ls |})
                            | (Fail, s) =>
                                (Raise error_other,
                                 {| server := s;
                                    trace := trace w2
                                      ++ upload_started (path_join env d f) f ls |})
                            end))
                = trace w2 ++ upload_started (path_join env d f) f ls ++ tail /\
                uploads tail = []).
      { destruct (srv_storbinary _ _) as [[[]| |] s]; cbn [snd trace].
        - eexists; split; reflexivity.
        - exists []. split; [now rewrite app_nil_r|reflexivity].
        - exists []. split; [now rewrite app_nil_r|reflexivity]. }
      destruct G as (tail & T & U).
      exists (upload_started (path_join env d f) f ls ++ tail).
      assert (V : uploads (upload_started (path_join env d f) f ls ++ tail)
                  = [path_join env d f]).
      { rewrite uploads_app, U. reflexivity. }
      split; [exact T|]. split; [|split; [|split; [|split; [|split; [|split; [|split]]]]]].
      * split; [auto|]. intros _. simpl. auto.
      * split; auto.
      * now right.
      * intros _ _. now exists tail.
      * intros _ Q. discriminate Q.
      * intros Q. contradiction.
      * intros E G. lia.
      * intros _ _. exact V.
    + cbn [snd trace fst].
      exists [Stdout ("uploading " ++ path_join env d f); OpenRead (path_join env d f)].
      split; [reflexivity|].
      split; [|split; [|split; [|split; [|split; [|split; [|split]]]]]].
      * split; [auto|]. intros _. simpl. auto.
      * split; [discriminate|]. intros [_ Q]. discriminate Q.
      * now left.
      * intros _ Q. discriminate Q.
      * intros _ _. split; reflexivity.
      * intros Q. contradiction.
      * intros E G. lia.
      * intros _ Q. discriminate Q.
  - assert (N' : ~ (lt > rt \/ ls <> rs)%Z).
    { intros G. apply needs_upload_iff in G. congruence. }
    exists []. cbn [snd]. split; [now rewrite app_nil_r|].
    split; [|split; [|split; [|split; [|split; [|split; [|split]]]]]].
    + split; [intros []|]. intros Q. contradiction.
    + split; [discriminate|]. intros [Q _]. contradiction.
    + now left.
    + intros Q. contradiction.
    + intros Q. contradiction.
    + auto.
    + auto.
    + intros Q. exfalso. apply N'. now right.
Qed.

(** C5, as the code has it.  Take any run and any file the loop comes to,
    as above.  A permanent error from the metadata query never ends the
    run: the query comes back without a result, the remote time and size
    are both taken to be 0, and the ordinary decision is made against
    them.  So the file is opened for upload exactly when its local time is
    positive or its local size is not 0, and is then sent with [STOR]
    unless it cannot be opened; an empty file dated at or before the epoch
    is passed over. *)
Theorem permission_failure_counts_as_absent (fuel : nat) (args : arguments)
    (w w0 w1 w2 : world Srv) (off : Z) (u : bool) (orph o1 : list string)
    (pre post : tree_t) (d f : string) (n1 n2 : list string) (lt ls : Z) :
  prepare env fuel args w
  = (Ok (off, u, orph, pre ++ (d, n1 ++ f :: n2) :: post), w0) ->
  mirror env (clean args) u off (pre ++ [(d, n1)]) [] orph w0 = (Ok o1, w1) ->
  getmtime env (path_join env d f) = Some lt ->
  getsize env (path_join env d f) = Some ls ->
  query_remote u f w1 = (Ok None, w2) ->
  (forall v : world Srv, fst (query_remote u f v) <> Raise error_perm) /\
  (forall (v : world Srv) s,
     srv_sendcmd ("MDTM " ++ f) (server v) = (Perm, s) ->
     query_remote false f v
     = (Ok None, {| server := s; trace := trace v ++ [Sendcmd ("MDTM " ++ f)] |})) /\
  remote_metadata env u off f w1 = (Ok (0, 0)%Z, w2) /\
  main env fuel args w
  = (sync_file env u off d f ;;
     rest_of_run env args u off d n2 post (struck env (clean args) d f o1)) w1 /\
  ((lt > 0 \/ ls <> 0)%Z ->
   sync_file env u off d f w1 = upload env (path_join env d f) f ls w2) /\
  upload env (path_join env d f) f ls w2
  = (if can_read env (path_join env d f) then
       match srv_storbinary ("STOR " ++ f) (server w2) with
       | (Done _, s) =>
           (Ok tt,
            {| server := s;
               trace := trace w2 ++ upload_started (path_join env d f) f ls
                          ++ [CloseFile (path_join env d f);
                              Stdout (String Str.newline "")] |})
       | (Perm, s) =>
           (Raise error_perm,
            {| server := s;
               trace := trace w2 ++ upload_started (path_join env d f) f ls |})
       | (Fail, s) =>
           (Raise error_other,
            {| server := s;
               trace := trace w2 ++ upload_started (path_join env d f) f ls |})
       end
     else
       (Raise IOError,
        {| server := server w2;
           trace := trace w2 ++ [Stdout ("uploading " ++ path_join env d f);
                                 OpenRead (path_join env d f)] |})) /\
  ((lt > 0 \/ ls <> 0)%Z ->
   (can_read env (path_join env d f) = true ->
    exists tail,
      trace (snd (sync_file env u off d f w1))
      = trace w2 ++ upload_started (path_join env d f) f ls ++ tail) /\
   (can_read env (path_join env d f) = false ->
    main env fuel args w
    = (Raise IOError,
       {| server := server w2;
          trace := trace w2 ++ [Stdout ("uploading " ++ path_join env d f);
                                OpenRead (path_join env d f)] |}))) /\
  (~ (lt > 0 \/ ls <> 0)%Z -> sync_file env u off d f w1 = (Ok tt, w2)).
Proof.
  intros P R Hm Hs Hq.
  assert (Hr : remote_metadata env u off f w1 = (Ok (0, 0)%Z, w2)).
  { unfold remote_metadata. now rewrite (bind_ok _ _ _ _ _ Hq). }
  split; [intros v; apply query_remote_never_perm|].
  split; [intros v s; apply mdtm_perm_is_absent|].
  split; [exact Hr|].
  pose proof (main_at_file env _ _ _ _ _ _ _ _ _ _ _ _ _ _ _ P R) as Q.
  split; [exact Q|]. rewrite Q. clear Q.
  unfold bind at 1.
  rewrite (sync_file_decided env _ _ _ _ _ _ _ _ _ _ Hm Hs Hr).
  split; [intros G; apply needs_upload_iff in G; now rewrite G|].
  split; [apply upload_run|].
  split.
  - intros G. apply needs_upload_iff in G. rewrite G. split; intros C.
    + destruct (upload_trace env (path_join env d f) f ls w2 C) as (tail & T & _).
      now exists tail.
    + now rewrite (upload_unreadable env _ _ _ _ C).
  - intros G. destruct (needs_upload lt ls 0 0) eqn:N; [|reflexivity].
    apply needs_upload_iff in N. contradiction.
Qed.

End Decision.

(** ** The navigator in the run (C2) *)

Section NavigatorInTheLoop.

Context {Srv : Type} `{Transport Srv}.
Variable env : local_env.

Lemma prepare_builds (fuel : nat) (args : arguments) (v w0 : world Srv)
    (off : Z) (u : bool) (orph : list string) (tree : tree_t) :
  prepare env fuel args v = (Ok (off, u, orph, tree), w0) ->
  exists explicit wx, build_tree env args explicit wx = (Ok tree, w0).
Proof.
  intros P. unfold prepare in P.
  apply bind_inv in P. destruct P as (explicit & wa & _ & S).
  unfold survey in S.
  apply bind_inv in S. destruct S as (off' & w4 & _ & S).
  apply bind_inv in S. destruct S as (u' & w5 & _ & S).
  apply bind_inv in S. destruct S as (orph' & w6 & _ & S).
  apply bind_inv in S. destruct S as (tree' & w7 & B & S).
  injection S as <- <- <- <- <-. now exists explicit, w6.
Qed.

(** C2, as the code has it.  Let [D1] and [D2] be consecutive entries of
    the tree a run has built, and let the loop have dealt with [D1].  The
    run then navigates from the segments of [D1], which is what it tracks
    as its current directory, to the segments of [D2].  A navigation that
    completes first issues exactly [len(D1) - k] commands [cwd '..'], [k]
    being the length of the longest common prefix of the two segment
    lists, then only enters or creates the segments of [D2] beyond [k];
    the run goes on with the segments of [D2] as its current directory.
    Unless one of the segments entered is itself ['..'], the commands
    [cwd '..'] of the navigation number exactly [len(D1) - k]. *)
Theorem navigator_cost (fuel : nat) (args : arguments) (v w0 w1 : world Srv)
    (off : Z) (u : bool) (orph o1 : list string) (pre post : tree_t)
    (D1 D2 : string) (f1 f2 : list string) :
  prepare env fuel args v
  = (Ok (off, u, orph, pre ++ (D1, f1) :: (D2, f2) :: post), w0) ->
  mirror env (clean args) u off (pre ++ [(D1, f1)]) [] orph w0 = (Ok o1, w1) ->
  let k := common_prefix_length (segments env D1) (segments env D2) in
  let n := List.length (segments env D1) - k in
  main env fuel args v
  = (l2 <- navigate (segments env D1) (segments env D2) ;;
     o2 <- sync_files env (clean args) u off D2 f2 o1 ;;
     remaining <- mirror env (clean args) u off post l2 o2 ;;
     finish args remaining) w1 /\
  forall l2 w2,
    navigate (segments env D1) (segments env D2) w1 = (Ok l2, w2) ->
    l2 = segments env D2 /\
    (exists down,
       trace w2 = trace w1 ++ repeat (Cwd "..") n ++ down /\
       Forall (enters (skipn k (segments env D2))) down /\
       (~ In ".." (skipn k (segments env D2)) ->
        count_up (repeat (Cwd "..") n ++ down) = n)) /\
    main env fuel args v
    = (o2 <- sync_files env (clean args) u off D2 f2 o1 ;;
       remaining <- mirror env (clean args) u off post (segments env D2) o2 ;;
       finish args remaining) w2.
Proof.
  intros P R k n.
  destruct (prepare_builds _ _ _ _ _ _ _ _ P) as (explicit & wx & B).
  pose proof (consecutive_entries_ascend env _ _ _ _ _ _ _ _ _ _ B) as L.
  assert (Q : main env fuel args v
              = (l2 <- navigate (segments env D1) (segments env D2) ;;
                 o2 <- sync_files env (clean args) u off D2 f2 o1 ;;
                 remaining <- mirror env (clean args) u off post l2 o2 ;;
                 finish args remaining) w1).
  { rewrite (main_after_prepare env _ _ _ _ _ _ _ _ P). unfold bind at 1.
    rewrite (main_at_directory env _ _ _ _ _ _ _ _ _ _ _ _ _ _ R).
    unfold bind.
    destruct (navigate _ _ w1) as [[l2|e|] w2]; try reflexivity.
    destruct (sync_files env _ _ _ _ _ _ w2) as [[o2|e|] w3]; reflexivity. }
  split; [exact Q|].
  intros l2 w2 N.
  destruct (navigate_from_to env D1 D2 w1 w2 l2 L N) as (-> & down & T & F & C).
  split; [reflexivity|]. split; [now exists down|].
  rewrite Q. now rewrite (bind_ok _ _ _ _ _ N).
Qed.

End NavigatorInTheLoop.

(** ** The marker in the run (C8) *)

Section MarkerInTheRun.

Context {Srv : Type} `{Transport Srv}.
Variable env : local_env.

Lemma emits_check_features_any (allowed : event -> bool) :
  allowed (Sendcmd "FEAT") = true ->
  emits_only allowed (check_features : M Srv bool).
Proof.
  intros A. unfold check_features, ftp_sendcmd.
  apply emits_bind; [now apply emits_call|].
  intros features w. rewrite negotiate_mlst_run. exists []. now rewrite app_nil_r.
Qed.

(** The survey of lines 88-191 hands no file to the server but the marker
    and deletes nothing. *)
Lemma emits_survey (allowed : event -> bool) (fuel : nat) (args : arguments)
    (explicit : option (list string)) :
  (forall e, is_calibration e = true -> allowed e = true) ->
  (forall e, is_index e = true -> allowed e = true) ->
  (forall e, is_local_walk e = true -> allowed e = true) ->
  allowed (Sendcmd "FEAT") = true ->
  emits_only allowed
    (survey env fuel args explicit : M Srv (Z * bool * list string * tree_t)).
Proof.
  intros Ac Ai Aw Af. unfold survey.
  apply emits_bind; [eapply emits_weaken; [exact Ac|apply emits_calibrate]|].
  intros off. apply emits_bind; [now apply emits_check_features_any|].
  intros u. apply emits_bind.
  { destruct (clean args); [|apply emits_ret].
    unfold stdout_write, print.
    apply emits_bind; [apply emits_emit, Ai; reflexivity|intros _].
    apply emits_bind; [eapply emits_weaken; [exact Ai|apply emits_rlst]|].
    intros found.
    apply emits_bind; [apply emits_emit, Ai; reflexivity|intros _; apply emits_ret]. }
  intros orph.
  apply emits_bind; [eapply emits_weaken; [exact Aw|apply emits_build_tree]|].
  intros tree. apply emits_ret.
Qed.

Lemma emits_reach_docroot (allowed : event -> bool) (args : arguments) :
  (forall e, is_print e = true -> allowed e = true) ->
  (forall e, is_navigation e = true -> allowed e = true) ->
  allowed (Login (host args) (user args) (password args)) = true ->
  emits_only allowed (reach_docroot env args : M Srv (option (list string))).
Proof.
  intros Ap An Al. unfold reach_docroot, ftp_login.
  apply emits_bind; [eapply emits_weaken; [exact Ap|apply emits_explicit_files]|].
  intros explicit. apply emits_bind; [now apply emits_call|intros _].
  apply emits_bind; [eapply emits_weaken; [exact An|apply emits_goto_docroot]|].
  intros _. apply emits_ret.
Qed.

Lemma emits_finish (allowed : event -> bool) (args : arguments)
    (remaining : list string) :
  (forall e, is_cleanup e = true -> allowed e = true) ->
  allowed Quit = true ->
  emits_only allowed (finish args remaining : M Srv unit).
Proof.
  intros Ac Aq. unfold finish, ftp_quit.
  apply emits_bind; [|intros _; now apply emits_call].
  destruct (clean args); [|apply emits_ret].
  eapply emits_weaken; [exact Ac|apply emits_delete_orphans].
Qed.

Lemma bind_assoc {A B C} (m : M Srv A) (f : A -> M Srv B) (g : B -> M Srv C)
    (w : world Srv) :
  bind (bind m f) g w = bind m (fun a => bind (f a) g) w.
Proof. unfold bind. now destruct (m w) as [[a|e|] w1]. Qed.

Lemma bind_extends {A B} (m : M Srv A) (f : A -> M Srv B) (w : world Srv) :
  (forall a, emits_only (fun _ => true) (f a)) ->
  exists later, trace (snd (bind m f w)) = trace (snd (m w)) ++ later.
Proof.
  intros F. unfold bind. destruct (m w) as [[a|e|] w1]; cbn [snd].
  - destruct (F a w1) as (n & T & _). now exists n.
  - exists []. now rewrite app_nil_r.
  - exists []. now rewrite app_nil_r.
Qed.

(** A run that has come to the document root goes on with the
    calibration, there. *)
Lemma main_at_calibration (fuel : nat) (args : arguments)
    (explicit : option (list string)) (w w1 : world Srv) :
  reach_docroot env args w = (Ok explicit, w1) ->
  exists later,
    trace (snd (main env fuel args w)) = trace (snd (calibrate env w1)) ++ later.
Proof.
  intros R. rewrite main_phases. unfold prepare.
  rewrite bind_assoc, (bind_ok _ _ _ _ _ R). unfold survey.
  rewrite bind_assoc. apply bind_extends. intros off.
  apply emits_bind.
  - apply emits_bind; [now apply emits_check_features_any|intros u].
    apply emits_bind.
    { destruct (clean args); [|apply emits_ret].
      unfold stdout_write, print.
      apply emits_bind; [now apply emits_emit|intros _].
      apply emits_bind; [eapply emits_weaken; [|apply emits_rlst]; auto|].
      intros found.
      apply emits_bind; [now apply emits_emit|intros _; apply emits_ret]. }
    intros orph.
    apply emits_bind; [eapply emits_weaken; [|apply emits_build_tree]; auto|].
    intros tree. apply emits_ret.
  - intros [[[off' u] orph] tree].
    apply emits_bind; [eapply emits_weaken; [|apply emits_mirror]; auto|].
    intros remaining. now apply emits_finish.
Qed.

(** C8, as the code has it.  A run that has come to the document root
    goes on with the calibration there, and ends with it if the
    calibration fails.  The calibration first tries to create the local
    marker; if it cannot, it ends there with [IOError], nothing sent and
    nothing removed.  Otherwise it sends
    [STOR .timestamp], and whatever happens next the local marker is closed
    and [os.remove] is called on it before the calibration is left; the
    calibration sends nothing else but the [MDTM] query, so it never
    deletes the remote marker.  And a run without [--clean] deletes nothing
    on the server at all. *)
Theorem marker_is_stored_and_local_copy_removed (fuel : nat) (args : arguments)
    (w : world Srv) :
  (forall explicit w1,
     reach_docroot env args w = (Ok explicit, w1) ->
     (exists later,
        trace (snd (main env fuel args w)) = trace (snd (calibrate env w1)) ++ later) /\
     (forall e wc,
        calibrate env w1 = (Raise e, wc) -> main env fuel args w = (Raise e, wc))) /\
  (forall v : world Srv,
     (can_write env ".timestamp" = false ->
      calibrate env v
      = (Raise IOError,
         {| server := server v; trace := trace v ++ [OpenWrite ".timestamp"] |})) /\
     (can_write env ".timestamp" = true ->
      exists query,
        trace (snd (calibrate env v))
        = trace v
          ++ [OpenWrite ".timestamp";
              Storbinary "STOR .timestamp" ".timestamp" false;
              CloseFile ".timestamp"]
          ++ query ++ [Remove ".timestamp"] /\
        (query = [] \/ query = [Sendcmd "MDTM .timestamp"]))) /\
  (clean args = false ->
   exists new,
     trace (snd (main env fuel args w)) = trace w ++ new /\
     forall f, ~ In (Delete f) new).
Proof.
  split; [|split].
  - intros explicit w1 R.
    split; [now apply main_at_calibration with (explicit := explicit)|].
    intros e wc C. rewrite main_phases. unfold prepare.
    rewrite bind_assoc, (bind_ok _ _ _ _ _ R). unfold survey.
    rewrite bind_assoc. now rewrite (bind_raise _ _ _ _ _ C).
  - intros v. split; [apply calibrate_unwritable|apply calibrate_trace].
  - intros C.
    assert (A : emits_only no_delete (main env fuel args : M Srv unit)).
    { apply emits_main. rewrite C. intros []; simpl; auto. }
    destruct (A w) as (new & T & F). exists new. split; [exact T|].
    intros f I. rewrite forallb_forall in F. specialize (F _ I). discriminate F.
Qed.

End MarkerInTheRun.

(** ** Excluded directories in the run (C4) *)

Section ExcludedInTheRun.

Context {Srv : Type} `{Transport Srv}.
Variable env : local_env.

Lemma file_names_In (f : string) (cs : list node) :
  In f (file_names cs) <-> In (File f) cs.
Proof.
  unfold file_names. rewrite in_flat_map. split.
  - intros ([g|g sub] & I & J); simpl in J; [|contradiction].
    destruct J as [<-|[]]. exact I.
  - intros I. exists (File f). simpl. auto.
Qed.

Lemma good_entry_walked (rules : list Re.regex) (top : list node)
    (d f : string) (names : list string) :
  good_entry env rules top (d, names) -> In f names ->
  walked_file env rules top (path_join env d f).
Proof.
  intros [(cs & V & E) X] I. simpl in *.
  exists d, cs, f. split; [exact V|]. split.
  - subst names. unfold unexcluded_files in I. apply filter_In in I.
    now apply file_names_In.
  - split; [now apply X|reflexivity].
Qed.

Lemma uploads_of_allowed (allowed : event -> bool) (S : string -> Prop)
    (new : list event) :
  (forall line src p, allowed (Storbinary line src p) = true -> S src) ->
  forallb allowed new = true ->
  Forall S (uploads new).
Proof.
  intros A F. induction new as [|e new IH]; simpl; [constructor|].
  simpl in F. apply andb_true_iff in F. destruct F as [Fe F].
  apply Forall_app. split; [|now apply IH].
  destruct e; simpl; try constructor; [|constructor].
  eapply A. exact Fe.
Qed.

(** When no file is named, the tree of the run is the one built by
    walking. *)
Lemma prepare_walks (fuel : nat) (args : arguments) (v w0 : world Srv)
    (off : Z) (u : bool) (orph : list string) (tree : tree_t) :
  files args = [] ->
  prepare env fuel args v = (Ok (off, u, orph, tree), w0) ->
  exists wx, build_tree env args None wx = (Ok tree, w0).
Proof.
  intros Fs P. unfold prepare in P.
  apply bind_inv in P. destruct P as (explicit & wa & R & S).
  unfold reach_docroot in R.
  apply bind_inv in R. destruct R as (e & w1 & R1 & R).
  apply bind_inv in R. destruct R as ([] & w2 & _ & R).
  apply bind_inv in R. destruct R as ([] & w3 & _ & R).
  injection R as <- <-.
  unfold explicit_files in R1. rewrite Fs in R1. injection R1 as <- <-.
  unfold survey in S.
  apply bind_inv in S. destruct S as (off' & w4 & _ & S).
  apply bind_inv in S. destruct S as (u' & w5 & _ & S).
  apply bind_inv in S. destruct S as (orph' & w6 & _ & S).
  apply bind_inv in S. destruct S as (tree' & w7 & B & S).
  injection S as <- <- <- <- <-. now exists w6.
Qed.

Lemma hollow_children (rules : list Re.regex) (root name : string) (cs : list node) :
  hollow env rules root (Dir name cs)
  = Dir name (map (hollow_child env rules root) cs).
Proof. reflexivity. Qed.

(** In the emptied file system a directory is reached through directories
    that meet no rule, or it is empty. *)
Lemma hollow_is_hollow (rules : list Re.regex) (d : string) (cs : list node) :
  present env (hollow_root env rules) d cs ->
  reached env rules (hollow_root env rules) d cs \/ cs = [].
Proof.
  intros P.
  assert (G : (reached env rules (hollow_root env rules) d cs /\
               exists cs0, cs = map (hollow_child env rules d) cs0) \/ cs = []).
  { induction P as [|d cs name sub P IH I _].
    - left. split; [apply reached_top|]. now exists (local_root env).
    - destruct IH as [[V (cs0 & ->)] | ->]; [|destruct I].
      apply in_map_iff in I. destruct I as (c0 & E & I0).
      destruct c0 as [f0|nm sub0]; [discriminate E|].
      unfold hollow_child in E.
      destruct (excluded env rules (path_join env d nm)) eqn:X.
      + injection E as <- <-. now right.
      + rewrite hollow_children in E. injection E as <- <-.
        left. split; [|now exists sub0].
        apply (reached_child env rules _ d (map (hollow_child env rules d) cs0) nm).
        * exact V.
        * apply in_map_iff. exists (Dir nm sub0). split; [|exact I0].
          unfold hollow_child. now rewrite X, hollow_children.
        * exact X. }
  destruct G as [[V _]|E]; auto.
Qed.

(** C4.  Let the tree be built by walking.  Every entry of it is a
    directory reached from [LOCAL_ROOT] through directories none of which
    meets an exclude rule, with exactly those of its files that meet none;
    so every file of the tree is a file of such a directory, and only such
    directories are ever listed.  The tree, and all the walk does, is the
    same as on the file system in which every directory that meets an
    exclude rule has been emptied, at every depth, so that nothing at or
    below such a directory has any part in it: in that file system a
    directory is reached through directories that meet no rule, or it
    holds nothing.  The loop that follows uploads
    files of that tree only; and in a run without named files, the files
    handed to [STOR] are the marker and files of directories so reached,
    nothing else. *)
Theorem excluded_directories_are_never_entered (args : arguments)
    (w w' : world Srv) (tree : tree_t) :
  build_tree env args None w = (Ok tree, w') ->
  let rules := exclude_rules args in
  let top := local_root env in
  (forall d names,
     In (d, names) tree ->
     exists cs,
       reached env rules top d cs /\ names = unexcluded_files env rules d cs) /\
  (forall d names f,
     In (d, names) tree -> In f names ->
     walked_file env rules top (path_join env d f)) /\
  (forall d, In (Listdir d) (trace w') ->
             In (Listdir d) (trace w) \/ exists cs, reached env rules top d cs) /\
  build_tree env args None w
  = build_tree (with_root env (hollow_root env rules)) args None w /\
  (forall d cs,
     present env (hollow_root env rules) d cs ->
     reached env rules (hollow_root env rules) d cs \/ cs = []) /\
  (forall c u offset lastDirs orphaned (w2 : world Srv),
     uploads_within (walked_file env rules top)
       w2 (snd (mirror env c u offset tree lastDirs orphaned w2))) /\
  (files args = [] ->
   forall fuel (v : world Srv),
     exists new,
       trace (snd (main env fuel args v)) = trace v ++ new /\
       Forall (fun src => src = ".timestamp" \/ walked_file env rules top src)
         (uploads new)).
Proof.
  intros E rules top. destruct (walked_tree_is_good env args w w' tree E) as [G L].
  rewrite Forall_forall in G.
  assert (W : forall t (x x' : world Srv),
            build_tree env args None x = (Ok t, x') ->
            forall src, in_tree env t src -> walked_file env rules top src).
  { intros t x x' B src (d & names & f & I & J & ->).
    destruct (walked_tree_is_good env args x x' t B) as [Gt _].
    rewrite Forall_forall in Gt.
    exact (good_entry_walked _ _ _ _ _ (Gt _ I) J). }
  split; [|split; [|split; [|split; [|split; [|split]]]]].
  - intros d names I. exact (proj1 (G _ I)).
  - intros d names f I J. exact (good_entry_walked _ _ _ _ _ (G _ I) J).
  - exact L.
  - apply build_tree_hollow.
  - apply hollow_is_hollow.
  - intros c u offset lastDirs orphaned w2.
    destruct (mirror_uploads_the_tree env c u offset tree lastDirs orphaned w2)
      as (new & T & F).
    exists new. split; [exact T|].
    eapply Forall_impl; [|exact F]. intros src. now apply (W tree w w').
  - intros Fs fuel v. rewrite main_phases.
    assert (P : emits_only stores_marker_only
                  (prepare env fuel args : M Srv (Z * bool * list string * tree_t))).
    { unfold prepare. apply emits_bind.
      - apply emits_reach_docroot; [now intros []|now intros []|reflexivity].
      - intros explicit. apply emits_survey; try reflexivity.
        + intros []; simpl; try discriminate; auto.
          intros Q. apply andb_true_iff in Q. tauto.
        + now intros [].
        + now intros []. }
    destruct (P v) as (n0 & T0 & F0).
    assert (U0 : Forall (fun src => src = ".timestamp" \/ walked_file env rules top src)
                   (uploads n0)).
    { apply (uploads_of_allowed stores_marker_only); [|exact F0].
      intros line src p Q. left. now apply String.eqb_eq. }
    unfold bind at 1.
    destruct (prepare env fuel args v) as [[[[[off u] orph] t]|e|] w0] eqn:Pv;
      cbn [snd] in *; try (exists n0; split; [exact T0|exact U0]).
    destruct (prepare_walks _ _ _ _ _ _ _ _ Fs Pv) as (wx & B).
    destruct (mirror_uploads_the_tree env (clean args) u off t [] orph w0)
      as (n1 & T1 & F1).
    assert (U1 : Forall (fun src => src = ".timestamp" \/ walked_file env rules top src)
                   (uploads n1)).
    { eapply Forall_impl; [|exact F1]. intros src I. right.
      now apply (W t wx w0). }
    unfold bind.
    destruct (mirror env (clean args) u off t [] orph w0) as [[rem|e|] w1];
      cbn [snd] in *;
      try (exists (n0 ++ n1); rewrite T1, T0, app_assoc; split; [reflexivity|];
           rewrite uploads_app; now apply Forall_app).
    assert (Q : emits_only stores_marker_only (finish args rem : M Srv unit)).
    { apply emits_finish; [now intros []|reflexivity]. }
    destruct (Q w1) as (n2 & T2 & F2).
    exists (n0 ++ n1 ++ n2). rewrite T2, T1, T0, <- !app_assoc.
    split; [reflexivity|].
    rewrite !uploads_app. apply Forall_app. split; [exact U0|].
    apply Forall_app. split; [exact U1|].
    apply (uploads_of_allowed stores_marker_only); [|exact F2].
    intros line src p K. left. now apply String.eqb_eq.
Qed.

End ExcludedInTheRun.

(** ** The statements on concrete runs *)

Lemma upload_iff_newer_or_size_differs_witness :
  let env := Examples3.a_only in
  let args := Examples3.plain false [] in
  let w0 := snd (prepare env 5 args Examples3.mlst_remote) in
  let w1 := snd (mirror env false false 10 [("a", [])] [] [] w0) in
  let w2 := snd (remote_metadata env false 10 "x.txt" w1) in
  main env 5 args Examples3.mlst_remote
  = (sync_file env false 10 "a" "x.txt" ;;
     rest_of_run env args false 10 "a" [] [] (struck env false "a" "x.txt" [])) w1 /\
  exists step,
    trace (snd (sync_file env false 10 "a" "x.txt" w1)) = trace w2 ++ step /\
    (In (OpenRead "a/x.txt") step <-> (100 > 210 \/ 10 <> 10)%Z).
Proof.
  intros env args w0 w1 w2.
  destruct (upload_iff_newer_or_size_differs env 5 args Examples3.mlst_remote
              w0 w1 w2 10 false [] [] [] [] "a" "x.txt" [] [] 100 10 210 10)
    as (A & _ & _ & step & T & O & _); try (vm_compute; reflexivity).
  split; [exact A|]. exists step. split; [exact T|exact O].
Defined.

(** C1 as stated fails: the server holds an older [a/x.txt], so the local
    one is to be uploaded, but the local file cannot be opened; the run
    ends with [IOError] and the file was never handed to [STOR]. *)
Lemma unreadable_file_is_not_uploaded :
  let env := Examples6.locked in
  let args := Examples3.plain false [] in
  let w0 := snd (prepare env 5 args Examples6.older_remote) in
  let w1 := snd (mirror env false false 10 [("a", [])] [] [] w0) in
  prepare env 5 args Examples6.older_remote
  = (Ok (10%Z, false, [], [("a", ["x.txt"])]), w0) /\
  mirror env false false 10 [("a", [])] [] [] w0 = (Ok [], w1) /\
  getmtime env "a/x.txt" = Some 100%Z /\
  getsize env "a/x.txt" = Some 10%Z /\
  fst (remote_metadata env false 10 "x.txt" w1) = Ok (60, 10)%Z /\
  (100 > 60)%Z /\
  fst (main env 5 args Examples6.older_remote) = Raise IOError /\
  uploads (trace (snd (main env 5 args Examples6.older_remote))) = [".timestamp"] /\
  last (trace (snd (main env 5 args Examples6.older_remote))) Quit = OpenRead "a/x.txt".
Proof. vm_compute. repeat split; reflexivity. Qed.

Lemma permission_failure_counts_as_absent_witness :
  let env := Examples3.a_only in
  let args := Examples3.plain false [] in
  let w0 := snd (prepare env 5 args Examples6.bare_remote) in
  let w1 := snd (mirror env false false 10 [("a", [])] [] [] w0) in
  let w2 := snd (query_remote false "x.txt" w1) in
  remote_metadata env false 10 "x.txt" w1 = (Ok (0, 0)%Z, w2) /\
  main env 5 args Examples6.bare_remote
  = (sync_file env false 10 "a" "x.txt" ;;
     rest_of_run env args false 10 "a" [] [] (struck env false "a" "x.txt" [])) w1 /\
  exists tail,
    trace (snd (sync_file env false 10 "a" "x.txt" w1))
    = trace w2 ++ upload_started "a/x.txt" "x.txt" 10 ++ tail.
Proof.
  intros env args w0 w1 w2.
  destruct (permission_failure_counts_as_absent env 5 args Examples6.bare_remote
              w0 w1 w2 10 false [] [] [] [] "a" "x.txt" [] [] 100 10)
    as (_ & _ & R & A & _ & _ & U & _); try (vm_compute; reflexivity).
  split; [exact R|]. split; [exact A|].
  apply U; [left; reflexivity|reflexivity].
Defined.

Lemma navigator_cost_witness :
  let env := Examples.here in
  let args := Examples3.plain false [] in
  let w0 := snd (prepare env 5 args Examples6.bare_remote) in
  let w1 := snd (mirror env false false 10 [("a", ["x.txt"])] [] [] w0) in
  main env 5 args Examples6.bare_remote
  = (l2 <- navigate ["a"] ["b"] ;;
     o2 <- sync_files env false false 10 "b" ["y.txt"] [] ;;
     remaining <- mirror env false false 10 [] l2 o2 ;;
     finish args remaining) w1 /\
  forall l2 w2,
    navigate ["a"] ["b"] w1 = (Ok l2, w2) ->
    l2 = ["b"] /\
    (exists down,
       trace w2 = trace w1 ++ repeat (Cwd "..") 1 ++ down /\
       Forall (enters ["b"]) down /\
       (~ In ".." ["b"] -> count_up (repeat (Cwd "..") 1 ++ down) = 1)) /\
    main env 5 args Examples6.bare_remote
    = (o2 <- sync_files env false false 10 "b" ["y.txt"] [] ;;
       remaining <- mirror env false false 10 [] ["b"] o2 ;;
       finish args remaining) w2.
Proof.
  intros env args w0 w1.
  apply (navigator_cost env 5 args Examples6.bare_remote w0 w1 10 false [] []
           [] [] "a" "b" ["x.txt"] ["y.txt"]); vm_compute; reflexivity.
Defined.

(** C2 as stated fails: of the files named [a/x] and [a/../b/y] the tree
    has the consecutive entries [a] and [a/../b]; the segments of the
    first are a prefix of those of the second, so the claim counts no move
    to the parent, but the navigation sends one, for the segment ['..']. *)
Lemma parent_segment_costs_a_move :
  let env := Examples6.updir in
  let args := Examples6.updir_args in
  let w0 := snd (prepare env 5 args Examples6.bare_remote) in
  let w1 := snd (mirror env false false 10 [("a", ["x"])] [] [] w0) in
  let w2 := snd (navigate (segments env "a") (segments env "a/../b") w1) in
  prepare env 5 args Examples6.bare_remote
  = (Ok (10%Z, false, [], [("a", ["x"]); ("a/../b", ["y"])]), w0) /\
  ("a" <? "a/../b")%string = true /\
  mirror env false false 10 [("a", ["x"])] [] [] w0 = (Ok [], w1) /\
  navigate (segments env "a") (segments env "a/../b") w1 = (Ok ["a"; ".."; "b"], w2) /\
  trace w2 = trace w1 ++ [Cwd ".."; Cwd "b"; Mkd "b"; Cwd "b"] /\
  count_up [Cwd ".."; Cwd "b"; Mkd "b"; Cwd "b"] = 1 /\
  List.length (segments env "a")
  - common_prefix_length (segments env "a") (segments env "a/../b") = 0 /\
  fst (main env 5 args Examples6.bare_remote) = Ok tt.
Proof. vm_compute. repeat split; reflexivity. Qed.

Lemma marker_is_stored_and_local_copy_removed_witness :
  let env := Examples6.read_only_cwd in
  let args := Examples3.plain false [] in
  let w1 := snd (reach_docroot env args Examples6.bare_remote) in
  main env 5 args Examples6.bare_remote
  = (Raise IOError,
     {| server := server w1; trace := trace w1 ++ [OpenWrite ".timestamp"] |}).
Proof.
  intros env args w1.
  destruct (marker_is_stored_and_local_copy_removed env 5 args Examples6.bare_remote)
    as (A & B & _).
  destruct (A None w1) as [_ A2]; [vm_compute; reflexivity|].
  apply A2. apply (proj1 (B w1)). reflexivity.
Defined.

Lemma excluded_directories_are_never_entered_witness :
  let env := Examples4.with_skip in
  let args := Examples4.skip_args in
  hollow_root env (exclude_rules args)
  = [Dir "a" [File "x.txt"]; File ".timestamp"; Dir "skip" []] /\
  filter is_read_only
    (filter (fun e => negb (is_print e))
       (trace (snd (build_tree env args None Examples.nothing))))
  = [Listdir ""; Listdir "a"] /\
  build_tree env args None Examples.nothing
  = build_tree (with_root env (hollow_root env (exclude_rules args))) args None
      Examples.nothing /\
  forall d names,
    In (d, names) [("a", ["x.txt"])] ->
    exists cs,
      reached env (exclude_rules args) (local_root env) d cs /\
      names = unexcluded_files env (exclude_rules args) d cs.
Proof.
  intros env args. split; [reflexivity|]. split; [reflexivity|].
  destruct (excluded_directories_are_never_entered env args Examples.nothing
              (snd (build_tree env args None Examples.nothing))
              [("a", ["x.txt"])]) as (A & _ & _ & B & _);
    [vm_compute; reflexivity|].
  split; [exact B|exact A].
Defined.
